(** * Mockmetheus: query parsing, request building and response normalisation

    A shallow embedding of [correctness/mockmetheus.py]: the duration parser
    [parse_duration], the query parser and request builder
    [construct_read_request], and the label normalisation done at the end of
    [remote_read].

    Python values are modelled as follows.
    - A [str] is a list of characters with code points below 256.  On that
      range the character classes of [re] ([\d], [\s]) and of [str.strip] are
      the ones written out below.
    - An [int] is a [Z]; integer conversion has no size limit, and neither
      have the integer fields of the messages.
    - A [ValueError] is a value of type [error], one constructor per message.
    - [time.time()] is a parameter [now] of the parser (milliseconds). *)

From Stdlib Require Import Ascii String.
From Stdlib Require Import List ZArith NArith Lia Bool Arith.
From Stdlib Require Import Sorting.Permutation Sorting.Sorted.
Import ListNotations.

Local Open Scope char_scope.
Local Open Scope list_scope.

(** ** Strings and character classes *)

Definition str := list ascii.

Definition lit (x : string) : str := list_ascii_of_string x.

Definition code (c : ascii) : N := N_of_ascii c.

Definition in_range (lo hi c : ascii) : bool :=
  (code lo <=? code c)%N && (code c <=? code hi)%N.

(** [\d] and [0-9]. *)
Definition is_digit (c : ascii) : bool := in_range "0" "9" c.

(** [a-zA-Z]. *)
Definition is_alpha (c : ascii) : bool :=
  in_range "a" "z" c || in_range "A" "Z" c.

(** [\s], and the characters removed by [str.strip()]: tab to carriage
    return, the four separators 28..31, space, NEL and no-break space. *)
Definition is_space (c : ascii) : bool :=
  let n := code c in
  ((9 <=? n) && (n <=? 13) || (28 <=? n) && (n <=? 32)
   || (n =? 133) || (n =? 160))%N.

Definition dquote : ascii := ascii_of_nat 34.
Definition newline : ascii := ascii_of_nat 10.

(** ** A backtracking matcher for the patterns of the module

    Patterns are kept as data so that each one reads like its source
    literal.  Matching is by continuation: alternatives are tried in the
    order [re] tries them (greedy repetition first takes one more item, an
    optional group is first tried present, an alternation goes left to
    right) and the first complete match wins. *)

Inductive regex : Type :=
| Eps                         (* the empty pattern *)
| Cls (p : ascii -> bool)     (* one character of a class *)
| Cat (r1 r2 : regex)         (* r1 r2 *)
| Alt (r1 r2 : regex)         (* r1|r2 *)
| Opt (r : regex)             (* r? *)
| Star (r : regex)            (* r* *)
| Grp (n : nat) (r : regex)   (* capturing group number n *)
| Bos                         (* ^ *)
| Eos.                        (* $ *)

Definition Chr (c : ascii) : regex := Cls (Ascii.eqb c).
Definition Plus (r : regex) : regex := Cat r (Star r).
Definition Not (p : ascii -> bool) : ascii -> bool := fun c => negb (p c).


(** A literal word. *)
Fixpoint Word (s : str) : regex :=
  match s with
  | [] => Eps
  | c :: s' => Cat (Chr c) (Word s')
  end.

Declare Scope regex_scope.
Delimit Scope regex_scope with re.
Bind Scope regex_scope with regex.
Infix "@@" := Cat (at level 60, right associativity) : regex_scope.

(** Captured groups, most recent first. *)
Definition caps := list (nat * str).

Fixpoint group (n : nat) (c : caps) : option str :=
  match c with
  | [] => None
  | (m, s) :: c' => if Nat.eqb n m then Some s else group n c'
  end.

Section Matcher.
Context {A : Type}.

(** A continuation receives the position reached, the text that is left
    and the groups captured so far. *)
Definition cont := nat -> str -> caps -> option A.

Definition orelse (x : option A) (y : unit -> option A) : option A :=
  match x with
  | Some a => Some a
  | None => y tt
  end.

(** Greedy repetition of [step]: one more item if that leads to a match,
    none otherwise.  An item that consumes nothing ends the repetition;
    [n] bounds the number of items by the length of the text. *)
Fixpoint star_loop (step : nat -> str -> caps -> cont -> option A)
  (k : cont) (n : nat) (i : nat) (s : str) (c : caps) : option A :=
  match n with
  | O => k i s c
  | S n' =>
      orelse
        (step i s c
           (fun i' s' c' =>
              if Nat.ltb i i' then star_loop step k n' i' s' c' else None))
        (fun _ => k i s c)
  end.

Fixpoint rmatch (r : regex) (i : nat) (s : str) (c : caps) (k : cont)
  {struct r} : option A :=
  match r with
  | Eps => k i s c
  | Cls p =>
      match s with
      | x :: s' => if p x then k (S i) s' c else None
      | [] => None
      end
  | Cat r1 r2 => rmatch r1 i s c (fun i' s' c' => rmatch r2 i' s' c' k)
  | Alt r1 r2 => orelse (rmatch r1 i s c k) (fun _ => rmatch r2 i s c k)
  | Opt r1 => orelse (rmatch r1 i s c k) (fun _ => k i s c)
  | Star r1 => star_loop (rmatch r1) k (length s) i s c
  | Grp n r1 =>
      rmatch r1 i s c
        (fun i' s' c' => k i' s' ((n, firstn (i' - i) s) :: c'))
  | Bos => if Nat.eqb i 0 then k i s c else None
  | Eos =>
      match s with
      | [] => k i s c
      | [x] => if Ascii.eqb x newline then k i s c else None
      | _ => None
      end
  end.
End Matcher.

(** [re.match(r, s)]: a match starting at position 0. *)
Definition re_match (r : regex) (s : str) : option caps :=
  rmatch r 0 s [] (fun _ _ c => Some c).

(** [re.search(r, s)]: the match at the leftmost position that has one. *)
Fixpoint search_from (r : regex) (i : nat) (s : str) : option caps :=
  match rmatch r i s [] (fun _ _ c => Some c) with
  | Some c => Some c
  | None =>
      match s with
      | [] => None
      | _ :: s' => search_from r (S i) s'
      end
  end.

Definition re_search (r : regex) (s : str) : option caps := search_from r 0 s.

(** ** The string methods the module uses *)

Fixpoint lstrip (s : str) : str :=
  match s with
  | x :: s' => if is_space x then lstrip s' else s
  | [] => []
  end.

Definition rstrip (s : str) : str := rev (lstrip (rev s)).

(** [s.strip()] *)
Definition strip (s : str) : str := rstrip (lstrip s).

(** [s.split(sep)] for a one-character separator. *)
Fixpoint split (sep : ascii) (s : str) : list str :=
  match s with
  | [] => [[]]
  | x :: s' =>
      if Ascii.eqb x sep then [] :: split sep s'
      else match split sep s' with
           | w :: ws => (x :: w) :: ws
           | [] => [[x]]
           end
  end.

(** [s.split(sep, 1)]: the text before the first separator and, if there is
    one, the text after it. *)
Fixpoint split1 (sep : ascii) (s : str) : str * option str :=
  match s with
  | [] => ([], None)
  | x :: s' =>
      if Ascii.eqb x sep then ([], Some s')
      else let (a, b) := split1 sep s' in (x :: a, b)
  end.

(** [sep in s] *)
Definition contains (sep : ascii) (s : str) : bool := existsb (Ascii.eqb sep) s.

(** [s.lower()] *)
Definition lower_char (c : ascii) : ascii :=
  let n := code c in
  if ((65 <=? n) && (n <=? 90)
      || (192 <=? n) && (n <=? 222) && negb (n =? 215))%N
  then ascii_of_N (n + 32) else c.

Definition lower (s : str) : str := map lower_char s.

Definition str_eqb (a b : str) : bool :=
  if list_eq_dec ascii_dec a b then true else false.

(** [int(s)]: surrounding blanks, an optional sign, then decimal digits in
    which single underscores may separate digits.  This is [int] on texts
    of at most [max_str_digits] digits: beyond that number of digits the
    interpreter, left as it is set up, refuses the conversion with a
    [ValueError], as it refuses to write a number of more digits with
    [str]. *)
Definition max_str_digits : nat := 4300.

Definition digit_val (c : ascii) : Z := Z.of_N (code c) - 48.

Fixpoint int_digits (acc : Z) (after_digit : bool) (s : str) : option Z :=
  match s with
  | [] => if after_digit then Some acc else None
  | x :: s' =>
      if is_digit x then int_digits (10 * acc + digit_val x) true s'
      else if Ascii.eqb x "_" then
             if after_digit then int_digits acc false s' else None
           else None
  end.

Definition py_int (s : str) : option Z :=
  match strip s with
  | x :: r =>
      if Ascii.eqb x "-" then option_map Z.opp (int_digits 0 false r)
      else if Ascii.eqb x "+" then int_digits 0 false r
      else int_digits 0 false (x :: r)
  | [] => None
  end.

(** [str(n)] for a natural number, used to write inputs. *)
Definition str_of_digit (d : N) : ascii := ascii_of_N (48 + d).

Fixpoint digits_fuel (fuel : nat) (n : N) (acc : str) : str :=
  match fuel with
  | O => acc
  | S f =>
      let acc' := str_of_digit (n mod 10) :: acc in
      if (n <? 10)%N then acc' else digits_fuel f (n / 10) acc'
  end.

Definition py_str (n : N) : str := digits_fuel (S (N.to_nat (N.log2 n))) n [].

(** ** Results and errors *)

Inductive result (E A : Type) : Type :=
| Ok (a : A)
| Err (e : E).
Arguments Ok {E A} a.
Arguments Err {E A} e.

Definition bind {E A B} (x : result E A) (f : A -> result E B) : result E B :=
  match x with
  | Ok a => f a
  | Err e => Err e
  end.

Notation "'let*' x ':=' e 'in' k" := (bind e (fun x => k))
  (at level 10, x pattern, e at level 100, k at level 200).

(** [f] applied to each element in turn, up to the first error. *)
Fixpoint map_result {E X Y} (f : X -> result E Y) (l : list X)
  : result E (list Y) :=
  match l with
  | [] => Ok []
  | x :: l' =>
      let* y := f x in
      let* ys := map_result f l' in
      Ok (y :: ys)
  end.

(** The [ValueError]s of [parse_duration]:
    - [InvalidFormat s]: "Invalid duration format: s";
    - [ZeroDuration s]: "Duration cannot be zero: s";
    - [InvalidLiteral s]: the error of [int(s)] itself. *)
Inductive duration_error : Type :=
| InvalidFormat (s : str)
| ZeroDuration (s : str)
| InvalidLiteral (s : str).

(** ** parse_duration *)

Local Open Scope Z_scope.

(** The pattern [(?:(\d+)h)?(?:(\d+)m)?(?:(\d+)s)?$]. *)
Definition duration_pattern : regex :=
  (Opt (Grp 1 (Plus (Cls is_digit)) @@ Chr "h")
   @@ Opt (Grp 2 (Plus (Cls is_digit)) @@ Chr "m")
   @@ Opt (Grp 3 (Plus (Cls is_digit)) @@ Chr "s")
   @@ Eos)%re.

(** Truth value of a group: [None] and the empty string are false. *)
Definition truthy (g : option str) : bool :=
  match g with
  | Some (_ :: _) => true
  | _ => false
  end.

Definition int_or_raise (s : str) : result duration_error Z :=
  match py_int s with
  | Some n => Ok n
  | None => Err (InvalidLiteral s)
  end.

(** [total_ms += int(g) * unit], done only [if g]. *)
Definition add_component (g : option str) (unit_ms : Z) (total_ms : Z)
  : result duration_error Z :=
  match g with
  | Some (x :: g') =>
      let* n := int_or_raise (x :: g') in Ok (total_ms + n * unit_ms)
  | _ => Ok total_ms
  end.

Definition parse_duration (duration_str : str) : result duration_error Z :=
  match re_match duration_pattern duration_str with
  | None => Err (InvalidFormat duration_str)
  | Some m =>
      let hours := group 1 m in
      let minutes := group 2 m in
      let seconds := group 3 m in
      let total_ms := 0 in
      let* total_ms := add_component hours (60 * 60 * 1000) total_ms in
      let* total_ms := add_component minutes (60 * 1000) total_ms in
      let* total_ms := add_component seconds 1000 total_ms in
      if total_ms =? 0 then Err (ZeroDuration duration_str)
      else Ok total_ms
  end.

(** ** Stable sorting by a string key

    [list.sort(key=f)] is stable and compares keys with [<] on [str], the
    lexicographic order of code points.  The result of a stable sort is
    determined by the list and the key (lemma [sorted_stable_unique]
    below); it is computed here by insertion. *)

Fixpoint str_ltb (a b : str) : bool :=
  match a, b with
  | _, [] => false
  | [], _ :: _ => true
  | x :: a', y :: b' =>
      if (code x <? code y)%N then true
      else if (code y <? code x)%N then false
      else str_ltb a' b'
  end.

Section SortBy.
Context {A : Type} (key : A -> str).

(** [x] is placed before the first element whose key is not smaller. *)
Fixpoint insert_by (x : A) (l : list A) : list A :=
  match l with
  | [] => [x]
  | y :: l' =>
      if str_ltb (key y) (key x) then y :: insert_by x l' else x :: y :: l'
  end.

Fixpoint sort_by (l : list A) : list A :=
  match l with
  | [] => []
  | x :: l' => insert_by x (sort_by l')
  end.
End SortBy.

(** ** Messages

    The message classes [ReadRequest], [Query], [LabelMatcher] and the read
    hints come from the generated module [prom_pb2], which the sources only
    import.  The records below have the fields the code assigns. *)

(** Modelled from the spec: the operator codes of [LabelMatcher], declared
    in [prom_pb2]. *)
Inductive MatcherType : Type := EQ | NEQ | RE | NRE.

(** Modelled from the spec: the message [LabelMatcher] of [prom_pb2], a
    name, an operator and a value. *)
Record LabelMatcher : Type := mkLabelMatcher {
  m_type : MatcherType;
  m_name : str;
  m_value : str
}.

(** Modelled from the spec: the hints message of [prom_pb2].  The integer
    fields are unbounded integers, and a scalar field that was never
    assigned is absent ([None]), not defaulted. *)
Record ReadHints : Type := mkReadHints {
  step_ms : option Z;
  func : option str;
  start_ms : option Z;
  end_ms : option Z;
  grouping : list str;
  by_ : option bool;
  range_ms : option Z
}.

Definition no_hints : ReadHints :=
  mkReadHints None None None None [] None None.

Definition set_start_ms v h :=
  mkReadHints (step_ms h) (func h) (Some v) (end_ms h) (grouping h) (by_ h) (range_ms h).
Definition set_end_ms v h :=
  mkReadHints (step_ms h) (func h) (start_ms h) (Some v) (grouping h) (by_ h) (range_ms h).
Definition set_step_ms v h :=
  mkReadHints (Some v) (func h) (start_ms h) (end_ms h) (grouping h) (by_ h) (range_ms h).
Definition set_range_ms v h :=
  mkReadHints (step_ms h) (func h) (start_ms h) (end_ms h) (grouping h) (by_ h) (Some v).
Definition set_func v h :=
  mkReadHints (step_ms h) (Some v) (start_ms h) (end_ms h) (grouping h) (by_ h) (range_ms h).
Definition set_by v h :=
  mkReadHints (step_ms h) (func h) (start_ms h) (end_ms h) (grouping h) (Some v) (range_ms h).
Definition grouping_append g h :=
  mkReadHints (step_ms h) (func h) (start_ms h) (end_ms h) (grouping h ++ [g]) (by_ h) (range_ms h).

(** Modelled from the spec: the messages [Query] and [ReadRequest] of
    [prom_pb2], with unbounded integer timestamps. *)
Record Query : Type := mkQuery {
  start_timestamp_ms : Z;
  end_timestamp_ms : Z;
  matchers : list LabelMatcher;
  hints : ReadHints
}.

Inductive ResponseType : Type := SAMPLES.

Record ReadRequest : Type := mkReadRequest {
  queries : list Query;
  accepted_response_types : list ResponseType
}.

(** The [ValueError]s of [construct_read_request]:
    - [MissingMetricName]: 'Metric name not found in query';
    - [EmptyMatcherBlock]: 'Empty label matcher block ... is invalid';
    - [InvalidMatcher lm]: 'Invalid label matcher: lm';
    - [InvalidTimeRange e]: 'Invalid time range: e';
    - [InvalidHintValue key val]:
      'Invalid integer value for key in read_hints: val';
    - [UnsupportedOperator op]: 'Unsupported operator: op'. *)
Inductive error : Type :=
| MissingMetricName
| EmptyMatcherBlock
| InvalidMatcher (lm : str)
| InvalidTimeRange (e : duration_error)
| InvalidHintValue (key val : str)
| UnsupportedOperator (op : str).

(** ** construct_read_request *)

Definition is_metric_start (c : ascii) : bool :=
  is_alpha c || Ascii.eqb c "_" || Ascii.eqb c ":".
Definition is_metric_char (c : ascii) : bool :=
  is_alpha c || is_digit c || Ascii.eqb c "_" || Ascii.eqb c ":".
Definition is_label_start (c : ascii) : bool :=
  is_alpha c || Ascii.eqb c "_".
Definition is_label_char (c : ascii) : bool :=
  is_alpha c || is_digit c || Ascii.eqb c "_".
Definition is_range_char (c : ascii) : bool :=
  is_digit c || Ascii.eqb c "h" || Ascii.eqb c "m" || Ascii.eqb c "s".

(** The patterns, written with blanks between their parts and DQ for the
    double quote character.

    Metric name: [^ \s* ( [a-zA-Z_:] [a-zA-Z0-9_:]* )] *)
Definition metric_pattern : regex :=
  (Bos @@ Star (Cls is_space)
   @@ Grp 1 (Cls is_metric_start @@ Star (Cls is_metric_char)))%re.

(** Label matchers: [\{ ( [^}]* ) \}] *)
Definition label_matchers_pattern : regex :=
  (Chr "{" @@ Grp 1 (Star (Cls (Not (Ascii.eqb "}")))) @@ Chr "}")%re.

(** Time range with units: [\[ ( [0-9hms]+ ) \]] *)
Definition time_range_pattern : regex :=
  (Chr "[" @@ Grp 1 (Plus (Cls is_range_char)) @@ Chr "]")%re.

(** One label matcher:
    [( [a-zA-Z_] [a-zA-Z0-9_]* ) \s* ( != | =~ | !~ | = ) \s* DQ ( [^DQ]* ) DQ] *)
Definition operator_alternatives : regex :=
  Alt (Word (lit "!=")) (Alt (Word (lit "=~"))
    (Alt (Word (lit "!~")) (Word (lit "=")))).

Definition lm_pattern : regex :=
  (Grp 1 (Cls is_label_start @@ Star (Cls is_label_char))
   @@ Star (Cls is_space)
   @@ Grp 2 operator_alternatives
   @@ Star (Cls is_space)
   @@ Chr dquote @@ Grp 3 (Star (Cls (Not (Ascii.eqb dquote))))
   @@ Chr dquote)%re.

(** The hints block:
    [\{ \s* read_hints \s* = \s* DQ ( [^DQ]* ) DQ \s* \}] *)
Definition read_hints_pattern : regex :=
  (Chr "{" @@ Star (Cls is_space) @@ Word (lit "read_hints")
   @@ Star (Cls is_space) @@ Chr "=" @@ Star (Cls is_space)
   @@ Chr dquote @@ Grp 1 (Star (Cls (Not (Ascii.eqb dquote))))
   @@ Chr dquote @@ Star (Cls is_space) @@ Chr "}")%re.

(** [m.group(n)] for a group that takes part in every match. *)
Definition group_text (n : nat) (m : caps) : str :=
  match group n m with
  | Some g => g
  | None => []
  end.

(** The parts of the query before and after the first [@]. *)
Definition main_query (query_string : str) : str :=
  strip (fst (split1 "@" query_string)).

Definition hints_query (query_string : str) : option str :=
  option_map strip (snd (split1 "@" query_string)).

(** The metric name at the start of the main query. *)
Definition metric_name_of (main : str) : option str :=
  option_map (group_text 1) (re_search metric_pattern main).

Definition nonempty (s : str) : bool :=
  match s with
  | [] => false
  | _ :: _ => true
  end.

(** [[lm.strip() for lm in label_matchers_str.split(',') if lm.strip()]] *)
Definition matcher_entries (label_matchers_str : str) : list str :=
  filter nonempty (map strip (split "," label_matchers_str)).

(** One entry of the block: the triple (label, operator, value). *)
Definition parse_matcher (lm : str) : result error (str * str * str) :=
  match re_match lm_pattern lm with
  | Some m => Ok (group_text 1 m, group_text 2 m, group_text 3 m)
  | None => Err (InvalidMatcher lm)
  end.

Fixpoint parse_matchers (label_matchers : list str)
  : result error (list (str * str * str)) :=
  match label_matchers with
  | [] => Ok []
  | lm :: rest =>
      let* t := parse_matcher lm in
      let* ts := parse_matchers rest in
      Ok (t :: ts)
  end.

(** The text between the braces of the first matcher block, and the label
    matchers of the main query in the order written. *)
Definition matcher_block (main : str) : option str :=
  option_map (group_text 1) (re_search label_matchers_pattern main).

Definition label_matchers_list (main : str)
  : result error (list (str * str * str)) :=
  let label_matchers_str :=
    match matcher_block main with
    | Some block => block
    | None => []
    end in
  if nonempty label_matchers_str then
    let label_matchers := matcher_entries label_matchers_str in
    match label_matchers with
    | [] => Err EmptyMatcherBlock
    | _ => parse_matchers label_matchers
    end
  else Ok [].

(** The duration text of the first time range block. *)
Definition range_block (main : str) : option str :=
  option_map (group_text 1) (re_search time_range_pattern main).

Definition time_range_ms (main : str) : result error Z :=
  match range_block main with
  | Some duration_str =>
      match parse_duration duration_str with
      | Ok ms => Ok ms
      | Err ve => Err (InvalidTimeRange ve)
      end
  | None => Ok 3600000
  end.

(** The variables the hint loop assigns. *)
Record hint_state : Type := mkHintState {
  hs_hints : ReadHints;
  hs_start : Z;
  hs_end : Z
}.

Definition is_int_key (key : str) : bool :=
  str_eqb key (lit "start") || str_eqb key (lit "end")
  || str_eqb key (lit "step") || str_eqb key (lit "range").

(** The elements of a [grouping] value, appended one by one. *)
Definition grouping_values (val : str) : list str :=
  filter nonempty (map strip (split "|" val)).

(** The key and the value of an entry of [read_hints_str.split(',')];
    an entry without [=] is skipped. *)
Definition hint_entry (kv : str) : option (str * str) :=
  let kv := strip kv in
  if negb (contains "=" kv) then None
  else
    let key := fst (split1 "=" kv) in
    let val := match snd (split1 "=" kv) with Some v => v | None => [] end in
    Some (strip key, strip val).

(** The assignments made for one entry.  [val_int] is read only under a
    key for which it was just assigned. *)
Definition assign_hint (st : hint_state) (key val : str)
  : result error hint_state :=
  let* val_int :=
    if is_int_key key then
      match py_int val with
      | Some n => Ok n
      | None => Err (InvalidHintValue key val)
      end
    else Ok 0 in
  let h := hs_hints st in
  if str_eqb key (lit "start") then
    Ok (mkHintState (set_start_ms val_int h) val_int (hs_end st))
  else if str_eqb key (lit "end") then
    Ok (mkHintState (set_end_ms val_int h) (hs_start st) val_int)
  else if str_eqb key (lit "step") then
    Ok (mkHintState (set_step_ms val_int h) (hs_start st) (hs_end st))
  else if str_eqb key (lit "range") then
    Ok (mkHintState (set_range_ms val_int h) (hs_start st) (hs_end st))
  else if str_eqb key (lit "func") then
    Ok (mkHintState (set_func val h) (hs_start st) (hs_end st))
  else if str_eqb key (lit "by") then
    Ok (mkHintState (set_by (str_eqb (lower val) (lit "true")) h)
          (hs_start st) (hs_end st))
  else if str_eqb key (lit "grouping") then
    Ok (mkHintState
          (fold_left (fun h g => grouping_append g h) (grouping_values val) h)
          (hs_start st) (hs_end st))
  else Ok st.

(** One turn of the loop over [read_hints_str.split(',')]. *)
Definition apply_hint (st : hint_state) (kv : str) : result error hint_state :=
  match hint_entry kv with
  | None => Ok st
  | Some (key, val) => assign_hint st key val
  end.

Fixpoint apply_hints (st : hint_state) (kvs : list str)
  : result error hint_state :=
  match kvs with
  | [] => Ok st
  | kv :: rest => let* st' := apply_hint st kv in apply_hints st' rest
  end.

(** The text of the [read_hints] block, when the hints part has one. *)
Definition read_hints_str (query_string : str) : option str :=
  match hints_query query_string with
  | Some (x :: hq) =>
      option_map (group_text 1) (re_search read_hints_pattern (x :: hq))
  | _ => None
  end.

Definition parse_hints (query_string : str) (st : hint_state)
  : result error hint_state :=
  match read_hints_str query_string with
  | Some text => apply_hints st (split "," text)
  | None => Ok st
  end.

Definition operator_mapping (operator : str) : option MatcherType :=
  if str_eqb operator (lit "=") then Some EQ
  else if str_eqb operator (lit "!=") then Some NEQ
  else if str_eqb operator (lit "=~") then Some RE
  else if str_eqb operator (lit "!~") then Some NRE
  else None.

(** The loop that adds the sorted label matchers to the query. *)
Fixpoint add_matchers (l : list (str * str * str))
  : result error (list LabelMatcher) :=
  match l with
  | [] => Ok []
  | (label, operator, value) :: rest =>
      match operator_mapping operator with
      | None => Err (UnsupportedOperator operator)
      | Some ty =>
          let* ms := add_matchers rest in
          Ok (mkLabelMatcher ty label value :: ms)
      end
  end.

Definition value_of (t : str * str * str) : str := snd t.

Definition metric_matcher (metric_name : str) : LabelMatcher :=
  mkLabelMatcher EQ (lit "__name__") metric_name.

Definition construct_read_request (now : Z) (query_string : str)
  : result error ReadRequest :=
  let main := main_query query_string in
  let* metric_name :=
    match metric_name_of main with
    | Some name => Ok name
    | None => Err MissingMetricName
    end in
  let* lms := label_matchers_list main in
  let* range := time_range_ms main in
  let current_time_ms := now in
  let start0 :=
    if 0 <? range then current_time_ms - range
    else current_time_ms - 3600000 in
  let end0 := current_time_ms in
  let* st := parse_hints query_string (mkHintState no_hints start0 end0) in
  let* label_ms := add_matchers (sort_by value_of lms) in
  Ok (mkReadRequest
        [mkQuery (hs_start st) (hs_end st)
           (metric_matcher metric_name :: label_ms) (hs_hints st)]
        [SAMPLES]).

(** ** The normalisation at the end of remote_read

    [MessageToDict] gives a dictionary per message, in which a key may be
    missing.  The loop reads [results] and [timeseries] with [get(key, [])]
    and [labels] and [name] by subscript, which raises [KeyError] on a
    missing key.  Samples are not looked at, so their type is left open. *)

Inductive key_error : Type := KeyError (key : str).

Record Label : Type := mkLabel {
  l_name : option str;
  l_value : option str
}.

Section Normalizer.
Context {Sample : Type}.

Record TimeSeries : Type := mkTimeSeries {
  ts_labels : option (list Label);
  ts_samples : option (list Sample)
}.

Record QueryResult : Type := mkQueryResult {
  r_timeseries : option (list TimeSeries)
}.

Record ReadResponse : Type := mkReadResponse {
  results : option (list QueryResult)
}.

(** [label['name']] *)
Definition label_name (label : Label) : result key_error str :=
  match l_name label with
  | Some n => Ok n
  | None => Err (KeyError (lit "name"))
  end.

(** [labels.sort(key=lambda label: label['name'])]: the keys of all the
    elements are computed first, then the elements are sorted by them. *)
Definition sort_labels (ls : list Label) : result key_error (list Label) :=
  let* ks := map_result label_name ls in
  Ok (map snd (sort_by fst (combine ks ls))).

Definition normalize_timeseries (ts : TimeSeries)
  : result key_error TimeSeries :=
  match ts_labels ts with
  | None => Err (KeyError (lit "labels"))
  | Some ls =>
      let* ls' := sort_labels ls in
      Ok (mkTimeSeries (Some ls') (ts_samples ts))
  end.

Definition normalize_result (r : QueryResult) : result key_error QueryResult :=
  match r_timeseries r with
  | None => Ok r
  | Some tss =>
      let* tss' := map_result normalize_timeseries tss in
      Ok (mkQueryResult (Some tss'))
  end.

Definition normalize (response : ReadResponse)
  : result key_error ReadResponse :=
  match results response with
  | None => Ok response
  | Some rs =>
      let* rs' := map_result normalize_result rs in
      Ok (mkReadResponse (Some rs'))
  end.
End Normalizer.

Arguments TimeSeries : clear implicits.
Arguments QueryResult : clear implicits.
Arguments ReadResponse : clear implicits.

(** A quoted value, for writing queries. *)
Definition quoted (v : str) : str := dquote :: v ++ [dquote].

(** * Properties *)

(** ** The matcher on runs of one character class *)

Definition stops (p : ascii -> bool) (rest : str) : Prop :=
  match rest with
  | [] => True
  | x :: _ => p x = false
  end.

Definition all_in (p : ascii -> bool) (ds : str) : Prop :=
  Forall (fun x => p x = true) ds.

Section MatcherFacts.
Context {A : Type}.
Implicit Types k : @cont A.

Lemma rmatch_cat r1 r2 i s c k :
  rmatch (Cat r1 r2) i s c k
  = rmatch r1 i s c (fun i' s' c' => rmatch r2 i' s' c' k).
Proof. reflexivity. Qed.

Lemma rmatch_star r i s c k :
  rmatch (Star r) i s c k = star_loop (rmatch r) k (length s) i s c.
Proof. reflexivity. Qed.

Lemma rmatch_cls_cons p x i s c k :
  rmatch (Cls p) i (x :: s) c k = if p x then k (S i) s c else None.
Proof. reflexivity. Qed.

Lemma rmatch_cls_nil p i c k : rmatch (Cls p) i [] c k = None.
Proof. reflexivity. Qed.

(** A greedy run of a class without a bound: every repetition in the
    patterns of the module is of this kind. *)
Fixpoint star_cls (p : ascii -> bool) k (i : nat) (s : str) (c : caps)
  : option A :=
  match s with
  | x :: s' =>
      if p x then orelse (star_cls p k (S i) s' c) (fun _ => k i s c)
      else k i s c
  | [] => k i s c
  end.

(** The bound on the number of items, the length of the text, is never
    what ends a run. *)
Lemma star_cls_fuel p k s : forall n i c,
  (length s <= n)%nat ->
  star_loop (rmatch (Cls p)) k n i s c = star_cls p k i s c.
Proof.
  induction s as [|x s IH]; intros n i c Hn.
  - destruct n; cbn [star_loop star_cls]; [reflexivity|].
    now rewrite rmatch_cls_nil.
  - destruct n as [|n]; [cbn in Hn; lia|].
    cbn [star_loop star_cls]. rewrite rmatch_cls_cons.
    destruct (p x); [|reflexivity].
    replace (Nat.ltb i (S i)) with true by (symmetry; apply Nat.ltb_lt; lia).
    rewrite IH by (cbn in Hn; lia). reflexivity.
Qed.

(** A greedy run takes the whole run when the rest of the pattern then
    matches. *)
Lemma star_cls_take p k ds : forall rest n i c a,
  all_in p ds -> stops p rest -> (length (ds ++ rest) <= n)%nat ->
  k (i + length ds)%nat rest c = Some a ->
  star_loop (rmatch (Cls p)) k n i (ds ++ rest) c = Some a.
Proof.
  induction ds as [|d ds IH]; intros rest n i c a Hds Hst Hn Hk.
  - cbn [length app] in *. rewrite Nat.add_0_r in Hk.
    destruct n as [|n]; cbn [star_loop]; [exact Hk|].
    destruct rest as [|x rest];
      [rewrite rmatch_cls_nil|rewrite rmatch_cls_cons]; cbn [orelse];
      [exact Hk|].
    cbn in Hst. rewrite Hst. exact Hk.
  - inversion Hds as [|? ? Hd Hds']; subst.
    destruct n as [|n]; [cbn in Hn; lia|].
    cbn [star_loop app]. rewrite rmatch_cls_cons, Hd.
    replace (Nat.ltb i (S i)) with true by (symmetry; apply Nat.ltb_lt; lia).
    rewrite (IH rest n (S i) c a); auto.
    + cbn in Hn. lia.
    + cbn [length] in Hk. rewrite <- Hk. f_equal. lia.
Qed.

(** When the rest of the pattern rejects every shorter run, a greedy run
    amounts to the rest of the pattern after the whole run. *)
Lemma star_cls_exact p k ds : forall rest n i c,
  all_in p ds -> stops p rest -> (length (ds ++ rest) <= n)%nat ->
  (forall ds1 d ds2, ds = ds1 ++ d :: ds2 ->
     k (i + length ds1)%nat (d :: ds2 ++ rest) c = None) ->
  star_loop (rmatch (Cls p)) k n i (ds ++ rest) c
  = k (i + length ds)%nat rest c.
Proof.
  induction ds as [|d ds IH]; intros rest n i c Hds Hst Hn Hk.
  - cbn [length app] in *. rewrite Nat.add_0_r.
    destruct n as [|n]; cbn [star_loop]; [reflexivity|].
    destruct rest as [|x rest];
      [rewrite rmatch_cls_nil|rewrite rmatch_cls_cons]; cbn [orelse];
      [reflexivity|].
    cbn in Hst. rewrite Hst. reflexivity.
  - inversion Hds as [|? ? Hd Hds']; subst.
    destruct n as [|n]; [cbn in Hn; lia|].
    cbn [star_loop app]. rewrite rmatch_cls_cons, Hd.
    replace (Nat.ltb i (S i)) with true by (symmetry; apply Nat.ltb_lt; lia).
    rewrite (IH rest n (S i) c); auto.
    + replace (S i + length ds)%nat with (i + length (d :: ds))%nat
        by (cbn [length]; lia).
      destruct (k (i + length (d :: ds))%nat rest c) eqn:E; cbn [orelse];
        [reflexivity|].
      specialize (Hk [] d ds eq_refl). cbn [length] in Hk.
      rewrite Nat.add_0_r in Hk. exact Hk.
    + cbn in Hn. lia.
    + intros ds1 d' ds2 ->.
      specialize (Hk (d :: ds1) d' ds2 eq_refl). cbn [length] in Hk.
      rewrite <- Hk. f_equal. lia.
Qed.
End MatcherFacts.

Lemma firstn_length_app {X} (l r : list X) : firstn (length l) (l ++ r) = l.
Proof. induction l; cbn; [reflexivity|f_equal; assumption]. Qed.

Lemma firstn_run {X} (i : nat) (l r : list X) :
  firstn (i + length l - i) (l ++ r) = l.
Proof.
  replace (i + length l - i)%nat with (length l) by lia.
  apply firstn_length_app.
Qed.

Section GroupFacts.
Context {A : Type}.
Implicit Types k : @cont A.

(** A captured run [(p+)]: when the rest of the pattern rejects every
    shorter run, the group holds the whole run. *)
Lemma grp_plus_exact p n d0 ds rest i c k :
  all_in p (d0 :: ds) -> stops p rest ->
  (forall ds1 d ds2, ds = ds1 ++ d :: ds2 ->
     k (S i + length ds1)%nat (d :: ds2 ++ rest) ((n, d0 :: ds1) :: c)
     = None) ->
  rmatch (Grp n (Plus (Cls p))) i (d0 :: ds ++ rest) c k
  = k (S i + length ds)%nat rest ((n, d0 :: ds) :: c).
Proof.
  intros Hall Hst Hk. inversion Hall as [|? ? Hd Hds]; subst.
  unfold Plus. cbn [rmatch]. rewrite Hd.
  change (star_loop _ ?K ?n ?i ?s ?c) with
    (star_loop (rmatch (Cls p)) K n i s c).
  rewrite star_cls_exact; auto.
  - f_equal. f_equal. f_equal.
    replace (S i + length ds - i)%nat with (length (d0 :: ds))
      by (cbn [length]; lia).
    apply (firstn_length_app (d0 :: ds) rest).
  - intros ds1 d ds2 ->.
    replace (S i + length ds1 - i)%nat with (length (d0 :: ds1))
      by (cbn [length]; lia).
    rewrite <- app_assoc.
    change (d0 :: ds1 ++ (d :: ds2) ++ rest)
      with ((d0 :: ds1) ++ (d :: ds2) ++ rest).
    rewrite (firstn_length_app (d0 :: ds1) ((d :: ds2) ++ rest)).
    apply (Hk ds1 d ds2 eq_refl).
Qed.
End GroupFacts.

(** ** Decimal numerals *)

Fixpoint numeral_val (acc : Z) (ds : str) : Z :=
  match ds with
  | [] => acc
  | d :: ds' => numeral_val (10 * acc + digit_val d) ds'
  end.

Lemma numeral_val_snoc ds : forall acc d,
  numeral_val acc (ds ++ [d]) = 10 * numeral_val acc ds + digit_val d.
Proof. induction ds; intros; cbn; [reflexivity|apply IHds]. Qed.

Lemma small_digit (d : N) :
  (d < 10)%N ->
  is_digit (str_of_digit d) = true /\ digit_val (str_of_digit d) = Z.of_N d.
Proof.
  intros H.
  assert (E : In d [0; 1; 2; 3; 4; 5; 6; 7; 8; 9]%N) by (cbn; lia).
  cbn in E.
  repeat (destruct E as [<-|E]; [split; reflexivity|]).
  contradiction.
Qed.

Lemma digits_fuel_spec : forall f n acc,
  (n < 2 ^ N.of_nat (S f))%N ->
  exists ds, digits_fuel (S f) n acc = ds ++ acc
             /\ all_in is_digit ds /\ ds <> []
             /\ numeral_val 0 ds = Z.of_N n.
Proof.
  induction f as [|f IH]; intros n acc Hn.
  - assert (n < 10)%N by (cbn in Hn; lia).
    cbn [digits_fuel]. apply N.ltb_lt in H as Hb. rewrite Hb.
    exists [str_of_digit (n mod 10)].
    rewrite N.mod_small by assumption.
    destruct (small_digit n H) as [Hd Hv].
    repeat split; [constructor; auto; constructor|discriminate|].
    cbn. rewrite Hv. lia.
  - change (digits_fuel (S (S f)) n acc) with
      (let acc' := str_of_digit (n mod 10) :: acc in
       if (n <? 10)%N then acc' else digits_fuel (S f) (n / 10) acc').
    cbv zeta.
    assert (Hm : (n mod 10 < 10)%N) by (apply N.mod_lt; lia).
    destruct (small_digit _ Hm) as [Hd Hv].
    destruct (n <? 10)%N eqn:Hb.
    + apply N.ltb_lt in Hb.
      exists [str_of_digit (n mod 10)].
      repeat split; [constructor; auto; constructor|discriminate|].
      cbn. rewrite Hv, N.mod_small by assumption. lia.
    + apply N.ltb_ge in Hb.
      destruct (IH (n / 10)%N (str_of_digit (n mod 10) :: acc))
        as (ds & E & Hall & Hne & Hval).
      { apply N.Div0.div_lt_upper_bound.
        rewrite Nat2N.inj_succ, N.pow_succ_r' in Hn. lia. }
      exists (ds ++ [str_of_digit (n mod 10)]).
      rewrite E, <- app_assoc. repeat split.
      * apply Forall_app. split; [assumption|constructor; auto; constructor].
      * destruct ds; discriminate.
      * rewrite numeral_val_snoc, Hval, Hv.
        rewrite (N.div_mod n 10) at 3 by lia. lia.
Qed.

Lemma py_str_spec (n : N) :
  all_in is_digit (py_str n) /\ py_str n <> []
  /\ numeral_val 0 (py_str n) = Z.of_N n.
Proof.
  unfold py_str.
  destruct (digits_fuel_spec (N.to_nat (N.log2 n)) n [])
    as (ds & E & Hall & Hne & Hval).
  - rewrite Nat2N.inj_succ, N2Nat.id.
    destruct (N.eq_dec n 0) as [->|Hz]; [reflexivity|].
    apply N.log2_spec. lia.
  - rewrite E, app_nil_r. auto.
Qed.

Lemma digit_not_space c : is_digit c = true -> is_space c = false.
Proof.
  destruct c as [[] [] [] [] [] [] [] []]; vm_compute; congruence.
Qed.

Lemma digit_not_sign c :
  is_digit c = true -> Ascii.eqb c "-" = false /\ Ascii.eqb c "+" = false.
Proof.
  destruct c as [[] [] [] [] [] [] [] []]; vm_compute; intuition congruence.
Qed.

Lemma lstrip_stops s : stops is_space s -> lstrip s = s.
Proof. destruct s; cbn; [reflexivity|intros ->; reflexivity]. Qed.

Lemma strip_id s : stops is_space s -> stops is_space (rev s) -> strip s = s.
Proof.
  intros H1 H2. unfold strip, rstrip.
  rewrite (lstrip_stops s H1), (lstrip_stops _ H2). apply rev_involutive.
Qed.

Lemma all_in_stops_rev p s :
  all_in (fun c => negb (p c)) s -> stops p s /\ stops p (rev s).
Proof.
  intros H. split.
  - destruct H; cbn; [exact I|]. now apply negb_true_iff.
  - apply Forall_rev in H. destruct H; cbn; [exact I|].
    now apply negb_true_iff.
Qed.

Lemma int_digits_numeral ds : all_in is_digit ds -> forall acc b,
  ds <> [] \/ b = true -> int_digits acc b ds = Some (numeral_val acc ds).
Proof.
  induction 1 as [|d ds Hd Hds IH]; intros acc b Hb.
  - destruct Hb as [Hb| ->]; [contradiction|reflexivity].
  - cbn. rewrite Hd. apply IH. now right.
Qed.

Lemma py_int_numeral ds :
  all_in is_digit ds -> ds <> [] -> py_int ds = Some (numeral_val 0 ds).
Proof.
  intros Hall Hne. unfold py_int.
  assert (Hns : all_in (fun c => negb (is_space c)) ds).
  { eapply Forall_impl; [|exact Hall]. cbn. intros c Hc.
    now rewrite (digit_not_space c Hc). }
  destruct (all_in_stops_rev _ _ Hns) as [H1 H2].
  rewrite (strip_id ds H1 H2).
  destruct ds as [|x r]; [contradiction|].
  inversion Hall as [|? ? Hx _]; subst.
  destruct (digit_not_sign x Hx) as [-> ->].
  apply int_digits_numeral; auto.
Qed.

Lemma py_int_py_str (n : N) : py_int (py_str n) = Some (Z.of_N n).
Proof.
  destruct (py_str_spec n) as (Hall & Hne & Hval).
  rewrite py_int_numeral by assumption. now rewrite Hval.
Qed.

(** ** parse_duration on written durations *)

(** One optional unit of the duration pattern. *)
Definition unit_group (n : nat) (u : ascii) : regex :=
  Opt (Grp n (Plus (Cls is_digit)) @@ Chr u).

(** Text on which the unit [u] cannot match: digits followed by the end of
    the text or by a character that is neither a digit nor [u]. *)
Definition clear_of (u : ascii) (tail : str) : Prop :=
  exists ds rest,
    tail = ds ++ rest /\ all_in is_digit ds
    /\ match rest with
       | [] => True
       | x :: _ => is_digit x = false /\ x <> u
       end.

Section UnitGroup.
Context {A : Type}.
Implicit Types k : @cont A.

Lemma chr_rejects u d : is_digit d = true -> is_digit u = false ->
  Ascii.eqb u d = false.
Proof.
  intros Hd Hu. destruct (Ascii.eqb u d) eqn:E; [|reflexivity].
  apply Ascii.eqb_eq in E. congruence.
Qed.

Lemma unit_present n u ds rest i c k :
  ds <> [] -> all_in is_digit ds -> is_digit u = false ->
  rmatch (unit_group n u) i (ds ++ u :: rest) c k
  = orelse (k (S (i + length ds)) rest ((n, ds) :: c))
      (fun _ => k i (ds ++ u :: rest) c).
Proof.
  intros Hne Hall Hu. destruct ds as [|d0 ds]; [contradiction|].
  unfold unit_group.
  change (rmatch (Opt ?r) i ?s c k)
    with (orelse (rmatch r i s c k) (fun _ => k i s c)).
  f_equal. rewrite rmatch_cat.
  change ((d0 :: ds) ++ u :: rest) with (d0 :: ds ++ u :: rest).
  rewrite grp_plus_exact; auto.
  - unfold Chr. rewrite rmatch_cls_cons, Ascii.eqb_refl.
    f_equal. cbn [length]. lia.
  - intros ds1 d ds2 ->. unfold Chr. rewrite rmatch_cls_cons.
    rewrite chr_rejects; auto.
    inversion Hall as [|? ? _ H]; subst.
    apply Forall_app in H as [_ H]. now inversion H.
Qed.

Lemma unit_absent n u tail i c k :
  is_digit u = false -> clear_of u tail ->
  rmatch (unit_group n u) i tail c k = k i tail c.
Proof.
  intros Hu (ds & rest & -> & Hall & Hrest). unfold unit_group.
  change (rmatch (Opt ?r) i ?s c k)
    with (orelse (rmatch r i s c k) (fun _ => k i s c)).
  assert (Hchr : forall j c', rmatch (Chr u) j rest c' k = None).
  { intros j c'. unfold Chr. destruct rest as [|x rest];
      [apply rmatch_cls_nil|rewrite rmatch_cls_cons].
    destruct Hrest as [_ Hx]. destruct (Ascii.eqb u x) eqn:E;
      [|reflexivity].
    apply Ascii.eqb_eq in E. congruence. }
  assert (Hst : stops is_digit rest).
  { destruct rest; cbn; [exact I|tauto]. }
  rewrite rmatch_cat. destruct ds as [|d0 ds].
  - cbn [app]. unfold Plus. cbn [rmatch].
    destruct rest as [|x rest]; [reflexivity|].
    cbn in Hst. now rewrite Hst.
  - change ((d0 :: ds) ++ rest) with (d0 :: ds ++ rest).
    rewrite grp_plus_exact; auto.
    + now rewrite Hchr.
    + intros ds1 d ds2 ->. unfold Chr. rewrite rmatch_cls_cons.
      rewrite chr_rejects; auto.
      inversion Hall as [|? ? _ H]; subst.
      apply Forall_app in H as [_ H]. now inversion H.
Qed.
End UnitGroup.

(** A component of a written duration: a number and its unit, or nothing. *)
Definition component (o : option N) (u : ascii) : str :=
  match o with
  | Some n => py_str n ++ [u]
  | None => []
  end.

Definition contribution (o : option N) (unit_ms : Z) : Z :=
  match o with
  | Some n => Z.of_N n * unit_ms
  | None => 0
  end.

Lemma clear_of_nil u : clear_of u [].
Proof. exists [], []. repeat split. constructor. Qed.

Lemma clear_of_component u v o tail :
  is_digit v = false -> v <> u -> clear_of u tail ->
  clear_of u (component o v ++ tail).
Proof.
  intros Hv Hvu Ht. destruct o as [n|]; [|exact Ht].
  exists (py_str n), (v :: tail). cbn [component].
  rewrite <- app_assoc. repeat split; auto. apply py_str_spec.
Qed.

Lemma clear_of_last u v o :
  is_digit v = false -> v <> u -> clear_of u (component o v).
Proof.
  intros Hv Hvu. rewrite <- (app_nil_r (component o v)).
  apply clear_of_component; auto. apply clear_of_nil.
Qed.

Ltac clear_of_units :=
  first
    [ apply clear_of_nil
    | apply clear_of_last; [reflexivity|discriminate]
    | apply clear_of_component; [reflexivity|discriminate|clear_of_units] ].

Lemma unit_component {A} n u o tail i c (k : @cont A) :
  is_digit u = false -> clear_of u tail ->
  rmatch (unit_group n u) i (component o u ++ tail) c k
  = match o with
    | Some v =>
        orelse (k (S (i + length (py_str v))) tail ((n, py_str v) :: c))
          (fun _ => k i (component o u ++ tail) c)
    | None => k i tail c
    end.
Proof.
  intros Hu Ht. destruct o as [v|].
  - cbn [component]. rewrite <- app_assoc. cbn [app].
    destruct (py_str_spec v) as (Hall & Hne & _).
    now apply unit_present.
  - now apply unit_absent.
Qed.

Definition written_duration (oh om os : option N) : str :=
  component oh "h" ++ component om "m" ++ component os "s".

Lemma duration_match oh om os :
  exists m,
    re_match duration_pattern (written_duration oh om os) = Some m
    /\ group 1 m = option_map py_str oh
    /\ group 2 m = option_map py_str om
    /\ group 3 m = option_map py_str os.
Proof.
  unfold re_match, written_duration.
  change duration_pattern with
    (unit_group 1 "h" @@ unit_group 2 "m" @@ unit_group 3 "s" @@ Eos)%re.
  rewrite rmatch_cat, unit_component;
    [|reflexivity|clear_of_units].
  assert (Hs : forall i c,
             group 3 c = None ->
             exists m,
               rmatch (unit_group 3 "s" @@ Eos)%re i
                 (component os "s") c (fun _ _ c' => Some c') = Some m
               /\ group 1 m = group 1 c
               /\ group 2 m = group 2 c
               /\ group 3 m = option_map py_str os).
  { intros i c Hc. rewrite <- (app_nil_r (component os "s")).
    rewrite rmatch_cat, unit_component; [|reflexivity|apply clear_of_nil].
    destruct os as [s|]; cbn [rmatch orelse option_map];
      eexists; (split; [reflexivity|]); repeat split; exact Hc. }
  assert (Hm : forall i c,
             group 2 c = None -> group 3 c = None ->
             exists m,
               rmatch (unit_group 2 "m" @@ unit_group 3 "s" @@ Eos)%re i
                 (component om "m" ++ component os "s") c
                 (fun _ _ c' => Some c') = Some m
               /\ group 1 m = group 1 c
               /\ group 2 m = option_map py_str om
               /\ group 3 m = option_map py_str os).
  { intros i c Hc2 Hc3.
    rewrite rmatch_cat, unit_component; [|reflexivity|clear_of_units].
    destruct om as [m|].
    - destruct (Hs (S (i + length (py_str m))) ((2%nat, py_str m) :: c))
        as (r & -> & H1 & H2 & H3); [exact Hc3|].
      exists r. cbn [orelse]. repeat split; auto.
    - destruct (Hs i c Hc3) as (r & E & H1 & H2 & H3).
      exists r. cbn [component app option_map] in *. rewrite E.
      repeat split; auto. congruence. }
  destruct oh as [h|].
  - destruct (Hm (S (0 + length (py_str h))) [(1%nat, py_str h)])
      as (r & -> & H1 & H2 & H3); [reflexivity|reflexivity|].
    exists r. cbn [orelse]. repeat split; auto.
  - destruct (Hm 0%nat []) as (r & E & H1 & H2 & H3);
      [reflexivity|reflexivity|].
    exists r. cbn [component app option_map] in *. rewrite E.
    repeat split; auto.
Qed.

Lemma add_component_py_str o unit_ms total_ms :
  add_component (option_map py_str o) unit_ms total_ms
  = Ok (total_ms + contribution o unit_ms).
Proof.
  destruct o as [n|]; cbn [option_map add_component contribution].
  - destruct (py_str_spec n) as (_ & Hne & _).
    pose proof (py_int_py_str n) as Hi.
    destruct (py_str n) as [|x g]; [contradiction|].
    unfold int_or_raise. rewrite Hi. reflexivity.
  - now rewrite Z.add_0_r.
Qed.

(** Each component that is written contributes its value times the length
    of its unit, and the contributions are added up. *)
Lemma parse_duration_components (oh om os : option N) :
  let total :=
    contribution oh 3600000 + contribution om 60000 + contribution os 1000 in
  parse_duration (written_duration oh om os)
  = if total =? 0 then Err (ZeroDuration (written_duration oh om os))
    else Ok total.
Proof.
  intros total. unfold parse_duration.
  destruct (duration_match oh om os) as (m & -> & -> & -> & ->).
  rewrite !add_component_py_str. cbn [bind].
  rewrite !add_component_py_str. cbn [bind].
  rewrite !add_component_py_str. cbn [bind].
  change (60 * 60 * 1000) with 3600000. change (60 * 1000) with 60000.
  rewrite Z.add_0_l. reflexivity.
Qed.

(** C7.  For natural numbers h, m and s that are not all zero,
    [parse_duration] applied to the text "{h}h{m}m{s}s" returns
    h*3600000 + m*60000 + s*1000 milliseconds. *)
Theorem parse_duration_hms (h m s : N) :
  (h, m, s) <> (0, 0, 0)%N ->
  parse_duration
    (py_str h ++ lit "h" ++ py_str m ++ lit "m" ++ py_str s ++ lit "s")
  = Ok (Z.of_N h * 3600000 + Z.of_N m * 60000 + Z.of_N s * 1000).
Proof.
  intros Hnz.
  pose proof (parse_duration_components (Some h) (Some m) (Some s)) as H.
  unfold written_duration in H. cbn [component contribution] in H.
  rewrite <- !app_assoc in H. cbv zeta in H.
  change (lit "h") with ["h"]. change (lit "m") with ["m"].
  change (lit "s") with ["s"].
  rewrite H.
  destruct (Z.eqb_spec
              (Z.of_N h * 3600000 + Z.of_N m * 60000 + Z.of_N s * 1000) 0)
    as [E|_]; [|reflexivity].
  exfalso. apply Hnz.
  assert (h = 0 /\ m = 0 /\ s = 0)%N as (-> & -> & ->) by lia.
  reflexivity.
Qed.

Lemma parse_duration_hms_witness :
  (1, 2, 3)%N <> (0, 0, 0)%N
  /\ parse_duration (lit "1h2m3s") = Ok 3723000.
Proof.
  split; [discriminate|].
  apply (parse_duration_hms 1 2 3). discriminate.
Defined.

(** ** The order on strings *)

Lemma code_inj x y : code x = code y -> x = y.
Proof.
  unfold code. intros H.
  rewrite <- (ascii_N_embedding x), <- (ascii_N_embedding y). now f_equal.
Qed.

Lemma str_eqb_eq a b : str_eqb a b = true <-> a = b.
Proof.
  unfold str_eqb. destruct (list_eq_dec ascii_dec a b); split;
    auto; discriminate.
Qed.

Lemma str_eqb_refl a : str_eqb a a = true.
Proof. now apply str_eqb_eq. Qed.

Lemma str_ltb_irrefl a : str_ltb a a = false.
Proof.
  induction a as [|x a IH]; cbn; [reflexivity|].
  now rewrite N.ltb_irrefl.
Qed.

(** [a <= b <= c] gives [a <= c], with [a <= b] read as "not [b < a]". *)
Lemma str_le_trans a : forall b c,
  str_ltb b a = false -> str_ltb c b = false -> str_ltb c a = false.
Proof.
  induction a as [|x a IH]; intros [|y b] [|z c]; cbn; auto;
    try discriminate.
  destruct (N.ltb_spec (code y) (code x)); [discriminate|].
  destruct (N.ltb_spec (code x) (code y)).
  - intros _. destruct (N.ltb_spec (code z) (code y)); [discriminate|].
    destruct (N.ltb_spec (code y) (code z)).
    + intros _. destruct (N.ltb_spec (code z) (code x)); [lia|].
      destruct (N.ltb_spec (code x) (code z)); [reflexivity|lia].
    + intros _. destruct (N.ltb_spec (code z) (code x)); [lia|].
      destruct (N.ltb_spec (code x) (code z)); [reflexivity|lia].
  - intros Hba. destruct (N.ltb_spec (code z) (code y)); [discriminate|].
    destruct (N.ltb_spec (code y) (code z)).
    + intros _. destruct (N.ltb_spec (code z) (code x)); [lia|].
      destruct (N.ltb_spec (code x) (code z)); [reflexivity|lia].
    + intros Hcb. destruct (N.ltb_spec (code z) (code x)); [lia|].
      destruct (N.ltb_spec (code x) (code z)); [lia|].
      now apply (IH b c).
Qed.

Lemma str_le_antisym a : forall b,
  str_ltb a b = false -> str_ltb b a = false -> a = b.
Proof.
  induction a as [|x a IH]; intros [|y b]; cbn; auto; try discriminate.
  destruct (N.ltb_spec (code x) (code y)); [discriminate|].
  destruct (N.ltb_spec (code y) (code x)); [discriminate|].
  intros H1 H2. f_equal; [apply code_inj; lia|now apply IH].
Qed.

Lemma str_ltb_asym a : forall b, str_ltb a b = true -> str_ltb b a = false.
Proof.
  induction a as [|x a IH]; intros [|y b]; cbn; auto; try discriminate.
  destruct (N.ltb_spec (code x) (code y)).
  - intros _. destruct (N.ltb_spec (code y) (code x)); [lia|reflexivity].
  - destruct (N.ltb_spec (code y) (code x)); [discriminate|]. apply IH.
Qed.

(** ** Stable sorting *)

Section SortFacts.
Context {A : Type} (key : A -> str).

(** [x] may stand before [y]. *)
Definition key_le (x y : A) : Prop := str_ltb (key y) (key x) = false.

Definition sorted_by (l : list A) : Prop := StronglySorted key_le l.

(** The elements whose key is [v], in the order they have in [l]. *)
Definition with_key (v : str) (l : list A) : list A :=
  filter (fun x => str_eqb (key x) v) l.

(** Two lists hold the same elements and list those of equal key in the
    same order. *)
Definition same_order_of_equals (l1 l2 : list A) : Prop :=
  forall v, with_key v l1 = with_key v l2.

Lemma insert_by_perm x l : Permutation (insert_by key x l) (x :: l).
Proof.
  induction l as [|y l IH]; cbn; [reflexivity|].
  destruct (str_ltb (key y) (key x)); [|reflexivity].
  rewrite IH. apply perm_swap.
Qed.

Lemma sort_by_perm l : Permutation (sort_by key l) l.
Proof.
  induction l as [|x l IH]; cbn; [reflexivity|].
  rewrite insert_by_perm. now constructor.
Qed.

Lemma insert_by_sorted x l :
  sorted_by l -> sorted_by (insert_by key x l).
Proof.
  unfold sorted_by. induction 1 as [|y l Hl IH Hy]; cbn.
  - repeat constructor.
  - destruct (str_ltb (key y) (key x)) eqn:E.
    + constructor; [assumption|].
      eapply Permutation_Forall;
        [symmetry; apply insert_by_perm|].
      constructor; [|assumption].
      unfold key_le. now apply str_ltb_asym.
    + constructor; [now constructor|].
      constructor; [exact E|].
      eapply Forall_impl; [|exact Hy]. unfold key_le. intros z Hz.
      now apply (str_le_trans (key x) (key y) (key z)).
Qed.

Lemma sort_by_sorted l : sorted_by (sort_by key l).
Proof.
  induction l; cbn; [constructor|now apply insert_by_sorted].
Qed.

Lemma with_key_insert v x l :
  with_key v (insert_by key x l) = with_key v (x :: l).
Proof.
  unfold with_key. induction l as [|y l IH]; cbn; [reflexivity|].
  destruct (str_ltb (key y) (key x)) eqn:E; [|reflexivity].
  cbn. rewrite IH. cbn.
  destruct (str_eqb (key y) v) eqn:Ey, (str_eqb (key x) v) eqn:Ex;
    try reflexivity.
  apply str_eqb_eq in Ey, Ex. rewrite Ey, Ex, str_ltb_irrefl in E.
  discriminate.
Qed.

(** Sorting keeps the order of the elements of equal key. *)
Lemma sort_by_stable l : same_order_of_equals (sort_by key l) l.
Proof.
  intros v. induction l as [|x l IH]; cbn [sort_by]; [reflexivity|].
  rewrite with_key_insert. unfold with_key in *. cbn. now rewrite IH.
Qed.

Lemma with_key_in v x l : In x (with_key v l) <-> In x l /\ key x = v.
Proof.
  unfold with_key. rewrite filter_In. now rewrite str_eqb_eq.
Qed.

Lemma same_order_in l1 l2 x :
  same_order_of_equals l1 l2 -> In x l1 -> In x l2.
Proof.
  intros H Hx.
  assert (In x (with_key (key x) l1)) as Hi by now apply with_key_in.
  rewrite H in Hi. now apply with_key_in in Hi.
Qed.

Lemma same_order_tail x l1 l2 :
  same_order_of_equals (x :: l1) (x :: l2) -> same_order_of_equals l1 l2.
Proof.
  intros H v. specialize (H v). unfold with_key in *. cbn in H.
  destruct (str_eqb (key x) v); congruence.
Qed.

(** A list is determined by being sorted, having given elements and
    listing those of equal key in a given order. *)
Lemma sorted_stable_unique l1 : forall l2,
  sorted_by l1 -> sorted_by l2 -> same_order_of_equals l1 l2 -> l1 = l2.
Proof.
  induction l1 as [|x l1 IH]; intros [|y l2] S1 S2 H.
  - reflexivity.
  - exfalso. apply (same_order_in (y :: l2) [] y); [|now left].
    intros v. now rewrite H.
  - exfalso. apply (same_order_in (x :: l1) [] x); [exact H|now left].
  - inversion S1 as [|? ? S1' F1]; inversion S2 as [|? ? S2' F2]; subst.
    assert (Hxy : key_le x y).
    { assert (In y (x :: l1)) as [->|Hy].
      { apply (same_order_in (y :: l2)); [|now left].
        intros v. now rewrite H. }
      - apply str_ltb_irrefl.
      - rewrite Forall_forall in F1. now apply F1. }
    assert (Hyx : key_le y x).
    { assert (In x (y :: l2)) as [->|Hx].
      { apply (same_order_in (x :: l1)); [exact H|now left]. }
      - apply str_ltb_irrefl.
      - rewrite Forall_forall in F2. now apply F2. }
    assert (E : key x = key y) by now apply str_le_antisym.
    assert (x = y).
    { specialize (H (key x)). unfold with_key in H. cbn in H.
      rewrite <- E, str_eqb_refl in H. congruence. }
    subst y. f_equal. apply IH; auto. now apply (same_order_tail x).
Qed.

(** Inputs that agree on the order of the elements of equal key have the
    same sorted list. *)
Lemma sort_by_same_order l1 l2 :
  same_order_of_equals l1 l2 -> sort_by key l1 = sort_by key l2.
Proof.
  intros H. apply sorted_stable_unique; try apply sort_by_sorted.
  intros v. now rewrite !sort_by_stable.
Qed.

Lemma with_key_none v l :
  (forall x, In x l -> key x <> v) -> with_key v l = [].
Proof.
  unfold with_key. induction l as [|y l IH]; intros H; cbn;
    [reflexivity|].
  destruct (str_eqb (key y) v) eqn:E.
  - apply str_eqb_eq in E. exfalso. apply (H y); [now left|exact E].
  - apply IH. intros x Hx. apply H. now right.
Qed.

Lemma with_key_unique l : NoDup (map key l) ->
  forall x, In x l -> with_key (key x) l = [x].
Proof.
  induction l as [|y l IH]; intros Hnd x Hx; [contradiction|].
  cbn in Hnd. inversion Hnd as [|? ? Hy Hnd']; subst.
  unfold with_key. cbn. destruct Hx as [->|Hx].
  - rewrite str_eqb_refl. f_equal. apply with_key_none.
    intros z Hz E. apply Hy. rewrite <- E. now apply in_map.
  - destruct (str_eqb (key y) (key x)) eqn:E.
    + apply str_eqb_eq in E. exfalso. apply Hy. rewrite E.
      now apply in_map.
    + now apply IH.
Qed.

(** With pairwise distinct keys every order of the elements will do. *)
Lemma distinct_keys_same_order l1 l2 :
  Permutation l1 l2 -> NoDup (map key l1) -> same_order_of_equals l1 l2.
Proof.
  intros HP Hnd v.
  assert (Hnd2 : NoDup (map key l2)).
  { eapply Permutation_NoDup; [|exact Hnd]. now apply Permutation_map. }
  destruct (with_key v l1) as [|x r] eqn:E.
  - symmetry. apply with_key_none. intros z Hz Ez.
    assert (In z (with_key v l1)) as Hi.
    { apply with_key_in. split; [|exact Ez].
      eapply Permutation_in; [symmetry; exact HP|exact Hz]. }
    rewrite E in Hi. contradiction.
  - assert (In x (with_key v l1)) as Hi by (rewrite E; now left).
    apply with_key_in in Hi as [Hx <-].
    rewrite <- E, (with_key_unique l1 Hnd x Hx).
    symmetry. apply with_key_unique; [exact Hnd2|].
    eapply Permutation_in; [exact HP|exact Hx].
Qed.

Lemma sort_by_permuted l1 l2 :
  Permutation l1 l2 -> NoDup (map key l1) ->
  sort_by key l1 = sort_by key l2.
Proof.
  intros HP Hnd. apply sort_by_same_order.
  now apply distinct_keys_same_order.
Qed.

Lemma sort_by_sorted_id l : sorted_by l -> sort_by key l = l.
Proof.
  intros H. apply sorted_stable_unique; [apply sort_by_sorted|exact H|].
  apply sort_by_stable.
Qed.

Lemma sort_by_idempotent l : sort_by key (sort_by key l) = sort_by key l.
Proof. apply sort_by_sorted_id, sort_by_sorted. Qed.
End SortFacts.

Lemma insert_by_map {X Y} (kx : X -> str) (ky : Y -> str) (g : X -> Y) x l :
  (forall z, ky (g z) = kx z) ->
  insert_by ky (g x) (map g l) = map g (insert_by kx x l).
Proof.
  intros H. induction l as [|y l IH]; cbn; [reflexivity|].
  rewrite !H. destruct (str_ltb (kx y) (kx x)); cbn; [|reflexivity].
  now rewrite IH.
Qed.

Lemma sort_by_map {X Y} (kx : X -> str) (ky : Y -> str) (g : X -> Y) l :
  (forall z, ky (g z) = kx z) ->
  sort_by ky (map g l) = map g (sort_by kx l).
Proof.
  intros H. induction l as [|x l IH]; cbn; [reflexivity|].
  rewrite IH. now apply insert_by_map.
Qed.

(** ** The normaliser *)

(** The text of a label's name. *)
Definition name_text (label : Label) : str :=
  match l_name label with
  | Some n => n
  | None => []
  end.

Definition named (label : Label) : Prop := l_name label <> None.

Lemma label_names_ok ls :
  Forall named ls -> map_result label_name ls = Ok (map name_text ls).
Proof.
  induction 1 as [|l ls Hl _ IH]; cbn [map_result map]; [reflexivity|].
  rewrite IH. unfold label_name, name_text. unfold named in Hl.
  destruct (l_name l); [reflexivity|contradiction].
Qed.

Lemma combine_map_self {X Y} (f : X -> Y) l :
  combine (map f l) l = map (fun x => (f x, x)) l.
Proof. induction l; cbn; [reflexivity|now f_equal]. Qed.

Lemma sort_labels_ok ls :
  Forall named ls -> sort_labels ls = Ok (sort_by name_text ls).
Proof.
  intros H. unfold sort_labels. rewrite (label_names_ok ls H). cbn [bind].
  rewrite combine_map_self.
  rewrite (sort_by_map name_text fst (fun x => (name_text x, x)))
    by reflexivity.
  rewrite map_map. cbn [snd]. now rewrite map_id.
Qed.

Section NormalizerFacts.
Context {Sample : Type}.

(** Every series has its [labels] entry and every label its [name]. *)
Definition series_well_keyed (ts : TimeSeries Sample) : Prop :=
  match ts_labels ts with
  | Some ls => Forall named ls
  | None => False
  end.

Definition result_well_keyed (r : QueryResult Sample) : Prop :=
  match r_timeseries r with
  | Some tss => Forall series_well_keyed tss
  | None => True
  end.

Definition well_keyed (response : ReadResponse Sample) : Prop :=
  match results response with
  | Some rs => Forall result_well_keyed rs
  | None => True
  end.

(** Two responses of the same shape and with the same samples, whose
    label lists are related by [R] series by series. *)
Definition opt_rel {X} (R : X -> X -> Prop) (a b : option X) : Prop :=
  match a, b with
  | Some x, Some y => R x y
  | None, None => True
  | _, _ => False
  end.

Definition series_rel (R : list Label -> list Label -> Prop)
  (ts ts2 : TimeSeries Sample) : Prop :=
  ts_samples ts = ts_samples ts2 /\ opt_rel R (ts_labels ts) (ts_labels ts2).

Definition result_rel R (r r2 : QueryResult Sample) : Prop :=
  opt_rel (Forall2 (series_rel R)) (r_timeseries r) (r_timeseries r2).

Definition response_rel R (r r2 : ReadResponse Sample) : Prop :=
  opt_rel (Forall2 (result_rel R)) (results r) (results r2).

(** What the normaliser does to a label list. *)
Definition sorted_from (a b : list Label) : Prop :=
  sorted_by name_text b /\ Permutation a b
  /\ same_order_of_equals name_text b a.

(** Label lists with the same elements, those of equal name in the same
    order. *)
Definition reordered (a b : list Label) : Prop :=
  same_order_of_equals name_text a b.

Lemma reordered_named a b : reordered a b -> Forall named a -> Forall named b.
Proof.
  intros H Ha. apply Forall_forall. intros x Hx.
  rewrite Forall_forall in Ha. apply Ha.
  apply (same_order_in name_text b a); [|exact Hx].
  intros v. symmetry. apply H.
Qed.

Lemma normalize_series_spec ts ts2 :
  series_well_keyed ts -> series_rel reordered ts ts2 ->
  exists ts', normalize_timeseries ts = Ok ts'
              /\ series_rel sorted_from ts ts'
              /\ normalize_timeseries ts' = Ok ts'
              /\ normalize_timeseries ts2 = Ok ts'.
Proof.
  unfold series_well_keyed, series_rel, normalize_timeseries.
  destruct ts as [[a|] sa], ts2 as [[b|] sb]; cbn;
    try contradiction; try tauto.
  intros Ha [-> Hab].
  pose proof (reordered_named a b Hab Ha) as Hb.
  assert (Hs : Forall named (sort_by name_text a)).
  { eapply Permutation_Forall; [symmetry; apply sort_by_perm|exact Ha]. }
  exists (mkTimeSeries (Some (sort_by name_text a)) sb). cbn.
  rewrite (sort_labels_ok a Ha), (sort_labels_ok b Hb),
    (sort_labels_ok _ Hs). cbn [bind].
  rewrite sort_by_idempotent, (sort_by_same_order name_text a b Hab).
  repeat split.
  - rewrite <- (sort_by_same_order name_text a b Hab).
    apply sort_by_sorted.
  - rewrite <- (sort_by_same_order name_text a b Hab).
    symmetry. apply sort_by_perm.
  - rewrite <- (sort_by_same_order name_text a b Hab).
    apply sort_by_stable.
Qed.

Lemma normalize_list_spec {X} (f : X -> result key_error X)
  (good : X -> Prop) (R1 R2 : X -> X -> Prop) :
  (forall x x2, good x -> R1 x x2 ->
     exists x', f x = Ok x' /\ R2 x x' /\ f x' = Ok x' /\ f x2 = Ok x') ->
  forall l l2, Forall good l -> Forall2 R1 l l2 ->
    exists l', map_result f l = Ok l' /\ Forall2 R2 l l'
               /\ map_result f l' = Ok l' /\ map_result f l2 = Ok l'.
Proof.
  intros Hf l l2 Hg H12. revert Hg.
  induction H12 as [|x x2 l l2 Hx _ IH]; intros Hg.
  - exists []. cbn. repeat split; constructor.
  - inversion Hg as [|? ? Hgx Hgl]; subst.
    destruct (Hf x x2 Hgx Hx) as (x' & E1 & HR & E2 & E3).
    destruct (IH Hgl) as (l' & F1 & HF & F2 & F3).
    exists (x' :: l'). cbn. rewrite E1, E2, E3, F1, F2, F3. cbn.
    repeat split. now constructor.
Qed.

Lemma normalize_result_spec r r2 :
  result_well_keyed r -> result_rel reordered r r2 ->
  exists r', normalize_result r = Ok r'
             /\ result_rel sorted_from r r'
             /\ normalize_result r' = Ok r'
             /\ normalize_result r2 = Ok r'.
Proof.
  unfold result_well_keyed, result_rel, normalize_result.
  destruct r as [[a|]], r2 as [[b|]]; cbn; try contradiction.
  - intros Ha Hab.
    destruct (normalize_list_spec normalize_timeseries series_well_keyed
                (series_rel reordered) (series_rel sorted_from)
                normalize_series_spec a b Ha Hab)
      as (l' & E1 & HR & E2 & E3).
    exists (mkQueryResult (Some l')). cbn. rewrite E1, E2, E3. cbn.
    repeat split. exact HR.
  - intros _ _. exists (mkQueryResult None). cbn. repeat split.
Qed.
End NormalizerFacts.

(** A response with one result holding one series. *)
Definition one_series (ls : list Label) (samples : list (Z * Z))
  : ReadResponse (Z * Z) :=
  mkReadResponse
    (Some [mkQueryResult (Some [mkTimeSeries (Some ls) (Some samples)])]).

Definition label (n v : string) : Label :=
  mkLabel (Some (lit n)) (Some (lit v)).

(** C9, amended.  For a response in which every series has its
    labels and every label its name, the normaliser returns the response
    with each series' labels sorted by name, labels of equal name in their
    former order, and everything else as it was; normalising the result
    again returns it unchanged; and a response that differs only in the
    order of labels, those of equal name being in the same order, has the
    same normal form. *)
Theorem normalize_sorts_labels {Sample} (r r2 : ReadResponse Sample) :
  well_keyed r -> response_rel reordered r r2 ->
  exists r',
    normalize r = Ok r'
    /\ response_rel sorted_from r r'
    /\ normalize r' = Ok r'
    /\ normalize r2 = Ok r'.
Proof.
  unfold well_keyed, response_rel, normalize.
  destruct r as [[a|]], r2 as [[b|]]; cbn; try contradiction.
  - intros Ha Hab.
    destruct (normalize_list_spec normalize_result result_well_keyed
                (result_rel reordered) (result_rel sorted_from)
                normalize_result_spec a b Ha Hab)
      as (l' & E1 & HR & E2 & E3).
    exists (mkReadResponse (Some l')). cbn. rewrite E1, E2, E3. cbn.
    repeat split. exact HR.
  - intros _ _. exists (mkReadResponse None). cbn. repeat split.
Qed.

Lemma normalize_sorts_labels_witness :
  let r := one_series [label "instance" "i"; label "__name__" "m"]
             [(220, 1)] in
  let r2 := one_series [label "__name__" "m"; label "instance" "i"]
              [(220, 1)] in
  exists r',
    normalize r = Ok r'
    /\ response_rel sorted_from r r'
    /\ normalize r' = Ok r'
    /\ normalize r2 = Ok r'.
Proof.
  intros r r2. apply (normalize_sorts_labels r r2).
  - cbn. repeat constructor; discriminate.
  - cbn. repeat constructor. cbn [opt_rel ts_labels].
    apply distinct_keys_same_order.
    + apply perm_swap.
    + cbn. repeat constructor; cbn; intuition discriminate.
Defined.

(** C9 as stated fails: two labels of the same name keep the order they
    came in, so permuting them changes the normalised response; and a
    series without labels, or a label without a name, is not normalised
    but raises [KeyError]. *)
Lemma normalize_permuted_duplicates :
  let r := one_series [label "a" "1"; label "a" "2"] [(220, 1)] in
  let r2 := one_series [label "a" "2"; label "a" "1"] [(220, 1)] in
  response_rel (@Permutation Label) r r2
  /\ normalize r2 <> normalize r
  /\ normalize
       (mkReadResponse
          (Some [mkQueryResult
                   (Some [mkTimeSeries None (Some [(220, 1)])])]))
     = Err (KeyError (lit "labels"))
  /\ normalize (one_series [mkLabel None (Some (lit "v"))] [(220, 1)])
     = Err (KeyError (lit "name")).
Proof.
  split; [|split; [|split]].
  - cbn. repeat constructor.
  - vm_compute. discriminate.
  - reflexivity.
  - reflexivity.
Qed.

(** ** What a match of the matcher is

    [matches r i s c i' s' c']: the pattern [r] matches at position [i],
    where the text [s] is left and the groups are [c], up to position
    [i'], where [s'] is left and the groups are [c']. *)

Inductive matches : regex -> nat -> str -> caps -> nat -> str -> caps -> Prop :=
| m_eps i s c : matches Eps i s c i s c
| m_cls p i x s c : p x = true -> matches (Cls p) i (x :: s) c (S i) s c
| m_cat r1 r2 i s c i1 s1 c1 i2 s2 c2 :
    matches r1 i s c i1 s1 c1 -> matches r2 i1 s1 c1 i2 s2 c2 ->
    matches (Cat r1 r2) i s c i2 s2 c2
| m_alt_l r1 r2 i s c i' s' c' :
    matches r1 i s c i' s' c' -> matches (Alt r1 r2) i s c i' s' c'
| m_alt_r r1 r2 i s c i' s' c' :
    matches r2 i s c i' s' c' -> matches (Alt r1 r2) i s c i' s' c'
| m_opt_some r i s c i' s' c' :
    matches r i s c i' s' c' -> matches (Opt r) i s c i' s' c'
| m_opt_none r i s c : matches (Opt r) i s c i s c
| m_star_nil r i s c : matches (Star r) i s c i s c
| m_star_cons r i s c i1 s1 c1 i2 s2 c2 :
    matches r i s c i1 s1 c1 -> matches (Star r) i1 s1 c1 i2 s2 c2 ->
    matches (Star r) i s c i2 s2 c2
| m_grp n r i s c i' s' c' :
    matches r i s c i' s' c' ->
    matches (Grp n r) i s c i' s' ((n, firstn (i' - i) s) :: c')
| m_bos s c : matches Bos 0 s c 0 s c
| m_eos_end i c : matches Eos i [] c i [] c
| m_eos_newline i c : matches Eos i [newline] c i [newline] c.

Section Soundness.
Context {A : Type}.
Implicit Types k : @cont A.

Definition sound_at (r : regex) : Prop :=
  forall i s c k a,
    rmatch r i s c k = Some a ->
    exists i' s' c', matches r i s c i' s' c' /\ k i' s' c' = Some a.

Lemma orelse_some (x : option A) y a :
  orelse x y = Some a -> x = Some a \/ y tt = Some a.
Proof. destruct x; cbn; auto. Qed.

Lemma star_loop_sound r : sound_at r ->
  forall n i s c k a,
    star_loop (rmatch r) k n i s c = Some a ->
    exists i' s' c', matches (Star r) i s c i' s' c' /\ k i' s' c' = Some a.
Proof.
  intros Hr. induction n as [|n IH]; intros i s c k a; cbn [star_loop].
  - intros H. exists i, s, c. split; [apply m_star_nil|exact H].
  - intros H. apply orelse_some in H as [H|H].
    + apply Hr in H as (i1 & s1 & c1 & M1 & H).
      destruct (Nat.ltb i i1); [|discriminate].
      apply IH in H as (i2 & s2 & c2 & M2 & H).
      exists i2, s2, c2. split; [|exact H].
      eapply m_star_cons; eassumption.
    + exists i, s, c. split; [apply m_star_nil|exact H].
Qed.

(** Whatever the matcher returns comes from a match of the pattern. *)
Lemma rmatch_sound r : sound_at r.
Proof.
  induction r as [|p|r1 IH1 r2 IH2|r1 IH1 r2 IH2|r IH|r IH|n r IH| |];
    intros i s c k a; cbn [rmatch].
  - intros H. exists i, s, c. split; [constructor|exact H].
  - destruct s as [|x s]; [discriminate|].
    destruct (p x) eqn:E; [|discriminate].
    intros H. exists (S i), s, c. split; [now constructor|exact H].
  - intros H. apply IH1 in H as (i1 & s1 & c1 & M1 & H).
    apply IH2 in H as (i2 & s2 & c2 & M2 & H).
    exists i2, s2, c2. split; [|exact H]. eapply m_cat; eassumption.
  - intros H. apply orelse_some in H as [H|H].
    + apply IH1 in H as (i' & s' & c' & M & H).
      exists i', s', c'. split; [now apply m_alt_l|exact H].
    + apply IH2 in H as (i' & s' & c' & M & H).
      exists i', s', c'. split; [now apply m_alt_r|exact H].
  - intros H. apply orelse_some in H as [H|H].
    + apply IH in H as (i' & s' & c' & M & H).
      exists i', s', c'. split; [now apply m_opt_some|exact H].
    + exists i, s, c. split; [apply m_opt_none|exact H].
  - apply star_loop_sound. exact IH.
  - intros H. apply IH in H as (i' & s' & c' & M & H).
    exists i', s', ((n, firstn (i' - i) s) :: c').
    split; [now constructor|exact H].
  - destruct i; cbn; [|discriminate].
    intros H. exists 0%nat, s, c. split; [constructor|exact H].
  - destruct s as [|x [|y s]]; try discriminate.
    + intros H. exists i, [], c. split; [constructor|exact H].
    + destruct (Ascii.eqb x newline) eqn:E; [|discriminate].
      apply Ascii.eqb_eq in E. subst x.
      intros H. exists i, [newline], c. split; [constructor|exact H].
Qed.
End Soundness.

Lemma re_match_sound r s m :
  re_match r s = Some m -> exists i' s', matches r 0 s [] i' s' m.
Proof.
  unfold re_match. intros H.
  apply rmatch_sound in H as (i' & s' & c' & M & H).
  injection H as <-. eauto.
Qed.

(** A match consumes a prefix of the text. *)
Lemma matches_span r i s c i' s' c' :
  matches r i s c i' s' c' ->
  exists w, s = w ++ s' /\ i' = (i + length w)%nat.
Proof.
  induction 1;
    try (exists []; split; [reflexivity|cbn; lia]).
  - exists [x]. split; [reflexivity|cbn; lia].
  - destruct IHmatches1 as (w1 & -> & ->), IHmatches2 as (w2 & -> & ->).
    exists (w1 ++ w2). rewrite <- app_assoc, length_app.
    split; [reflexivity|lia].
  - assumption.
  - assumption.
  - assumption.
  - destruct IHmatches1 as (w1 & -> & ->), IHmatches2 as (w2 & -> & ->).
    exists (w1 ++ w2). rewrite <- app_assoc, length_app.
    split; [reflexivity|lia].
  - assumption.
Qed.

(** ** Matches of the simple patterns *)

Lemma matches_cls p i s c i' s' c' :
  matches (Cls p) i s c i' s' c' ->
  exists x, s = x :: s' /\ p x = true /\ i' = S i /\ c' = c.
Proof. inversion 1; subst. eauto. Qed.

Lemma matches_chr x i s c i' s' c' :
  matches (Chr x) i s c i' s' c' -> s = x :: s' /\ i' = S i /\ c' = c.
Proof.
  intros H. apply matches_cls in H as (y & -> & E & -> & ->).
  apply Ascii.eqb_eq in E. subst. auto.
Qed.

Lemma matches_star_cls p i s c i' s' c' :
  matches (Star (Cls p)) i s c i' s' c' ->
  exists w, s = w ++ s' /\ all_in p w /\ i' = (i + length w)%nat /\ c' = c.
Proof.
  remember (Star (Cls p)) as r eqn:Er. intros H. revert Er.
  induction H; intros Er; try discriminate.
  - exists []. repeat split; [constructor|cbn; lia].
  - injection Er as ->.
    apply matches_cls in H as (x & -> & Hx & -> & ->).
    destruct (IHmatches2 eq_refl) as (w & -> & Hw & -> & ->).
    exists (x :: w). repeat split; [now constructor|cbn; lia].
Qed.

Lemma matches_word w i s c i' s' c' :
  matches (Word w) i s c i' s' c' ->
  s = w ++ s' /\ i' = (i + length w)%nat /\ c' = c.
Proof.
  revert i s c. induction w as [|x w IH]; intros i s c; cbn [Word].
  - inversion 1; subst. repeat split. cbn. lia.
  - inversion 1 as [| |? ? ? ? ? i1 s1 c1 ? ? ? M1 M2| | | | | | | | | |];
      subst.
    apply matches_chr in M1 as (-> & -> & ->).
    apply IH in M2 as (-> & -> & ->).
    repeat split. cbn. lia.
Qed.

Lemma matches_cat r1 r2 i s c i2 s2 c2 :
  matches (Cat r1 r2) i s c i2 s2 c2 ->
  exists i1 s1 c1,
    matches r1 i s c i1 s1 c1 /\ matches r2 i1 s1 c1 i2 s2 c2.
Proof. inversion 1; subst. eauto. Qed.

Lemma matches_grp n r i s c i' s' c' :
  matches (Grp n r) i s c i' s' c' ->
  exists c1, matches r i s c i' s' c1 /\ c' = (n, firstn (i' - i) s) :: c1.
Proof. inversion 1; subst. eauto. Qed.

Lemma matches_alt r1 r2 i s c i' s' c' :
  matches (Alt r1 r2) i s c i' s' c' ->
  matches r1 i s c i' s' c' \/ matches r2 i s c i' s' c'.
Proof. inversion 1; subst; auto. Qed.

(** ** The shape of a label matcher entry *)

Definition operators : list str := [lit "!="; lit "=~"; lit "!~"; lit "="].

Definition is_label_name (name : str) : Prop :=
  match name with
  | [] => False
  | x :: rest => is_label_start x = true /\ all_in is_label_char rest
  end.

Definition not_dquote : ascii -> bool := Not (Ascii.eqb dquote).

(** [lm] begins with a name, an operator and a quoted value, with
    optional blanks around the operator; [rest] is what follows. *)
Definition entry_shape (lm name op value rest : str) : Prop :=
  exists ws1 ws2,
    lm = name ++ ws1 ++ op ++ ws2 ++ dquote :: value ++ dquote :: rest
    /\ is_label_name name /\ all_in is_space ws1 /\ In op operators
    /\ all_in is_space ws2 /\ all_in not_dquote value.

Lemma matches_operator i s c i' s' c' :
  matches operator_alternatives i s c i' s' c' ->
  exists op, In op operators /\ s = op ++ s'
             /\ i' = (i + length op)%nat /\ c' = c.
Proof.
  unfold operator_alternatives, operators. intros H.
  repeat (apply matches_alt in H as [H|H]);
    apply matches_word in H as (-> & -> & ->);
    eexists; (split; [|repeat split]); cbn; auto.
Qed.

Lemma lm_match_shape lm m :
  re_match lm_pattern lm = Some m ->
  exists name op value rest,
    entry_shape lm name op value rest
    /\ m = [(3%nat, value); (2%nat, op); (1%nat, name)].
Proof.
  intros H. apply re_match_sound in H as (i' & s' & M).
  unfold lm_pattern in M.
  apply matches_cat in M as (i1 & s1 & c1 & M1 & M).
  apply matches_grp in M1 as (c0 & M1 & ->).
  apply matches_cat in M1 as (j & t & d & Ma & Mb).
  apply matches_cls in Ma as (x & -> & Hx & -> & ->).
  apply matches_star_cls in Mb as (ns & -> & Hns & -> & ->).
  apply matches_cat in M as (i2 & s2 & c2 & M2 & M).
  apply matches_star_cls in M2 as (ws1 & -> & Hws1 & -> & ->).
  apply matches_cat in M as (i3 & s3 & c3 & M3 & M).
  apply matches_grp in M3 as (c0 & M3 & ->).
  apply matches_operator in M3 as (op & Hop & -> & -> & ->).
  apply matches_cat in M as (i4 & s4 & c4 & M4 & M).
  apply matches_star_cls in M4 as (ws2 & -> & Hws2 & -> & ->).
  apply matches_cat in M as (i5 & s5 & c5 & M5 & M).
  apply matches_chr in M5 as (-> & -> & ->).
  apply matches_cat in M as (i6 & s6 & c6 & M6 & M).
  apply matches_grp in M6 as (c0 & M6 & ->).
  apply matches_star_cls in M6 as (value & -> & Hv & -> & ->).
  apply matches_chr in M as (-> & -> & ->).
  exists (x :: ns), op, value, s'. split.
  - exists ws1, ws2. repeat split; auto.
  - f_equal; [|f_equal; [|f_equal]]; f_equal.
    + replace (S (1 + length ns + length ws1 + length op + length ws2)
               + length value - S (1 + length ns + length ws1 + length op
                                   + length ws2))%nat
        with (length value) by lia.
      apply firstn_length_app.
    + replace (1 + length ns + length ws1 + length op
               - (1 + length ns + length ws1))%nat
        with (length op) by lia.
      apply firstn_length_app.
    + replace (1 + length ns - 0)%nat with (length (x :: ns))
        by (cbn; lia).
      apply (firstn_length_app (x :: ns)).
Qed.

Lemma firstn_span {X} (i j : nat) (w rest : list X) :
  j = (i + length w)%nat -> firstn (j - i) (w ++ rest) = w.
Proof. intros ->. apply firstn_run. Qed.

(** Evaluates the comparisons of two written characters. *)
Ltac eqb_ground :=
  repeat match goal with
    | |- context [Ascii.eqb (Ascii ?a0 ?a1 ?a2 ?a3 ?a4 ?a5 ?a6 ?a7)
                    (Ascii ?b0 ?b1 ?b2 ?b3 ?b4 ?b5 ?b6 ?b7)] =>
        let t := constr:(Ascii.eqb (Ascii a0 a1 a2 a3 a4 a5 a6 a7)
                           (Ascii b0 b1 b2 b3 b4 b5 b6 b7)) in
        let v := eval vm_compute in t in
        change t with v
    end.

Section TakeFacts.
Context {A : Type}.
Implicit Types k : @cont A.

Lemma rmatch_grp n r i s c k :
  rmatch (Grp n r) i s c k
  = rmatch r i s c (fun i' s' c' => k i' s' ((n, firstn (i' - i) s) :: c')).
Proof. reflexivity. Qed.

Lemma take_star p ds rest i c k a :
  all_in p ds -> stops p rest ->
  k (i + length ds)%nat rest c = Some a ->
  rmatch (Star (Cls p)) i (ds ++ rest) c k = Some a.
Proof.
  intros. rewrite rmatch_star. now apply star_cls_take.
Qed.

Lemma take_chr x rest i c k a :
  k (S i) rest c = Some a -> rmatch (Chr x) i (x :: rest) c k = Some a.
Proof.
  intros H. unfold Chr. now rewrite rmatch_cls_cons, Ascii.eqb_refl.
Qed.

Lemma take_word w : forall rest i c k a,
  k (i + length w)%nat rest c = Some a ->
  rmatch (Word w) i (w ++ rest) c k = Some a.
Proof.
  induction w as [|x w IH]; intros rest i c k a Hk.
  - cbn in Hk |- *. now rewrite Nat.add_0_r in Hk.
  - cbn [Word app]. rewrite rmatch_cat. apply take_chr. apply IH.
    rewrite <- Hk. f_equal. cbn [length]. lia.
Qed.

(** The operator alternatives take the operator that is written, provided
    what follows cannot extend [=] to [=~]. *)
Lemma take_operator op tail i c k a :
  In op operators ->
  match tail with
  | [] => True
  | y :: _ => y <> "~"
  end ->
  k (i + length op)%nat tail c = Some a ->
  rmatch operator_alternatives i (op ++ tail) c k = Some a.
Proof.
  intros Hop Htail Hk. rewrite Nat.add_comm in Hk.
  unfold operator_alternatives, operators, Chr in *. cbn [In] in Hop.
  destruct Hop as [<-|[<-|[<-|[<-|[]]]]];
    cbn [lit list_ascii_of_string length Nat.add app] in Hk |- *;
    cbn [rmatch Word Chr]; unfold Chr; cbn [rmatch];
    eqb_ground; cbn [orelse]; try (rewrite Hk; reflexivity).
  destruct tail as [|y tail]; cbn [orelse]; [exact Hk|].
  destruct (Ascii.eqb_spec "~" y) as [<-|_]; [contradiction|].
  cbn [orelse]. eqb_ground. exact Hk.
Qed.
End TakeFacts.

Lemma space_not_label c : is_space c = true -> is_label_char c = false.
Proof.
  destruct c as [[] [] [] [] [] [] [] []]; vm_compute; congruence.
Qed.

Lemma space_not_tilde c : is_space c = true -> c <> "~".
Proof. intros H ->. discriminate. Qed.

Lemma operator_head op :
  In op operators ->
  exists x rest, op = x :: rest /\ is_label_char x = false
                 /\ is_space x = false.
Proof.
  unfold operators. cbn [In].
  intros [<-|[<-|[<-|[<-|[]]]]]; eexists; eexists; repeat split.
Qed.

(** An entry of the shape is matched, and the groups are its parts. *)
Lemma lm_shape_match lm name op value rest :
  entry_shape lm name op value rest ->
  re_match lm_pattern lm = Some [(3%nat, value); (2%nat, op); (1%nat, name)].
Proof.
  intros (ws1 & ws2 & -> & Hname & Hws1 & Hop & Hws2 & Hv).
  destruct name as [|x ns]; [contradiction|]. destruct Hname as [Hx Hns].
  destruct (operator_head op Hop) as (o & orest & Eo & Ho1 & Ho2).
  unfold re_match, lm_pattern.
  rewrite rmatch_cat, rmatch_grp, rmatch_cat.
  change ((x :: ns) ++ ?t) with (x :: ns ++ t).
  rewrite rmatch_cls_cons, Hx.
  apply take_star; [exact Hns| |].
  { destruct Hws1 as [|w ws1 Hw _]; cbn.
    - rewrite Eo. exact Ho1.
    - now apply space_not_label. }
  rewrite rmatch_cat.
  apply take_star; [exact Hws1|rewrite Eo; exact Ho2|].
  rewrite rmatch_cat, rmatch_grp.
  apply take_operator; [exact Hop| |].
  { destruct Hws2 as [|w ws2 Hw _]; cbn; [discriminate|].
    now apply space_not_tilde. }
  rewrite rmatch_cat.
  apply take_star; [exact Hws2|reflexivity|].
  rewrite rmatch_cat. apply take_chr.
  rewrite rmatch_cat, rmatch_grp.
  apply take_star; [exact Hv| |].
  { unfold stops, not_dquote, Not. now rewrite Ascii.eqb_refl. }
  apply take_chr. f_equal. f_equal; [|f_equal; [|f_equal]]; f_equal.
  - apply firstn_span. lia.
  - apply firstn_span. lia.
  - apply (firstn_span _ _ (x :: ns)). cbn [length]. lia.
Qed.

(** The entry pattern accepts exactly the entries that begin with a name,
    an operator and a quoted value. *)
Lemma lm_match_iff lm name op value :
  re_match lm_pattern lm = Some [(3%nat, value); (2%nat, op); (1%nat, name)]
  <-> exists rest, entry_shape lm name op value rest.
Proof.
  split.
  - intros H. destruct (lm_match_shape lm _ H) as (n & o & v & r & Hs & E).
    injection E as -> -> ->. eauto.
  - intros (rest & H). now apply (lm_shape_match lm name op value rest).
Qed.

(** ** Entries and operators *)

Definition operator_of (t : str * str * str) : str := snd (fst t).

Definition supported (t : str * str * str) : Prop :=
  In (operator_of t) operators.

Lemma parse_matcher_ok lm name op value :
  parse_matcher lm = Ok (name, op, value)
  <-> exists rest, entry_shape lm name op value rest.
Proof.
  unfold parse_matcher. split.
  - destruct (re_match lm_pattern lm) as [m|] eqn:E; [|discriminate].
    destruct (lm_match_shape lm m E) as (n & o & v & r & Hs & ->).
    cbn. intros [= <- <- <-]. eauto.
  - intros (rest & H). now rewrite (lm_shape_match lm name op value rest H).
Qed.

Lemma parse_matcher_err lm e :
  parse_matcher lm = Err e
  <-> e = InvalidMatcher lm
      /\ ~ exists name op value rest, entry_shape lm name op value rest.
Proof.
  unfold parse_matcher. split.
  - destruct (re_match lm_pattern lm) as [m|] eqn:E; [discriminate|].
    intros [= <-]. split; [reflexivity|].
    intros (n & o & v & r & H).
    now rewrite (lm_shape_match lm n o v r H) in E.
  - intros [-> H]. destruct (re_match lm_pattern lm) as [m|] eqn:E;
      [|reflexivity].
    exfalso. apply H.
    destruct (lm_match_shape lm m E) as (n & o & v & r & Hs & _). eauto.
Qed.

Lemma parse_matcher_supported lm t : parse_matcher lm = Ok t -> supported t.
Proof.
  destruct t as [[name op] value]. intros H.
  apply parse_matcher_ok in H as (rest & ws1 & ws2 & _ & _ & _ & H & _).
  exact H.
Qed.

Lemma parse_matchers_supported es : forall lms,
  parse_matchers es = Ok lms -> Forall supported lms.
Proof.
  induction es as [|lm es IH]; cbn; intros lms.
  - intros [= <-]. constructor.
  - destruct (parse_matcher lm) as [t|] eqn:E; [|discriminate]. cbn.
    destruct (parse_matchers es) as [ts|]; [|discriminate]. cbn.
    intros [= <-]. constructor; [|now apply IH].
    now apply (parse_matcher_supported lm).
Qed.

Lemma label_matchers_supported main lms :
  label_matchers_list main = Ok lms -> Forall supported lms.
Proof.
  unfold label_matchers_list.
  destruct (nonempty _); [|intros [= <-]; constructor].
  destruct (matcher_entries _) as [|e es] eqn:E; [discriminate|].
  apply parse_matchers_supported.
Qed.

(** The first entry that the pattern rejects is the one reported. *)
Lemma parse_matchers_invalid es :
  Exists (fun lm => parse_matcher lm = Err (InvalidMatcher lm)) es ->
  exists lm, In lm es
             /\ parse_matcher lm = Err (InvalidMatcher lm)
             /\ parse_matchers es = Err (InvalidMatcher lm).
Proof.
  induction es as [|e es IH]; intros H; [inversion H|].
  cbn [parse_matchers].
  destruct (parse_matcher e) as [t|err] eqn:E.
  - inversion H as [? ? He|? ? Hes]; subst; [congruence|].
    destruct (IH Hes) as (lm & Hin & Hlm & Hp).
    exists lm. cbn [bind]. rewrite Hp. repeat split; auto. now right.
  - pose proof E as E'. apply parse_matcher_err in E' as [-> _].
    exists e. repeat split; auto. now left.
Qed.

(** The type of a supported operator, and the matcher of a triple. *)
Definition type_of (operator : str) : MatcherType :=
  match operator_mapping operator with
  | Some ty => ty
  | None => EQ
  end.

Definition matcher_of (t : str * str * str) : LabelMatcher :=
  mkLabelMatcher (type_of (operator_of t)) (fst (fst t)) (snd t).

Lemma operator_mapping_supported op :
  In op operators -> operator_mapping op = Some (type_of op).
Proof.
  unfold operators. cbn [In].
  intros [<-|[<-|[<-|[<-|[]]]]]; reflexivity.
Qed.

Lemma add_matchers_supported l :
  Forall supported l -> add_matchers l = Ok (map matcher_of l).
Proof.
  induction 1 as [|[[label op] value] l Ht _ IH]; cbn [add_matchers map];
    [reflexivity|].
  unfold supported, operator_of in Ht. cbn in Ht.
  rewrite (operator_mapping_supported op Ht), IH. reflexivity.
Qed.

Lemma add_matchers_sorted l :
  Forall supported l ->
  add_matchers (sort_by value_of l)
  = Ok (sort_by m_value (map matcher_of l)).
Proof.
  intros H. rewrite add_matchers_supported.
  - f_equal. symmetry. now apply sort_by_map.
  - eapply Permutation_Forall; [symmetry; apply sort_by_perm|exact H].
Qed.

(** ** The parts of construct_read_request *)

Definition start_of (now range : Z) : Z :=
  if 0 <? range then now - range else now - 3600000.

(** The request built from the parts of a query. *)
Definition request_of (name : str) (lms : list (str * str * str))
  (st : hint_state) : ReadRequest :=
  mkReadRequest
    [mkQuery (hs_start st) (hs_end st)
       (metric_matcher name :: sort_by m_value (map matcher_of lms))
       (hs_hints st)]
    [SAMPLES].

Lemma construct_parts now qs name lms range :
  metric_name_of (main_query qs) = Some name ->
  label_matchers_list (main_query qs) = Ok lms ->
  time_range_ms (main_query qs) = Ok range ->
  construct_read_request now qs
  = let* st := parse_hints qs
                 (mkHintState no_hints (start_of now range) now) in
    Ok (request_of name lms st).
Proof.
  intros Hn Hl Hr. unfold construct_read_request.
  rewrite Hn, Hl, Hr. cbn [bind]. fold (start_of now range).
  destruct (parse_hints qs _) as [st|e]; [|reflexivity]. cbn [bind].
  rewrite (add_matchers_sorted lms (label_matchers_supported _ _ Hl)).
  reflexivity.
Qed.

Lemma construct_ok_inv now qs r :
  construct_read_request now qs = Ok r ->
  exists name lms range st,
    metric_name_of (main_query qs) = Some name
    /\ label_matchers_list (main_query qs) = Ok lms
    /\ time_range_ms (main_query qs) = Ok range
    /\ parse_hints qs (mkHintState no_hints (start_of now range) now) = Ok st
    /\ r = request_of name lms st.
Proof.
  intros H.
  destruct (metric_name_of (main_query qs)) as [name|] eqn:Hn;
    [|unfold construct_read_request in H; rewrite Hn in H; discriminate].
  destruct (label_matchers_list (main_query qs)) as [lms|] eqn:Hl;
    [|unfold construct_read_request in H; rewrite Hn, Hl in H;
      discriminate].
  destruct (time_range_ms (main_query qs)) as [range|] eqn:Hr;
    [|unfold construct_read_request in H; rewrite Hn, Hl, Hr in H;
      discriminate].
  rewrite (construct_parts now qs name lms range Hn Hl Hr) in H.
  destruct (parse_hints qs _) as [st|] eqn:Hh; [|discriminate].
  cbn in H. injection H as <-.
  exists name, lms, range, st. auto.
Qed.

(** ** The errors of the parts *)

Definition is_unsupported (e : error) : Prop :=
  match e with
  | UnsupportedOperator _ => True
  | _ => False
  end.

Lemma parse_matchers_error es e :
  parse_matchers es = Err e -> ~ is_unsupported e.
Proof.
  induction es as [|lm es IH]; cbn; [discriminate|].
  destruct (parse_matcher lm) as [t|err] eqn:E; cbn.
  - destruct (parse_matchers es) as [ts|err]; cbn; [discriminate|].
    intros [= <-]. now apply IH.
  - intros [= <-]. apply parse_matcher_err in E as [-> _]. exact id.
Qed.

Lemma label_matchers_error main e :
  label_matchers_list main = Err e -> ~ is_unsupported e.
Proof.
  unfold label_matchers_list. destruct (nonempty _); [|discriminate].
  destruct (matcher_entries _) as [|lm es].
  - intros [= <-]. exact id.
  - apply parse_matchers_error.
Qed.

Lemma time_range_error main e :
  time_range_ms main = Err e -> exists ve, e = InvalidTimeRange ve.
Proof.
  unfold time_range_ms. destruct (range_block main); [|discriminate].
  destruct (parse_duration _); [discriminate|]. intros [= <-]. eauto.
Qed.

Lemma assign_hint_error st key val e :
  assign_hint st key val = Err e -> e = InvalidHintValue key val.
Proof.
  unfold assign_hint. destruct (is_int_key key).
  - destruct (py_int val); cbn [bind]; [|now intros [= <-]].
    repeat (destruct (str_eqb key _); [discriminate|]). discriminate.
  - cbn [bind].
    repeat (destruct (str_eqb key _); [discriminate|]). discriminate.
Qed.

Lemma apply_hints_error kvs : forall st e,
  apply_hints st kvs = Err e -> exists key val, e = InvalidHintValue key val.
Proof.
  induction kvs as [|kv kvs IH]; cbn; intros st e; [discriminate|].
  unfold apply_hint at 1.
  destruct (hint_entry kv) as [[key val]|]; cbn [bind]; [|apply IH].
  destruct (assign_hint st key val) as [st'|err] eqn:E; cbn [bind];
    [apply IH|].
  intros [= <-]. apply assign_hint_error in E. eauto.
Qed.

Lemma parse_hints_error qs st e :
  parse_hints qs st = Err e -> exists key val, e = InvalidHintValue key val.
Proof.
  unfold parse_hints. destruct (read_hints_str qs); [|discriminate].
  apply apply_hints_error.
Qed.

Lemma construct_error now qs e :
  construct_read_request now qs = Err e -> ~ is_unsupported e.
Proof.
  intros H.
  destruct (metric_name_of (main_query qs)) as [name|] eqn:Hn;
    [|unfold construct_read_request in H; rewrite Hn in H;
      injection H as <-; exact id].
  destruct (label_matchers_list (main_query qs)) as [lms|e1] eqn:Hl;
    [|unfold construct_read_request in H; rewrite Hn, Hl in H;
      injection H as <-; now apply (label_matchers_error _ _ Hl)].
  destruct (time_range_ms (main_query qs)) as [range|e1] eqn:Hr;
    [|unfold construct_read_request in H; rewrite Hn, Hl, Hr in H;
      injection H as <-;
      destruct (time_range_error _ _ Hr) as (ve & ->); exact id].
  rewrite (construct_parts now qs name lms range Hn Hl Hr) in H.
  destruct (parse_hints qs _) as [st|e1] eqn:Hh; [discriminate|].
  injection H as <-.
  destruct (parse_hints_error _ _ _ Hh) as (key & val & ->). exact id.
Qed.

(** ** The matchers of the request *)

(** The label matchers of the query in the order they are written. *)
Definition written_matchers (qs : str) : result error (list LabelMatcher) :=
  let* lms := label_matchers_list (main_query qs) in
  Ok (map matcher_of lms).

(** The matchers of the request after the first one. *)
Definition label_matchers_of (r : ReadRequest) : list LabelMatcher :=
  match queries r with
  | q0 :: _ => tl (matchers q0)
  | [] => []
  end.

Lemma construct_matchers now qs r :
  construct_read_request now qs = Ok r ->
  exists ms, written_matchers qs = Ok ms
             /\ label_matchers_of r = sort_by m_value ms.
Proof.
  intros H.
  destruct (construct_ok_inv now qs r H)
    as (name & lms & range & st & _ & Hl & _ & _ & ->).
  exists (map matcher_of lms). unfold written_matchers. rewrite Hl.
  split; reflexivity.
Qed.

(** C2 as stated fails: no query makes the parser fail with
    [UnsupportedOperator]. *)
Lemma unsupported_operator_unreachable :
  ~ exists now qs op,
      construct_read_request now qs = Err (UnsupportedOperator op).
Proof.
  intros (now & qs & op & H). apply construct_error in H.
  apply H. exact I.
Qed.

(** A query with two label matchers, for the examples. *)
Definition two_matchers (n1 v1 n2 v2 : string) : str :=
  lit "metric{" ++ lit n1 ++ lit "=" ++ quoted (lit v1) ++ lit ","
  ++ lit n2 ++ lit "=" ++ quoted (lit v2) ++ lit "}".

(** C5, amended.  The label matchers of a request are the matchers written
    in the query, sorted by value, those of equal value in the order
    written.  Two queries whose matchers differ only in order have the same
    sorted matchers provided matchers of equal value are written in the
    same order, and so whenever the values are pairwise distinct. *)
Theorem label_matchers_sorted now qs r :
  construct_read_request now qs = Ok r ->
  exists ms,
    written_matchers qs = Ok ms
    /\ sorted_by m_value (label_matchers_of r)
    /\ Permutation ms (label_matchers_of r)
    /\ same_order_of_equals m_value (label_matchers_of r) ms
    /\ (forall now' qs' r' ms',
          construct_read_request now' qs' = Ok r' ->
          written_matchers qs' = Ok ms' ->
          same_order_of_equals m_value ms ms' ->
          label_matchers_of r' = label_matchers_of r)
    /\ (forall now' qs' r' ms',
          construct_read_request now' qs' = Ok r' ->
          written_matchers qs' = Ok ms' ->
          Permutation ms ms' -> NoDup (map m_value ms) ->
          label_matchers_of r' = label_matchers_of r).
Proof.
  intros H. destruct (construct_matchers now qs r H) as (ms & Hw & E).
  exists ms. rewrite E.
  assert (Hsame : forall now' qs' r' ms',
             construct_read_request now' qs' = Ok r' ->
             written_matchers qs' = Ok ms' ->
             same_order_of_equals m_value ms ms' ->
             label_matchers_of r' = sort_by m_value ms).
  { intros now' qs' r' ms' H' Hw' Hs.
    destruct (construct_matchers now' qs' r' H') as (ms2 & Hw2 & ->).
    rewrite Hw' in Hw2. injection Hw2 as <-.
    symmetry. now apply sort_by_same_order. }
  repeat split.
  - exact Hw.
  - apply sort_by_sorted.
  - symmetry. apply sort_by_perm.
  - apply sort_by_stable.
  - exact Hsame.
  - intros now' qs' r' ms' H' Hw' HP Hnd.
    apply (Hsame now' qs' r' ms' H' Hw').
    now apply distinct_keys_same_order.
Qed.

Lemma label_matchers_sorted_witness :
  let r := request_of (lit "metric")
             [(lit "b", lit "=", lit "2"); (lit "a", lit "=", lit "1")]
             (mkHintState no_hints 1699996400000 1700000000000) in
  exists ms,
    written_matchers (two_matchers "b" "2" "a" "1") = Ok ms
    /\ sorted_by m_value (label_matchers_of r)
    /\ Permutation ms (label_matchers_of r)
    /\ same_order_of_equals m_value (label_matchers_of r) ms
    /\ (forall now' qs' r' ms',
          construct_read_request now' qs' = Ok r' ->
          written_matchers qs' = Ok ms' ->
          same_order_of_equals m_value ms ms' ->
          label_matchers_of r' = label_matchers_of r)
    /\ (forall now' qs' r' ms',
          construct_read_request now' qs' = Ok r' ->
          written_matchers qs' = Ok ms' ->
          Permutation ms ms' -> NoDup (map m_value ms) ->
          label_matchers_of r' = label_matchers_of r).
Proof.
  intros r.
  apply (label_matchers_sorted 1700000000000 (two_matchers "b" "2" "a" "1")).
  vm_compute. reflexivity.
Defined.

(** C5 as stated fails: matchers of equal value stay in the order written,
    so writing them in the other order changes the request. *)
Lemma equal_values_keep_written_order :
  let q1 := two_matchers "a" "1" "b" "1" in
  let q2 := two_matchers "b" "1" "a" "1" in
  exists r1 r2 ms1 ms2,
    construct_read_request 1700000000000 q1 = Ok r1
    /\ construct_read_request 1700000000000 q2 = Ok r2
    /\ written_matchers q1 = Ok ms1
    /\ written_matchers q2 = Ok ms2
    /\ Permutation ms1 ms2
    /\ label_matchers_of r1 <> label_matchers_of r2.
Proof.
  do 4 eexists.
  split; [vm_compute; reflexivity|].
  split; [vm_compute; reflexivity|].
  split; [vm_compute; reflexivity|].
  split; [vm_compute; reflexivity|].
  split; [apply perm_swap|].
  vm_compute. discriminate.
Qed.

(** ** Searching for a block *)

Lemma search_from_sound r : forall s i m,
  search_from r i s = Some m ->
  exists pre rest i' s',
    s = pre ++ rest /\ matches r (i + length pre) rest [] i' s' m.
Proof.
  induction s as [|x s IH]; intros i m; cbn [search_from].
  - destruct (rmatch r i [] [] _) as [c|] eqn:E; [|discriminate].
    intros [= <-]. apply rmatch_sound in E as (i' & s' & c' & M & [= <-]).
    exists [], [], i', s'. split; [reflexivity|].
    cbn. now rewrite Nat.add_0_r.
  - destruct (rmatch r i (x :: s) [] _) as [c|] eqn:E.
    + intros [= <-]. apply rmatch_sound in E as (i' & s' & c' & M & [= <-]).
      exists [], (x :: s), i', s'. split; [reflexivity|].
      cbn. now rewrite Nat.add_0_r.
    + intros H. apply IH in H as (pre & rest & i' & s' & -> & M).
      exists (x :: pre), rest, i', s'. split; [reflexivity|].
      cbn [length]. now rewrite Nat.add_succ_r.
Qed.

Lemma search_from_hit r i s m :
  rmatch r i s [] (fun _ _ c => Some c) = Some m -> search_from r i s = Some m.
Proof. intros H. destruct s; cbn [search_from]; now rewrite H. Qed.

(** A search for a pattern that begins with the character [x] passes over
    text without [x]. *)
Lemma search_from_skip x r pre : forall rest i,
  ~ In x pre ->
  search_from (Chr x @@ r) i (pre ++ rest)
  = search_from (Chr x @@ r) (i + length pre) rest.
Proof.
  induction pre as [|y pre IH]; intros rest i Hx.
  - cbn. now rewrite Nat.add_0_r.
  - cbn [app search_from]. rewrite rmatch_cat. unfold Chr at 1.
    rewrite rmatch_cls_cons.
    destruct (Ascii.eqb_spec x y) as [->|_]; [exfalso; apply Hx; now left|].
    rewrite IH by (intros H; apply Hx; now right).
    cbn [length]. now rewrite Nat.add_succ_r.
Qed.

Definition not_char (x : ascii) : ascii -> bool := Not (Ascii.eqb x).

Lemma all_in_not_char x s : all_in (not_char x) s <-> ~ In x s.
Proof.
  unfold all_in, not_char, Not. rewrite Forall_forall. split.
  - intros H Hx. specialize (H x Hx). now rewrite Ascii.eqb_refl in H.
  - intros H y Hy. destruct (Ascii.eqb_spec x y) as [->|_];
      [contradiction|reflexivity].
Qed.

(** The first opening brace, when a closing brace follows it, opens the
    matcher block; the block ends at the first closing brace. *)
Lemma matcher_block_found pre b post :
  ~ In "{" pre -> ~ In "}" b ->
  matcher_block (pre ++ "{" :: b ++ "}" :: post) = Some b.
Proof.
  intros Hpre Hb. unfold matcher_block, re_search, label_matchers_pattern.
  rewrite search_from_skip by exact Hpre.
  rewrite (search_from_hit _ _ _ [(1%nat, b)]); [reflexivity|].
  rewrite rmatch_cat. apply take_chr. rewrite rmatch_cat, rmatch_grp.
  apply take_star.
  - now apply all_in_not_char.
  - unfold stops, Not. now rewrite Ascii.eqb_refl.
  - apply take_chr. now rewrite firstn_span by lia.
Qed.

Lemma matcher_block_sound main b :
  matcher_block main = Some b ->
  exists pre post, main = pre ++ "{" :: b ++ "}" :: post /\ ~ In "}" b.
Proof.
  unfold matcher_block, re_search.
  destruct (search_from _ _ _) as [m|] eqn:E; [|discriminate].
  cbn. intros [= <-].
  apply search_from_sound in E as (pre & rest & i' & s' & -> & M).
  unfold label_matchers_pattern in M.
  apply matches_cat in M as (i1 & s1 & c1 & M1 & M).
  apply matches_chr in M1 as (-> & -> & ->).
  apply matches_cat in M as (i2 & s2 & c2 & M2 & M).
  apply matches_grp in M2 as (c0 & M2 & ->).
  apply matches_star_cls in M2 as (w & -> & Hw & -> & ->).
  apply matches_chr in M as (-> & -> & ->).
  exists pre, s'. cbn [group_text group Nat.eqb].
  rewrite firstn_span by lia. split; [reflexivity|].
  now apply all_in_not_char.
Qed.

(** The first opening bracket, when a duration text and a closing bracket
    follow it, opens the time range block. *)
Lemma range_block_found pre d post :
  ~ In "[" pre -> d <> [] -> all_in is_range_char d ->
  range_block (pre ++ "[" :: d ++ "]" :: post) = Some d.
Proof.
  intros Hpre Hne Hd. unfold range_block, re_search, time_range_pattern.
  rewrite search_from_skip by exact Hpre.
  destruct d as [|d0 d]; [contradiction|].
  inversion Hd as [|? ? Hd0 Hd']; subst.
  rewrite (search_from_hit _ _ _ [(1%nat, d0 :: d)]); [reflexivity|].
  rewrite rmatch_cat. apply take_chr. rewrite rmatch_cat, rmatch_grp.
  unfold Plus. rewrite rmatch_cat.
  change ((d0 :: d) ++ ?t) with (d0 :: d ++ t).
  rewrite rmatch_cls_cons, Hd0.
  apply take_star; [exact Hd'|reflexivity|].
  apply take_chr. do 3 f_equal.
  apply (firstn_span _ _ (d0 :: d)). cbn [length]. lia.
Qed.

Lemma range_block_sound main d :
  range_block main = Some d ->
  exists pre post,
    main = pre ++ "[" :: d ++ "]" :: post
    /\ d <> [] /\ all_in is_range_char d.
Proof.
  unfold range_block, re_search.
  destruct (search_from _ _ _) as [m|] eqn:E; [|discriminate].
  cbn. intros [= <-].
  apply search_from_sound in E as (pre & rest & i' & s' & -> & M).
  unfold time_range_pattern, Plus in M.
  apply matches_cat in M as (i1 & s1 & c1 & M1 & M).
  apply matches_chr in M1 as (-> & -> & ->).
  apply matches_cat in M as (i2 & s2 & c2 & M2 & M).
  apply matches_grp in M2 as (c0 & M2 & ->).
  apply matches_cat in M2 as (i3 & s3 & c3 & M3 & M2).
  apply matches_cls in M3 as (x & -> & Hx & -> & ->).
  apply matches_star_cls in M2 as (w & -> & Hw & -> & ->).
  apply matches_chr in M as (-> & -> & ->).
  exists pre, s'. cbn [group_text group Nat.eqb].
  change (x :: w ++ "]" :: s') with ((x :: w) ++ "]" :: s').
  rewrite (firstn_span _ _ (x :: w)) by (cbn [length]; lia).
  repeat split; [discriminate|now constructor].
Qed.

(** A search returns the match at the first position that has one: the
    pattern matches at no earlier position. *)
Lemma search_from_first r : forall s i m,
  search_from r i s = Some m ->
  exists pre rest,
    s = pre ++ rest
    /\ rmatch r (i + length pre) rest [] (fun _ _ c => Some c) = Some m
    /\ forall a b, pre = a ++ b -> b <> [] ->
         rmatch r (i + length a) (b ++ rest) [] (fun _ _ c => Some c) = None.
Proof.
  induction s as [|x s IH]; intros i m; cbn [search_from].
  - destruct (rmatch r i [] [] _) as [c|] eqn:E; [|discriminate].
    intros [= <-]. exists [], []. cbn [length app]. rewrite Nat.add_0_r.
    repeat split; [exact E|]. intros a b Hab Hb.
    destruct a; [cbn in Hab; now subst b|discriminate].
  - destruct (rmatch r i (x :: s) [] _) as [c|] eqn:E.
    + intros [= <-]. exists [], (x :: s). cbn [length app].
      rewrite Nat.add_0_r. repeat split; [exact E|]. intros a b Hab Hb.
      destruct a; [cbn in Hab; now subst b|discriminate].
    + intros H. apply IH in H as (pre & rest & -> & M & Hno).
      exists (x :: pre), rest. cbn [length]. rewrite Nat.add_succ_r.
      repeat split; [exact M|]. intros a b Hab Hb.
      destruct a as [|y a]; cbn [app length] in *.
      * subst b. rewrite Nat.add_0_r. exact E.
      * injection Hab as <- ->. rewrite Nat.add_succ_r.
        now apply Hno.
Qed.

(** A search passes over the positions at which the pattern does not
    match. *)
Lemma search_from_pass r pre : forall rest i,
  (forall a b, pre = a ++ b -> b <> [] ->
     rmatch r (i + length a) (b ++ rest) [] (fun _ _ c => Some c) = None) ->
  search_from r i (pre ++ rest) = search_from r (i + length pre) rest.
Proof.
  induction pre as [|y pre IH]; intros rest i H.
  - cbn. now rewrite Nat.add_0_r.
  - cbn [app search_from].
    assert (E := H [] (y :: pre) eq_refl ltac:(discriminate)).
    cbn [length app] in E. rewrite Nat.add_0_r in E. rewrite E.
    rewrite IH.
    + cbn [length]. now rewrite Nat.add_succ_r.
    + intros a b -> Hb.
      specialize (H (y :: a) b eq_refl Hb). cbn [length] in H.
      now rewrite Nat.add_succ_r in H.
Qed.

Lemma search_from_none r : forall s i,
  search_from r i s = None ->
  forall a b, s = a ++ b ->
    rmatch r (i + length a) b [] (fun _ _ c => Some c) = None.
Proof.
  induction s as [|x s IH]; intros i; cbn [search_from].
  - destruct (rmatch r i [] [] _) as [c|] eqn:E; [discriminate|].
    intros _ a b Hab. destruct a; [|discriminate]. cbn in Hab. subst b.
    cbn [length]. now rewrite Nat.add_0_r.
  - destruct (rmatch r i (x :: s) [] _) as [c|] eqn:E; [discriminate|].
    intros H a b Hab. destruct a as [|y a]; cbn [app length] in *.
    + subst b. now rewrite Nat.add_0_r.
    + injection Hab as <- ->. rewrite Nat.add_succ_r.
      now apply (IH (S i) H a b).
Qed.

(** The pattern matches at none of the positions of [pre], in the text
    [pre ++ rest] whose first position is [i]. *)
Fixpoint unmatched (r : regex) (i : nat) (pre rest : str) : bool :=
  match pre with
  | [] => true
  | _ :: pre' =>
      match rmatch r i (pre ++ rest) [] (fun _ _ c => Some c) with
      | Some _ => false
      | None => unmatched r (S i) pre' rest
      end
  end.

Lemma unmatched_spec r pre : forall rest i,
  unmatched r i pre rest = true ->
  forall a b, pre = a ++ b -> b <> [] ->
    rmatch r (i + length a) (b ++ rest) [] (fun _ _ c => Some c) = None.
Proof.
  induction pre as [|y pre IH]; intros rest i H a b Hab Hb.
  - destruct a; [cbn in Hab; now subst b|discriminate].
  - cbn [unmatched] in H.
    destruct (rmatch r i ((y :: pre) ++ rest) [] _) as [c|] eqn:E;
      [discriminate|].
    destruct a as [|z a]; cbn [app length] in *.
    + subst b. rewrite Nat.add_0_r. exact E.
    + injection Hab as <- ->. rewrite Nat.add_succ_r.
      now apply (IH rest (S i) H a b).
Qed.

(** Two ways of cutting a text, one before the other. *)
Lemma earlier_cut {X} (pre pre' rest rest' : list X) :
  pre ++ rest = pre' ++ rest' -> (length pre' < length pre)%nat ->
  exists b, pre = pre' ++ b /\ b <> [] /\ rest' = b ++ rest.
Proof.
  revert pre'. induction pre as [|x pre IH]; intros pre' E Hlt.
  - cbn in Hlt. lia.
  - destruct pre' as [|y pre'].
    + exists (x :: pre). cbn in *. repeat split; [discriminate|now symmetry].
    + cbn in E. injection E as <- E. cbn in Hlt.
      destruct (IH pre' E ltac:(lia)) as (b & -> & Hb & ->).
      now exists b.
Qed.

(** The time range pattern at one position: it matches exactly a bracket
    pair that holds a non-empty text of range characters. *)
Lemma range_match_block i d post :
  d <> [] -> all_in is_range_char d ->
  rmatch time_range_pattern i ("[" :: d ++ "]" :: post) []
    (fun _ _ c => Some c)
  = Some [(1%nat, d)].
Proof.
  intros Hne Hd. unfold time_range_pattern.
  destruct d as [|d0 d]; [contradiction|].
  inversion Hd as [|? ? Hd0 Hd']; subst.
  rewrite rmatch_cat. apply take_chr. rewrite rmatch_cat, rmatch_grp.
  unfold Plus. rewrite rmatch_cat.
  change ((d0 :: d) ++ ?t) with (d0 :: d ++ t).
  rewrite rmatch_cls_cons, Hd0.
  apply take_star; [exact Hd'|reflexivity|].
  apply take_chr. do 3 f_equal.
  apply (firstn_span _ _ (d0 :: d)). cbn [length]. lia.
Qed.

Lemma range_match_shape i s m :
  rmatch time_range_pattern i s [] (fun _ _ c => Some c) = Some m ->
  exists d post,
    s = "[" :: d ++ "]" :: post /\ d <> [] /\ all_in is_range_char d
    /\ group_text 1 m = d.
Proof.
  intros E. apply rmatch_sound in E as (i' & s' & c' & M & [= <-]).
  unfold time_range_pattern, Plus in M.
  apply matches_cat in M as (i1 & s1 & c1 & M1 & M).
  apply matches_chr in M1 as (-> & -> & ->).
  apply matches_cat in M as (i2 & s2 & c2 & M2 & M).
  apply matches_grp in M2 as (c0 & M2 & ->).
  apply matches_cat in M2 as (i3 & s3 & c3 & M3 & M2).
  apply matches_cls in M3 as (x & -> & Hx & -> & ->).
  apply matches_star_cls in M2 as (w & -> & Hw & -> & ->).
  apply matches_chr in M as (-> & -> & ->).
  exists (x :: w), s'. cbn [group_text group Nat.eqb].
  change (x :: w ++ "]" :: s') with ((x :: w) ++ "]" :: s').
  rewrite (firstn_span _ _ (x :: w)) by (cbn [length]; lia).
  repeat split; [discriminate|now constructor].
Qed.

(** A time range block of [main] after the text [pre], and the first one:
    no block begins at an earlier position. *)
Definition block_at (main pre d post : str) : Prop :=
  main = pre ++ "[" :: d ++ "]" :: post
  /\ d <> [] /\ all_in is_range_char d.

Definition first_block (main pre d post : str) : Prop :=
  block_at main pre d post
  /\ forall pre' d' post',
       block_at main pre' d' post' -> (length pre <= length pre')%nat.

Lemma range_block_first main d :
  range_block main = Some d <-> exists pre post, first_block main pre d post.
Proof.
  unfold range_block, re_search. split.
  - destruct (search_from _ _ _) as [m|] eqn:E; [|discriminate].
    cbn [option_map]. intros [= <-].
    apply search_from_first in E as (pre & rest & -> & M & Hno).
    apply range_match_shape in M as (d & post & -> & Hne & Hd & ->).
    exists pre, post. split; [repeat split; assumption|].
    intros pre' d' post' (E' & Hne' & Hd').
    destruct (Nat.le_gt_cases (length pre) (length pre')) as [H|H];
      [exact H|exfalso].
    destruct (earlier_cut _ _ _ _ E' H) as (b & -> & Hb & Eb).
    specialize (Hno pre' b eq_refl Hb). rewrite <- Eb in Hno.
    now rewrite (range_match_block _ d' post' Hne' Hd') in Hno.
  - intros (pre & post & (-> & Hne & Hd) & Hfirst).
    rewrite search_from_pass.
    + rewrite (search_from_hit _ _ _ [(1%nat, d)]); [reflexivity|].
      now apply range_match_block.
    + intros a b -> Hb.
      destruct (rmatch _ _ _ _ _) as [m|] eqn:E; [exfalso|reflexivity].
      apply range_match_shape in E as (d' & post' & E & Hne' & Hd' & _).
      assert (Hle : (length (a ++ b) <= length a)%nat).
      { apply (Hfirst a d' post'). repeat split; try assumption.
        now rewrite <- app_assoc, E. }
      rewrite length_app in Hle. destruct b; [now apply Hb|].
      cbn [length] in Hle. lia.
Qed.

Lemma range_block_none main :
  range_block main = None <-> forall pre d post, ~ block_at main pre d post.
Proof.
  split.
  - unfold range_block, re_search.
    destruct (search_from _ _ _) as [m|] eqn:E; [discriminate|].
    intros _ pre d post (-> & Hne & Hd).
    pose proof (search_from_none _ _ _ E pre _ eq_refl) as E'.
    now rewrite (range_match_block _ d post Hne Hd) in E'.
  - intros Hno. destruct (range_block main) as [d|] eqn:E; [|reflexivity].
    apply range_block_first in E as (pre & post & H & _).
    now destruct (Hno pre d post).
Qed.

(** The first block of a written text, by running the pattern at the
    positions before it. *)
Lemma first_block_checked main pre d post :
  main = pre ++ "[" :: d ++ "]" :: post ->
  d <> [] -> all_in is_range_char d ->
  unmatched time_range_pattern 0 pre ("[" :: d ++ "]" :: post) = true ->
  first_block main pre d post.
Proof.
  intros -> Hne Hd Hun. split; [repeat split; assumption|].
  intros pre' d' post' (E' & Hne' & Hd').
  destruct (Nat.le_gt_cases (length pre) (length pre')) as [H|H];
    [exact H|exfalso].
  destruct (earlier_cut _ _ _ _ E' H) as (b & -> & Hb & Eb).
  pose proof (unmatched_spec _ _ _ _ Hun pre' b eq_refl Hb) as Hno.
  rewrite <- Eb in Hno.
  now rewrite (range_match_block _ d' post' Hne' Hd') in Hno.
Qed.

(** Runs of a character class: a text splits in one way only into a run
    and a rest that the class does not begin. *)
Lemma run_unique p a : forall a' b b',
  all_in p a -> all_in p a' -> stops p b -> stops p b' ->
  a ++ b = a' ++ b' -> a = a' /\ b = b'.
Proof.
  induction a as [|x a IH]; intros [|y a'] b b' Ha Ha' Hb Hb' E; cbn in E.
  - auto.
  - subst b. inversion Ha'; subst. cbn in Hb. congruence.
  - subst b'. inversion Ha; subst. cbn in Hb'. congruence.
  - injection E as -> E. inversion Ha; inversion Ha'; subst.
    destruct (IH a' b b') as [-> ->]; auto.
Qed.

(** ** The matcher block of a query *)

Lemma matcher_entries_in b lm : In lm (matcher_entries b) -> nonempty b = true.
Proof. destruct b; [contradiction|reflexivity]. Qed.

Lemma label_matchers_of_block main b :
  matcher_block main = Some b -> b <> [] ->
  label_matchers_list main
  = match matcher_entries b with
    | [] => Err EmptyMatcherBlock
    | _ :: _ => parse_matchers (matcher_entries b)
    end.
Proof.
  intros Hb Hne. unfold label_matchers_list. rewrite Hb.
  destruct b; [contradiction|]. cbn [nonempty]. reflexivity.
Qed.

Lemma construct_matchers_error now qs name e :
  metric_name_of (main_query qs) = Some name ->
  label_matchers_list (main_query qs) = Err e ->
  construct_read_request now qs = Err e.
Proof.
  intros Hn Hl. unfold construct_read_request. now rewrite Hn, Hl.
Qed.

(** C1, amended.  When the first matcher block of a query with a metric
    name has text between its braces, and that text split at commas has
    only blank entries, the parser fails with [EmptyMatcherBlock].  With
    nothing at all between the braces the block is read as no matchers. *)
Theorem empty_matcher_block now qs name pre b post :
  metric_name_of (main_query qs) = Some name ->
  main_query qs = pre ++ "{" :: b ++ "}" :: post ->
  ~ In "{" pre -> ~ In "}" b ->
  matcher_entries b = [] ->
  (b <> [] -> construct_read_request now qs = Err EmptyMatcherBlock)
  /\ (b = [] -> label_matchers_list (main_query qs) = Ok []).
Proof.
  intros Hn Hm Hpre Hb He.
  assert (Hblock : matcher_block (main_query qs) = Some b).
  { rewrite Hm. now apply matcher_block_found. }
  split.
  - intros Hne. apply (construct_matchers_error now qs name); [exact Hn|].
    rewrite (label_matchers_of_block _ b Hblock Hne), He. reflexivity.
  - intros ->. unfold label_matchers_list. rewrite Hblock. reflexivity.
Qed.

Lemma empty_matcher_block_witness :
  construct_read_request 1700000000000 (lit "metric{ , }[5s]")
  = Err EmptyMatcherBlock.
Proof.
  apply (empty_matcher_block 1700000000000 (lit "metric{ , }[5s]")
           (lit "metric") (lit "metric") (lit " , ") (lit "[5s]")).
  - reflexivity.
  - reflexivity.
  - cbn. intuition discriminate.
  - cbn. intuition discriminate.
  - reflexivity.
  - discriminate.
Defined.

(** C1 as stated fails: the bare block is accepted, with the same request
    as without any block; and without a metric name a blank block is not
    what is reported. *)
Lemma bare_braces_accepted :
  construct_read_request 1700000000000 (lit "metric{}[5s]")
  = Ok (request_of (lit "metric") []
          (mkHintState no_hints 1699999995000 1700000000000))
  /\ construct_read_request 1700000000000 (lit "metric[5s]")
     = construct_read_request 1700000000000 (lit "metric{}[5s]")
  /\ construct_read_request 1700000000000 (lit "{ , }") = Err MissingMetricName.
Proof. repeat split; vm_compute; reflexivity. Qed.

(** An entry that begins with a name, one of the four operators and a
    quoted value: what the entry pattern accepts. *)
Definition accepted (lm : str) : Prop :=
  exists n o v rest, entry_shape lm n o v rest.

Lemma accepted_parsed lm : accepted lm <-> exists t, parse_matcher lm = Ok t.
Proof.
  split.
  - intros (n & o & v & rest & H). exists (n, o, v).
    apply parse_matcher_ok. eauto.
  - intros ([[n o] v] & H). apply parse_matcher_ok in H as (rest & H).
    now exists n, o, v, rest.
Qed.

Lemma rejected_parsed lm :
  ~ accepted lm <-> parse_matcher lm = Err (InvalidMatcher lm).
Proof.
  split.
  - intros H. now apply parse_matcher_err.
  - intros H. now apply parse_matcher_err in H as [_ H].
Qed.

(** The entries are read in order, and the first one that the pattern
    rejects ends the loop. *)
Lemma parse_matchers_first pre lm post :
  Forall accepted pre -> ~ accepted lm ->
  parse_matchers (pre ++ lm :: post) = Err (InvalidMatcher lm).
Proof.
  intros Hpre Hlm. induction Hpre as [|e pre He _ IH]; cbn [app parse_matchers].
  - apply rejected_parsed in Hlm. now rewrite Hlm.
  - apply accepted_parsed in He as (t & ->). cbn [bind]. now rewrite IH.
Qed.

Lemma first_rejected es lm :
  In lm es -> ~ accepted lm ->
  exists pre lm' post,
    es = pre ++ lm' :: post /\ Forall accepted pre /\ ~ accepted lm'.
Proof.
  induction es as [|e es IH]; intros Hin Hlm; [contradiction|].
  destruct (parse_matcher e) as [t|err] eqn:E.
  - destruct Hin as [->|Hin].
    + exfalso. apply Hlm. apply accepted_parsed. now exists t.
    + destruct (IH Hin Hlm) as (pre & lm' & post & -> & Hpre & Hlm').
      exists (e :: pre), lm', post. repeat split; [|exact Hlm'].
      constructor; [|exact Hpre]. apply accepted_parsed. now exists t.
  - exists [], e, es. repeat split; [constructor|].
    apply rejected_parsed. pose proof E as E'.
    apply parse_matcher_err in E' as [-> _]. exact E.
Qed.

Lemma first_invalid_reported now qs name b pre lm post :
  metric_name_of (main_query qs) = Some name ->
  matcher_block (main_query qs) = Some b ->
  matcher_entries b = pre ++ lm :: post ->
  Forall accepted pre -> ~ accepted lm ->
  construct_read_request now qs = Err (InvalidMatcher lm).
Proof.
  intros Hn Hb He Hpre Hlm.
  assert (Hne : b <> []).
  { intros ->. cbn in He. now destruct pre. }
  apply (construct_matchers_error now qs name); [exact Hn|].
  rewrite (label_matchers_of_block _ b Hb Hne), He.
  rewrite <- (parse_matchers_first pre lm post Hpre Hlm).
  now destruct pre.
Qed.

(** C3, amended.  In a query with a metric name, an entry of the matcher
    block that does not begin with a name, one of the four operators and a
    quoted value (blanks allowed around the operator) makes the parser fail
    with [InvalidMatcher], and the entry reported is the first such entry:
    the one before which every entry begins so.  An entry that does begin
    so is accepted with these three parts, whatever follows the closing
    quote. *)
Theorem entry_must_begin_with_matcher now qs name b :
  metric_name_of (main_query qs) = Some name ->
  matcher_block (main_query qs) = Some b ->
  (forall lm,
     In lm (matcher_entries b) -> ~ accepted lm ->
     exists pre lm' post,
       matcher_entries b = pre ++ lm' :: post
       /\ Forall accepted pre /\ ~ accepted lm'
       /\ construct_read_request now qs = Err (InvalidMatcher lm'))
  /\ (forall pre lm post,
        matcher_entries b = pre ++ lm :: post ->
        Forall accepted pre -> ~ accepted lm ->
        construct_read_request now qs = Err (InvalidMatcher lm))
  /\ (forall lm n o v rest,
        entry_shape lm n o v rest -> parse_matcher lm = Ok (n, o, v)).
Proof.
  intros Hn Hb. split; [|split].
  - intros lm Hin Hlm.
    destruct (first_rejected _ lm Hin Hlm) as (pre & lm' & post & E & H1 & H2).
    exists pre, lm', post. repeat split; try assumption.
    now apply (first_invalid_reported now qs name b pre lm' post).
  - intros pre lm post. now apply (first_invalid_reported now qs name b).
  - intros lm n o v rest H. apply parse_matcher_ok. eauto.
Qed.

(** A block of three entries, of which the second and the third have
    another operator. *)
Definition entry_c_eq_0 : str := lit "c=" ++ quoted (lit "0").
Definition entry_a_lt_1 : str := lit "a<" ++ quoted (lit "1").
Definition entry_b_gt_2 : str := lit "b>" ++ quoted (lit "2").

Definition three_entries : str :=
  entry_c_eq_0 ++ lit "," ++ entry_a_lt_1 ++ lit "," ++ entry_b_gt_2.

Definition three_entries_query : str :=
  lit "metric{" ++ three_entries ++ lit "}".

Lemma entry_c_eq_0_accepted : accepted entry_c_eq_0.
Proof. apply accepted_parsed. eexists. vm_compute. reflexivity. Qed.

Lemma entry_a_lt_1_rejected : ~ accepted entry_a_lt_1.
Proof. apply rejected_parsed. vm_compute. reflexivity. Qed.

Lemma entry_b_gt_2_rejected : ~ accepted entry_b_gt_2.
Proof. apply rejected_parsed. vm_compute. reflexivity. Qed.

Lemma entry_must_begin_with_matcher_witness :
  In entry_b_gt_2 (matcher_entries three_entries)
  /\ ~ accepted entry_b_gt_2
  /\ construct_read_request 1700000000000 three_entries_query
     = Err (InvalidMatcher entry_a_lt_1).
Proof.
  split; [vm_compute; auto|]. split; [exact entry_b_gt_2_rejected|].
  destruct (entry_must_begin_with_matcher 1700000000000 three_entries_query
              (lit "metric") three_entries eq_refl eq_refl) as (_ & H & _).
  apply (H [entry_c_eq_0] entry_a_lt_1 [entry_b_gt_2]).
  - reflexivity.
  - constructor; [exact entry_c_eq_0_accepted|constructor].
  - exact entry_a_lt_1_rejected.
Defined.

(** C3 as stated fails: text after the closing quote of an entry is not
    looked at; and without a metric name an invalid entry is not what is
    reported. *)
Lemma trailing_text_accepted :
  construct_read_request 1700000000000
    (lit "metric{a=" ++ quoted (lit "1") ++ lit "junk}")
  = Ok (request_of (lit "metric") [(lit "a", lit "=", lit "1")]
          (mkHintState no_hints 1699996400000 1700000000000))
  /\ construct_read_request 1700000000000 (lit "{a}") = Err MissingMetricName.
Proof. split; vm_compute; reflexivity. Qed.

(** ** Entries with another operator *)

(** A character that is neither blank nor the double quote. *)
Definition is_token_char (c : ascii) : bool :=
  negb (is_space c) && negb (Ascii.eqb dquote c).

(** [lm] begins with the name [nm] and the token [tok] where its operator
    should be: [tok] is the text between the name and the opening quote,
    blanks apart. *)
Definition token_entry (lm nm tok : str) : Prop :=
  exists ws1 ws2 rest,
    lm = nm ++ ws1 ++ tok ++ ws2 ++ dquote :: rest
    /\ is_label_name nm /\ all_in is_space ws1 /\ all_in is_space ws2
    /\ all_in is_token_char tok
    /\ match tok with
       | [] => False
       | t0 :: _ => is_label_char t0 = false
       end.

Lemma label_start_char c : is_label_start c = true -> is_label_char c = true.
Proof.
  destruct c as [[] [] [] [] [] [] [] []]; vm_compute; congruence.
Qed.

Lemma space_not_token c : is_space c = true -> is_token_char c = false.
Proof. unfold is_token_char. now intros ->. Qed.

Lemma label_name_chars n : is_label_name n -> all_in is_label_char n.
Proof.
  destruct n as [|x n]; [contradiction|]. intros [Hx Hn].
  constructor; [now apply label_start_char|exact Hn].
Qed.

Lemma operator_token op : In op operators -> all_in is_token_char op.
Proof.
  unfold operators. cbn [In].
  intros [<-|[<-|[<-|[<-|[]]]]]; repeat constructor.
Qed.

Lemma stops_blank_then p ws t :
  all_in is_space ws -> (forall c, is_space c = true -> p c = false) ->
  stops p t -> stops p (ws ++ t).
Proof.
  intros Hws Hp Ht. destruct Hws as [|w ws Hw _]; [exact Ht|].
  cbn. now apply Hp.
Qed.

Lemma unsupported_token_rejected lm nm tok :
  token_entry lm nm tok -> ~ In tok operators ->
  ~ exists n o v rest, entry_shape lm n o v rest.
Proof.
  intros (ws1 & ws2 & rest & -> & Hnm & Hws1 & Hws2 & Htok & Ht0) Hno
    (n & o & v & r & ws1' & ws2' & E & Hn & Hws1' & Ho & Hws2' & Hv).
  destruct (operator_head o Ho) as (x & orest & Eo & Hx1 & Hx2).
  destruct tok as [|t0 trest]; [contradiction|].
  assert (Ht0s : is_space t0 = false).
  { inversion Htok as [|? ? H _]; subst. unfold is_token_char in H.
    apply andb_true_iff in H as [H _]. now apply negb_true_iff in H. }
  apply run_unique with (p := is_label_char) in E as [-> E];
    [|now apply label_name_chars|now apply label_name_chars| |].
  - apply run_unique with (p := is_space) in E as [-> E];
      [|assumption|assumption|exact Ht0s|rewrite Eo; exact Hx2].
    apply run_unique with (p := is_token_char) in E as [E1 _].
    + apply Hno. rewrite E1. exact Ho.
    + exact Htok.
    + now apply operator_token.
    + apply stops_blank_then; [exact Hws2|apply space_not_token|].
      unfold stops, is_token_char. now rewrite Ascii.eqb_refl, andb_false_r.
    + apply stops_blank_then; [exact Hws2'|apply space_not_token|].
      unfold stops, is_token_char. now rewrite Ascii.eqb_refl, andb_false_r.
  - apply stops_blank_then; [exact Hws1|apply space_not_label|exact Ht0].
  - apply stops_blank_then; [exact Hws1'|apply space_not_label|].
    rewrite Eo. exact Hx1.
Qed.

(** C2, amended.  An entry of the matcher block whose operator token is
    none of the four operators is rejected by the entry pattern, and the
    parser fails with [InvalidMatcher] for the first entry of the block
    that the pattern rejects: for this entry when every entry before it is
    accepted.  The pattern lets only the four operators through, each of
    which the operator table maps, so that [UnsupportedOperator] is never
    raised. *)
Theorem unsupported_token_is_invalid_matcher now qs name b lm nm tok :
  metric_name_of (main_query qs) = Some name ->
  matcher_block (main_query qs) = Some b ->
  In lm (matcher_entries b) ->
  token_entry lm nm tok -> ~ In tok operators ->
  ~ accepted lm
  /\ (exists pre lm' post,
        matcher_entries b = pre ++ lm' :: post
        /\ Forall accepted pre /\ ~ accepted lm'
        /\ construct_read_request now qs = Err (InvalidMatcher lm'))
  /\ (forall pre post,
        matcher_entries b = pre ++ lm :: post -> Forall accepted pre ->
        construct_read_request now qs = Err (InvalidMatcher lm))
  /\ (forall lm2 n o v,
        parse_matcher lm2 = Ok (n, o, v) ->
        In o operators /\ operator_mapping o = Some (type_of o)).
Proof.
  intros Hn Hb Hin Htok Hno.
  assert (Hlm : ~ accepted lm).
  { now apply (unsupported_token_rejected lm nm tok). }
  split; [exact Hlm|]. split; [|split].
  - destruct (first_rejected _ lm Hin Hlm) as (pre & lm' & post & E & H1 & H2).
    exists pre, lm', post. repeat split; try assumption.
    now apply (first_invalid_reported now qs name b pre lm' post).
  - intros pre post E Hpre.
    now apply (first_invalid_reported now qs name b pre lm post).
  - intros lm2 n o v H. apply parse_matcher_supported in H.
    split; [exact H|]. now apply operator_mapping_supported.
Qed.

Lemma unsupported_token_is_invalid_matcher_witness :
  ~ accepted entry_a_lt_1
  /\ construct_read_request 1700000000000 three_entries_query
     = Err (InvalidMatcher entry_a_lt_1).
Proof.
  destruct (unsupported_token_is_invalid_matcher 1700000000000
              three_entries_query (lit "metric") three_entries
              entry_a_lt_1 (lit "a") (lit "<")) as (H1 & _ & H2 & _).
  - reflexivity.
  - reflexivity.
  - vm_compute. auto.
  - exists [], [], (lit "1" ++ [dquote]).
    repeat split; repeat constructor.
  - cbn. intuition discriminate.
  - split; [exact H1|]. apply (H2 [entry_c_eq_0] [entry_b_gt_2]).
    + reflexivity.
    + constructor; [exact entry_c_eq_0_accepted|constructor].
Defined.

(** ** The time range block *)

(** C4, amended.  The time range block of a query is the first bracket
    pair that holds a non-empty text of digits and the letters h, m, s:
    bracket pairs before it that hold something else are passed over.  In
    a query with a metric name and valid matchers, when [parse_duration]
    rejects the text of this block the parser fails with
    [InvalidTimeRange], which carries the error of [parse_duration], and
    when it accepts the text that is the time range; the time range is
    3600000 ms when there is no such block, be it that the query has no
    brackets or that they hold something else. *)
Theorem time_range_block now qs name lms :
  metric_name_of (main_query qs) = Some name ->
  label_matchers_list (main_query qs) = Ok lms ->
  (forall d,
     range_block (main_query qs) = Some d
     <-> exists pre post, first_block (main_query qs) pre d post)
  /\ (range_block (main_query qs) = None
      <-> forall pre d post, ~ block_at (main_query qs) pre d post)
  /\ (forall pre d post e,
        first_block (main_query qs) pre d post ->
        parse_duration d = Err e ->
        construct_read_request now qs = Err (InvalidTimeRange e))
  /\ (forall pre d post ms,
        first_block (main_query qs) pre d post ->
        parse_duration d = Ok ms ->
        time_range_ms (main_query qs) = Ok ms)
  /\ ((forall pre d post, ~ block_at (main_query qs) pre d post) ->
      time_range_ms (main_query qs) = Ok 3600000)
  /\ (forall pre d post,
        main_query qs = pre ++ "[" :: d ++ "]" :: post ->
        ~ In "[" pre -> d <> [] -> all_in is_range_char d ->
        range_block (main_query qs) = Some d).
Proof.
  intros Hn Hl. split; [|split; [|split; [|split; [|split]]]].
  - intros d. apply range_block_first.
  - apply range_block_none.
  - intros pre d post e Hb He.
    assert (Hr : range_block (main_query qs) = Some d).
    { apply range_block_first. now exists pre, post. }
    unfold construct_read_request.
    rewrite Hn, Hl. cbn [bind]. unfold time_range_ms. now rewrite Hr, He.
  - intros pre d post ms Hb Hd.
    assert (Hr : range_block (main_query qs) = Some d).
    { apply range_block_first. now exists pre, post. }
    unfold time_range_ms. now rewrite Hr, Hd.
  - intros Hno. apply range_block_none in Hno.
    unfold time_range_ms. now rewrite Hno.
  - intros pre d post -> Hpre Hne Hd. now apply range_block_found.
Qed.

Lemma time_range_block_witness :
  first_block (lit "metric[1d][0s]") (lit "metric[1d]") (lit "0s") []
  /\ construct_read_request 1700000000000 (lit "metric[1d][0s]")
     = Err (InvalidTimeRange (ZeroDuration (lit "0s"))).
Proof.
  assert (H : first_block (main_query (lit "metric[1d][0s]"))
                (lit "metric[1d]") (lit "0s") []).
  { apply first_block_checked.
    - reflexivity.
    - discriminate.
    - repeat constructor.
    - vm_compute. reflexivity. }
  split; [exact H|].
  destruct (time_range_block 1700000000000 (lit "metric[1d][0s]")
              (lit "metric") [] eq_refl eq_refl) as (_ & _ & Hc & _).
  apply (Hc (lit "metric[1d]") (lit "0s") []); [exact H|reflexivity].
Defined.

(** C4 as stated fails: a bracket pair that holds other text is not a time
    range block, and the default range is used; and an invalid matcher is
    reported before an invalid time range. *)
Lemma other_bracket_text_defaults :
  parse_duration (lit "1d") = Err (InvalidFormat (lit "1d"))
  /\ construct_read_request 1700000000000 (lit "metric[1d]")
     = Ok (request_of (lit "metric") []
             (mkHintState no_hints (1700000000000 - 3600000) 1700000000000))
  /\ construct_read_request 1700000000000 (lit "metric{a}[0s]")
     = Err (InvalidMatcher (lit "a")).
Proof. repeat split; vm_compute; reflexivity. Qed.

(** ** The read hints *)

(** The entries of the hints text that have a key, in the order written. *)
Fixpoint hint_entries (kvs : list str) : list (str * str) :=
  match kvs with
  | [] => []
  | kv :: rest =>
      match hint_entry kv with
      | Some e => e :: hint_entries rest
      | None => hint_entries rest
      end
  end.

(** The values written for a key, in the order written. *)
Definition values_of (key : string) (es : list (str * str)) : list str :=
  map snd (filter (fun e => str_eqb (fst e) (lit key)) es).

Fixpoint last_of {X} (l : list X) : option X :=
  match l with
  | [] => None
  | x :: rest =>
      match rest with
      | [] => Some x
      | _ :: _ => last_of rest
      end
  end.

(** A field after the entries: what the last value written for its key
    gives, or what it was when the key is not written. *)
Definition latest {X} (init : X) (conv : str -> X) (vals : list str) : X :=
  match last_of vals with
  | Some v => conv v
  | None => init
  end.

(** A timestamp that a hint replaces when the hint is set. *)
Definition overridden (init : Z) (hint : option Z) : Z :=
  match hint with
  | Some n => n
  | None => init
  end.

Definition is_true (v : str) : option bool :=
  Some (str_eqb (lower v) (lit "true")).

(** Every value written for [start], [end], [step] or [range] is an
    integer. *)
Definition int_values_ok (es : list (str * str)) : Prop :=
  Forall (fun e => is_int_key (fst e) = true -> py_int (snd e) <> None) es.

Lemma last_of_cons {X} (x : X) l : exists y, last_of (x :: l) = Some y.
Proof.
  revert x. induction l as [|z l IH]; intros x; [now exists x|].
  destruct (IH z) as (y & E). exists y. exact E.
Qed.

Lemma last_of_in {X} (l : list X) y : last_of l = Some y -> In y l.
Proof.
  induction l as [|x l IH]; [discriminate|].
  destruct l as [|z l]; [intros [= <-]; now left|].
  intros H. right. now apply IH.
Qed.

Lemma latest_cons {X} (init : X) conv v vals :
  latest init conv (v :: vals) = latest (conv v) conv vals.
Proof.
  unfold latest. destruct vals as [|s vals]; [reflexivity|].
  destruct (last_of_cons s vals) as (y & E).
  change (last_of (v :: s :: vals)) with (last_of (s :: vals)).
  now rewrite E.
Qed.

Lemma overridden_latest init a vs :
  (forall v, In v vs -> py_int v <> None) ->
  overridden (overridden init a) (latest None py_int vs)
  = overridden init (latest a py_int vs).
Proof.
  intros H. unfold latest. destruct vs as [|s vs]; [reflexivity|].
  destruct (last_of_cons s vs) as (y & E). rewrite E.
  apply last_of_in in E. specialize (H y E).
  destruct (py_int y); [reflexivity|contradiction].
Qed.

Lemma values_of_cons key k v es :
  values_of key ((k, v) :: es)
  = if str_eqb k (lit key) then v :: values_of key es else values_of key es.
Proof. unfold values_of. cbn. destruct (str_eqb k (lit key)); reflexivity. Qed.

Lemma grouping_fold gs : forall h,
  let h' := fold_left (fun h g => grouping_append g h) gs h in
  grouping h' = grouping h ++ gs
  /\ step_ms h' = step_ms h /\ func h' = func h /\ start_ms h' = start_ms h
  /\ end_ms h' = end_ms h /\ by_ h' = by_ h /\ range_ms h' = range_ms h.
Proof.
  induction gs as [|g gs IH]; intros h; cbn.
  - rewrite app_nil_r. repeat split.
  - destruct (IH (grouping_append g h)) as (-> & -> & -> & -> & -> & -> & ->).
    cbn. rewrite <- app_assoc. repeat split.
Qed.

(** [a] when the key of the entry is [k], else [b]. *)
Definition on_key {X} (key : str) (k : string) (a b : X) : X :=
  if str_eqb key (lit k) then a else b.

(** The fields after one entry. *)
Definition after_entry (st st1 : hint_state) (key val : str) : Prop :=
  let h := hs_hints st in
  let h1 := hs_hints st1 in
  start_ms h1 = on_key key "start" (py_int val) (start_ms h)
  /\ end_ms h1 = on_key key "end" (py_int val) (end_ms h)
  /\ step_ms h1 = on_key key "step" (py_int val) (step_ms h)
  /\ range_ms h1 = on_key key "range" (py_int val) (range_ms h)
  /\ func h1 = on_key key "func" (Some val) (func h)
  /\ by_ h1 = on_key key "by" (is_true val) (by_ h)
  /\ grouping h1
     = grouping h ++ on_key key "grouping" (grouping_values val) []
  /\ hs_start st1
     = overridden (hs_start st) (on_key key "start" (py_int val) None)
  /\ hs_end st1
     = overridden (hs_end st) (on_key key "end" (py_int val) None).

Ltac other_keys :=
  repeat match goal with
    | |- context [str_eqb (lit ?a) (lit ?b)] =>
        let v := eval vm_compute in (str_eqb (lit a) (lit b)) in
        change (str_eqb (lit a) (lit b)) with v
    end.

Lemma assign_hint_fields st key val :
  (is_int_key key = true -> py_int val <> None) ->
  exists st1, assign_hint st key val = Ok st1 /\ after_entry st st1 key val.
Proof.
  intros Hint. unfold assign_hint, after_entry, on_key.
  destruct st as [h s e]. cbn [hs_hints hs_start hs_end].
  destruct (str_eqb key (lit "start")) eqn:E1.
  { apply str_eqb_eq in E1. subst key.
    destruct (py_int val) as [n|] eqn:Ev; [|now destruct Hint].
    eexists. split; [reflexivity|].
    other_keys. destruct h; cbn. rewrite app_nil_r. repeat split. }
  destruct (str_eqb key (lit "end")) eqn:E2.
  { apply str_eqb_eq in E2. subst key.
    destruct (py_int val) as [n|] eqn:Ev; [|now destruct Hint].
    eexists. split; [reflexivity|].
    other_keys. destruct h; cbn. rewrite app_nil_r. repeat split. }
  destruct (str_eqb key (lit "step")) eqn:E3.
  { apply str_eqb_eq in E3. subst key.
    destruct (py_int val) as [n|] eqn:Ev; [|now destruct Hint].
    eexists. split; [reflexivity|].
    other_keys. destruct h; cbn. rewrite app_nil_r. repeat split. }
  destruct (str_eqb key (lit "range")) eqn:E4.
  { apply str_eqb_eq in E4. subst key.
    destruct (py_int val) as [n|] eqn:Ev; [|now destruct Hint].
    eexists. split; [reflexivity|].
    other_keys. destruct h; cbn. rewrite app_nil_r. repeat split. }
  assert (Hk : is_int_key key = false).
  { unfold is_int_key. now rewrite E1, E2, E3, E4. }
  rewrite Hk. cbn [bind].
  destruct (str_eqb key (lit "func")) eqn:E5.
  { apply str_eqb_eq in E5. subst key.
    eexists. split; [reflexivity|].
    other_keys. destruct h; cbn. rewrite app_nil_r. repeat split. }
  destruct (str_eqb key (lit "by")) eqn:E6.
  { apply str_eqb_eq in E6. subst key.
    eexists. split; [reflexivity|].
    other_keys. destruct h; cbn. rewrite app_nil_r. repeat split. }
  destruct (str_eqb key (lit "grouping")) eqn:E7.
  { eexists. split; [reflexivity|]. cbn [hs_hints hs_start hs_end].
    destruct (grouping_fold (grouping_values val) h)
      as (-> & -> & -> & -> & -> & -> & ->).
    repeat split. }
  eexists. split; [reflexivity|]. cbn. rewrite app_nil_r. repeat split.
Qed.

(** The fields after all the entries. *)
Definition after_entries (st st' : hint_state) (es : list (str * str)) : Prop :=
  let h := hs_hints st in
  let h' := hs_hints st' in
  start_ms h' = latest (start_ms h) py_int (values_of "start" es)
  /\ end_ms h' = latest (end_ms h) py_int (values_of "end" es)
  /\ step_ms h' = latest (step_ms h) py_int (values_of "step" es)
  /\ range_ms h' = latest (range_ms h) py_int (values_of "range" es)
  /\ func h' = latest (func h) Some (values_of "func" es)
  /\ by_ h' = latest (by_ h) is_true (values_of "by" es)
  /\ grouping h'
     = grouping h ++ concat (map grouping_values (values_of "grouping" es))
  /\ hs_start st'
     = overridden (hs_start st) (latest None py_int (values_of "start" es))
  /\ hs_end st'
     = overridden (hs_end st) (latest None py_int (values_of "end" es)).

Lemma values_of_valid key es :
  is_int_key (lit key) = true -> int_values_ok es ->
  forall v, In v (values_of key es) -> py_int v <> None.
Proof.
  intros Hk Hes v Hv. unfold values_of in Hv.
  apply in_map_iff in Hv as ([k v'] & <- & Hin).
  apply filter_In in Hin as [Hin Ek]. cbn in Ek.
  apply str_eqb_eq in Ek. subst k.
  unfold int_values_ok in Hes. rewrite Forall_forall in Hes.
  now apply (Hes _ Hin).
Qed.

Lemma apply_hints_fields kvs : forall st,
  int_values_ok (hint_entries kvs) ->
  exists st', apply_hints st kvs = Ok st'
              /\ after_entries st st' (hint_entries kvs).
Proof.
  induction kvs as [|kv kvs IH]; intros st Hok.
  - exists st. split; [reflexivity|]. unfold after_entries, latest. cbn.
    rewrite app_nil_r. repeat split.
  - cbn [apply_hints hint_entries] in *. unfold apply_hint.
    destruct (hint_entry kv) as [[key val]|]; [|now apply IH].
    inversion Hok as [|? ? Hkv Hok']; subst. cbn [fst snd] in Hkv.
    destruct (assign_hint_fields st key val Hkv)
      as (st1 & -> & F1 & F2 & F3 & F4 & F5 & F6 & F7 & F8 & F9).
    cbn [bind].
    destruct (IH st1 Hok')
      as (st' & -> & G1 & G2 & G3 & G4 & G5 & G6 & G7 & G8 & G9).
    exists st'. split; [reflexivity|].
    unfold after_entries. rewrite !values_of_cons.
    rewrite G1, G2, G3, G4, G5, G6, G7, G8, G9.
    rewrite F1, F2, F3, F4, F5, F6, F7, F8, F9. unfold on_key.
    repeat split.
    + destruct (str_eqb key (lit "start")); [now rewrite latest_cons|].
      reflexivity.
    + destruct (str_eqb key (lit "end")); [now rewrite latest_cons|].
      reflexivity.
    + destruct (str_eqb key (lit "step")); [now rewrite latest_cons|].
      reflexivity.
    + destruct (str_eqb key (lit "range")); [now rewrite latest_cons|].
      reflexivity.
    + destruct (str_eqb key (lit "func")); [now rewrite latest_cons|].
      reflexivity.
    + destruct (str_eqb key (lit "by")); [now rewrite latest_cons|].
      reflexivity.
    + destruct (str_eqb key (lit "grouping")); cbn [map concat].
      * now rewrite app_assoc.
      * now rewrite app_nil_r.
    + destruct (str_eqb key (lit "start")); [|reflexivity].
      rewrite latest_cons. apply overridden_latest.
      now apply values_of_valid.
    + destruct (str_eqb key (lit "end")); [|reflexivity].
      rewrite latest_cons. apply overridden_latest.
      now apply values_of_valid.
Qed.

(** The same as a test, for written hints. *)
Definition int_values_okb (es : list (str * str)) : bool :=
  forallb
    (fun e =>
       negb (is_int_key (fst e))
       || match py_int (snd e) with
          | Some _ => true
          | None => false
          end) es.

Lemma int_values_okb_ok es : int_values_okb es = true -> int_values_ok es.
Proof.
  unfold int_values_okb, int_values_ok. rewrite forallb_forall, Forall_forall.
  intros H e He Hk. specialize (H e He). rewrite Hk in H. cbn in H.
  destruct (py_int (snd e)); [discriminate|discriminate H].
Qed.

Ltac concrete_ints := apply int_values_okb_ok; vm_compute; reflexivity.

(** C8, amended.  When the main part of a query parses (a metric name,
    valid matchers, a valid time range), its hints part holds a read_hints
    text, every value written there for [start], [end], [step] or [range]
    is an integer, and both [start] and [end] are written, the request is
    built: its hints have the integers of the last [start] and [end]
    entries as start and end, and the start and end timestamps of the
    query are these same integers. *)
Theorem hints_override_timestamps now qs name lms range text vs ve s e :
  metric_name_of (main_query qs) = Some name ->
  label_matchers_list (main_query qs) = Ok lms ->
  time_range_ms (main_query qs) = Ok range ->
  read_hints_str qs = Some text ->
  int_values_ok (hint_entries (split "," text)) ->
  last_of (values_of "start" (hint_entries (split "," text))) = Some vs ->
  py_int vs = Some s ->
  last_of (values_of "end" (hint_entries (split "," text))) = Some ve ->
  py_int ve = Some e ->
  exists r q0,
    construct_read_request now qs = Ok r
    /\ queries r = [q0]
    /\ start_ms (hints q0) = Some s
    /\ end_ms (hints q0) = Some e
    /\ start_timestamp_ms q0 = s
    /\ end_timestamp_ms q0 = e.
Proof.
  intros Hn Hl Hr Ht Hok Hs Hvs He Hve.
  rewrite (construct_parts now qs name lms range Hn Hl Hr).
  unfold parse_hints. rewrite Ht.
  destruct (apply_hints_fields (split "," text)
              (mkHintState no_hints (start_of now range) now) Hok)
    as (st' & -> & F1 & F2 & _ & _ & _ & _ & _ & F8 & F9).
  cbn [bind]. eexists. eexists. split; [reflexivity|].
  split; [reflexivity|]. cbn [hints start_timestamp_ms end_timestamp_ms].
  unfold latest in *. rewrite Hs in F1, F8. rewrite He in F2, F9.
  rewrite Hvs in F1, F8. rewrite Hve in F2, F9. cbn in F8, F9.
  repeat split; assumption.
Qed.

Definition hinted_query : str :=
  lit "metric{code!~" ++ quoted (lit "2..") ++ lit ", a=" ++ quoted (lit "x")
  ++ lit "} @ {read_hints=" ++ quoted (lit "start=100,end=200") ++ lit "}".

Lemma hints_override_timestamps_witness :
  exists r q0,
    construct_read_request 1700000000000 hinted_query = Ok r
    /\ queries r = [q0]
    /\ start_ms (hints q0) = Some 100
    /\ end_ms (hints q0) = Some 200
    /\ start_timestamp_ms q0 = 100
    /\ end_timestamp_ms q0 = 200.
Proof.
  apply (hints_override_timestamps 1700000000000 hinted_query
           (lit "metric")
           [(lit "code", lit "!~", lit "2.."); (lit "a", lit "=", lit "x")]
           3600000 (lit "start=100,end=200") (lit "100") (lit "200")).
  - reflexivity.
  - reflexivity.
  - reflexivity.
  - reflexivity.
  - concrete_ints.
  - reflexivity.
  - reflexivity.
  - reflexivity.
  - reflexivity.
Defined.

(** A query with the given hints text. *)
Definition with_hints (main text : string) : str :=
  lit main ++ lit " @ {read_hints=" ++ quoted (lit text) ++ lit "}".

(** C8 as stated fails: with [start] and [end] written as integers, a
    [step] that is no integer still makes the parser fail, and so does a
    main part that does not parse; and of two [start] entries the second
    is the one kept. *)
Lemma bad_step_fails :
  construct_read_request 1700000000000
    (with_hints "metric" "start=100,end=200,step=x")
  = Err (InvalidHintValue (lit "step") (lit "x"))
  /\ construct_read_request 1700000000000
       (with_hints "metric[0s]" "start=100,end=200")
     = Err (InvalidTimeRange (ZeroDuration (lit "0s")))
  /\ construct_read_request 1700000000000
       (with_hints "metric" "start=100,end=200,start=300")
     = Ok (request_of (lit "metric") []
             (mkHintState
                (set_end_ms 200 (set_start_ms 300 no_hints)) 300 200)).
Proof. repeat split; vm_compute; reflexivity. Qed.

(** An entry whose integer value does not parse makes the loop fail with
    [InvalidHintValue] for that entry, whatever entries follow it. *)
Lemma apply_hints_invalid kvs1 kv kvs2 key val st :
  int_values_ok (hint_entries kvs1) ->
  hint_entry kv = Some (key, val) ->
  is_int_key key = true -> py_int val = None ->
  apply_hints st (kvs1 ++ kv :: kvs2) = Err (InvalidHintValue key val).
Proof.
  intros Hok Hkv Hk Hv. revert st Hok.
  induction kvs1 as [|kv1 kvs1 IH]; intros st Hok.
  - cbn [app apply_hints]. unfold apply_hint. rewrite Hkv.
    unfold assign_hint. now rewrite Hk, Hv.
  - cbn [app apply_hints hint_entries] in *. unfold apply_hint at 1.
    destruct (hint_entry kv1) as [[k1 v1]|]; [|now apply IH].
    inversion Hok as [|? ? H1 Hok']; subst. cbn [fst snd] in H1.
    destruct (assign_hint_fields st k1 v1 H1) as (st1 & -> & _).
    cbn [bind]. now apply IH.
Qed.

(** ** Blank blocks and written queries *)

Lemma lstrip_nil s : lstrip s = [] <-> all_in is_space s.
Proof.
  induction s as [|x s IH]; cbn.
  - split; [constructor|reflexivity].
  - destruct (is_space x) eqn:E.
    + rewrite IH. split; [now constructor|now inversion 1].
    + split; [discriminate|]. inversion 1; congruence.
Qed.

Lemma lstrip_suffix s : exists ws, s = ws ++ lstrip s /\ all_in is_space ws.
Proof.
  induction s as [|x s (ws & E & H)]; [exists []; split; [reflexivity|constructor]|].
  cbn. destruct (is_space x) eqn:Ex.
  - exists (x :: ws). cbn. split; [now f_equal|now constructor].
  - exists []. split; [reflexivity|constructor].
Qed.

Lemma strip_nil s : strip s = [] <-> all_in is_space s.
Proof.
  unfold strip, rstrip. split.
  - intros H. destruct (lstrip_suffix s) as (ws & E & Hws).
    assert (Hr : lstrip (rev (lstrip s)) = []).
    { destruct (lstrip (rev (lstrip s))) as [|y t] eqn:Ey; [reflexivity|].
      cbn in H. now destruct (rev t). }
    apply lstrip_nil in Hr. apply Forall_rev in Hr.
    rewrite rev_involutive in Hr.
    rewrite E. apply Forall_app. split; assumption.
  - intros H. apply lstrip_nil in H. now rewrite H.
Qed.

Lemma split_cons sep s : exists w ws, split sep s = w :: ws.
Proof.
  induction s as [|x s (w & ws & E)]; cbn; [eauto|].
  destruct (Ascii.eqb x sep); [eauto|]. rewrite E. eauto.
Qed.

Definition blank_or (sep : ascii) (c : ascii) : Prop :=
  is_space c = true \/ c = sep.

Lemma split_blank sep s :
  is_space sep = false ->
  Forall (all_in is_space) (split sep s) <-> Forall (blank_or sep) s.
Proof.
  intros Hsep. induction s as [|x s IH]; cbn.
  - split; repeat constructor.
  - destruct (Ascii.eqb_spec x sep) as [->|Hx].
    + split.
      * inversion 1; subst. constructor; [now right|now apply IH].
      * inversion 1; subst. constructor; [constructor|now apply IH].
    + destruct (split_cons sep s) as (w & ws & E). rewrite E in *.
      split.
      * inversion 1 as [|? ? Hxw Hws]; subst.
        inversion Hxw; subst.
        constructor; [now left|]. apply IH. now constructor.
      * inversion 1 as [|? ? [Hb|Hb] Hs]; subst; [|contradiction].
        apply IH in Hs. inversion Hs; subst.
        constructor; [now constructor|assumption].
Qed.

Lemma filter_strip_nil l :
  filter nonempty (map strip l) = [] <-> Forall (all_in is_space) l.
Proof.
  induction l as [|s l IH]; cbn; [split; constructor|].
  destruct (strip s) as [|y t] eqn:E; cbn.
  - rewrite IH. apply strip_nil in E.
    split; [now constructor|now inversion 1].
  - split; [discriminate|]. inversion 1 as [|? ? Hs _]; subst.
    apply strip_nil in Hs. congruence.
Qed.

(** A block has no entries exactly when it holds blanks and commas only. *)
Lemma matcher_entries_nil b :
  matcher_entries b = [] <-> Forall (blank_or ",") b.
Proof.
  unfold matcher_entries. rewrite filter_strip_nil.
  now apply split_blank.
Qed.

Definition is_metric_name (name : str) : Prop :=
  match name with
  | [] => False
  | x :: rest => is_metric_start x = true /\ all_in is_metric_char rest
  end.

Lemma metric_start_not_space c : is_metric_start c = true -> is_space c = false.
Proof.
  destruct c as [[] [] [] [] [] [] [] []]; vm_compute; congruence.
Qed.

(** The metric name is the longest name at the start of the main query. *)
Lemma metric_name_found name rest :
  is_metric_name name -> stops is_metric_char rest ->
  metric_name_of (name ++ rest) = Some name.
Proof.
  intros Hname Hrest. destruct name as [|x ns]; [contradiction|].
  destruct Hname as [Hx Hns].
  unfold metric_name_of, re_search.
  rewrite (search_from_hit _ _ _ [(1%nat, x :: ns)]); [reflexivity|].
  unfold metric_pattern. rewrite rmatch_cat.
  change (rmatch Bos 0 ?s ?c ?K) with (K 0%nat s c). cbv beta.
  rewrite rmatch_cat.
  apply (take_star is_space [] ((x :: ns) ++ rest)); [constructor| |].
  { cbn. now apply metric_start_not_space. }
  rewrite rmatch_grp, rmatch_cat.
  change ((x :: ns) ++ rest) with (x :: ns ++ rest).
  rewrite rmatch_cls_cons, Hx.
  apply take_star; [exact Hns|exact Hrest|].
  do 3 f_equal. apply (firstn_span _ _ (x :: ns)). cbn [length]. lia.
Qed.

Lemma split1_found sep a b :
  ~ In sep a -> split1 sep (a ++ sep :: b) = (a, Some b).
Proof.
  induction a as [|x a IH]; intros H; cbn.
  - now rewrite Ascii.eqb_refl.
  - destruct (Ascii.eqb_spec x sep) as [->|_]; [exfalso; apply H; now left|].
    rewrite IH by (intros Hi; apply H; now right). reflexivity.
Qed.

Lemma strip_blanks ws s :
  all_in is_space ws -> stops is_space s -> stops is_space (rev s) ->
  strip (ws ++ s) = s.
Proof.
  intros Hws H1 H2. unfold strip.
  assert (El : lstrip (ws ++ s) = s).
  { induction Hws as [|w ws Hw _ IH]; [now apply lstrip_stops|].
    cbn [app lstrip]. now rewrite Hw. }
  rewrite El. unfold rstrip. rewrite (lstrip_stops _ H2).
  apply rev_involutive.
Qed.

(** The hints text of a query written with a hints block after the first
    [@]. *)
Lemma read_hints_found main blanks text :
  ~ In "@" main -> all_in is_space blanks -> all_in not_dquote text ->
  read_hints_str
    (main ++ "@" :: blanks ++ lit "{read_hints=" ++ quoted text ++ lit "}")
  = Some text.
Proof.
  intros Hmain Hblanks Htext. unfold read_hints_str, hints_query.
  rewrite (split1_found "@" main _ Hmain). cbn [snd option_map].
  assert (Es : strip (blanks ++ lit "{read_hints=" ++ quoted text ++ lit "}")
               = lit "{read_hints=" ++ quoted text ++ lit "}").
  { apply strip_blanks; [exact Hblanks|reflexivity|].
    rewrite !rev_app_distr. reflexivity. }
  assert (Et : lit "{read_hints=" ++ quoted text ++ lit "}"
               = "{" :: [] ++ lit "read_hints" ++ [] ++ "=" :: []
                 ++ dquote :: text ++ dquote :: [] ++ ["}"]).
  { unfold quoted. cbn. now rewrite <- app_assoc. }
  rewrite Es, Et. clear Es Et.
  unfold re_search, read_hints_pattern.
  rewrite (search_from_hit _ _ _ [(1%nat, text)]); [reflexivity|].
  rewrite rmatch_cat. apply take_chr. rewrite rmatch_cat.
  apply take_star; [constructor|reflexivity|].
  rewrite rmatch_cat. apply take_word. rewrite rmatch_cat.
  apply take_star; [constructor|reflexivity|].
  rewrite rmatch_cat. apply take_chr. rewrite rmatch_cat.
  apply take_star; [constructor|reflexivity|].
  rewrite rmatch_cat. apply take_chr.
  rewrite rmatch_cat, rmatch_grp.
  apply take_star; [exact Htext| |].
  { unfold stops, Not. now rewrite Ascii.eqb_refl. }
  rewrite rmatch_cat. apply take_chr. rewrite rmatch_cat.
  apply take_star; [constructor|reflexivity|].
  apply take_chr. do 3 f_equal. apply firstn_span. lia.
Qed.

(** ** Examples *)

Example py_str_examples :
  py_str 0 = lit "0" /\ py_str 7 = lit "7" /\ py_str 3600000 = lit "3600000".
Proof. repeat split. Qed.

Example parse_duration_examples :
  parse_duration (lit "1h2m3s") = Ok 3723000
  /\ parse_duration (lit "5s") = Ok 5000
  /\ parse_duration (lit "") = Err (ZeroDuration (lit ""))
  /\ parse_duration (lit "0h0m0s") = Err (ZeroDuration (lit "0h0m0s"))
  /\ parse_duration (lit "2m1h") = Err (InvalidFormat (lit "2m1h"))
  /\ parse_duration (lit "5x") = Err (InvalidFormat (lit "5x")).
Proof. repeat split. Qed.

Example plain_metric :
  construct_read_request 1700000000000 (lit "metric")
  = Ok (request_of (lit "metric") []
          (mkHintState no_hints (1700000000000 - 3600000) 1700000000000)).
Proof. vm_compute. reflexivity. Qed.

Example missing_metric_name :
  construct_read_request 1700000000000 (lit "{a}") = Err MissingMetricName.
Proof. vm_compute. reflexivity. Qed.

Example zero_range :
  construct_read_request 1700000000000 (lit "metric[0s]")
  = Err (InvalidTimeRange (ZeroDuration (lit "0s"))).
Proof. vm_compute. reflexivity. Qed.

Example py_int_examples :
  py_int (lit "100") = Some 100 /\ py_int (lit "-5") = Some (-5)
  /\ py_int (lit "+5") = Some 5 /\ py_int (lit "1_000") = Some 1000
  /\ py_int (lit "007") = Some 7 /\ py_int (lit "") = None
  /\ py_int (lit "1__0") = None /\ py_int (lit "12a") = None
  /\ py_int (lit "1 2") = None.
Proof. repeat split. Qed.

(** * Further properties of the module *)

(** ** What parse_duration accepts *)

Lemma matches_opt r i s c i' s' c' :
  matches (Opt r) i s c i' s' c' ->
  matches r i s c i' s' c' \/ (i' = i /\ s' = s /\ c' = c).
Proof. inversion 1; subst; auto. Qed.

Lemma matches_eos i s c i' s' c' :
  matches Eos i s c i' s' c' ->
  i' = i /\ s' = s /\ c' = c /\ (s = [] \/ s = [newline]).
Proof. inversion 1; subst; auto. Qed.

(** A unit of the duration pattern matches nothing, or digits and the unit
    letter. *)
Lemma matches_unit n u i s c i' s' c' :
  matches (unit_group n u) i s c i' s' c' ->
  (i' = i /\ s' = s /\ c' = c)
  \/ exists ds,
       ds <> [] /\ all_in is_digit ds /\ s = ds ++ u :: s'
       /\ c' = (n, ds) :: c.
Proof.
  unfold unit_group, Plus. intros M.
  apply matches_opt in M as [M|M]; [right|now left].
  apply matches_cat in M as (i1 & s1 & c1 & M1 & M).
  apply matches_grp in M1 as (c0 & M1 & ->).
  apply matches_cat in M1 as (i2 & s2 & c2 & Ma & Mb).
  apply matches_cls in Ma as (x & -> & Hx & -> & ->).
  apply matches_star_cls in Mb as (w & -> & Hw & -> & ->).
  apply matches_chr in M as (-> & -> & ->).
  exists (x :: w). repeat split; [discriminate|now constructor|].
  f_equal. f_equal.
  change (x :: w ++ u :: s') with ((x :: w) ++ u :: s').
  apply firstn_span. cbn [length]. lia.
Qed.

(** A text of digits, or nothing, with its unit letter. *)
Definition segment (o : option str) (u : ascii) : str :=
  match o with
  | Some ds => ds ++ [u]
  | None => []
  end.

Definition digit_text (o : option str) : Prop :=
  match o with
  | Some ds => ds <> [] /\ all_in is_digit ds
  | None => True
  end.

(** The milliseconds of a component. *)
Definition amount (o : option str) (unit_ms : Z) : Z :=
  match o with
  | Some ds => numeral_val 0 ds * unit_ms
  | None => 0
  end.

(** [s] is a duration text: hours, minutes and seconds in this order, each
    optional, and possibly one final newline. *)
Definition duration_text (s : str) (oh om os : option str) : Prop :=
  exists tail,
    s = segment oh "h" ++ segment om "m" ++ segment os "s" ++ tail
    /\ (tail = [] \/ tail = [newline])
    /\ digit_text oh /\ digit_text om /\ digit_text os.

Lemma duration_match_sound s m :
  re_match duration_pattern s = Some m ->
  exists oh om os,
    duration_text s oh om os
    /\ group 1 m = oh /\ group 2 m = om /\ group 3 m = os.
Proof.
  intros H. apply re_match_sound in H as (i' & s' & M).
  change duration_pattern with
    (unit_group 1 "h" @@ unit_group 2 "m" @@ unit_group 3 "s" @@ Eos)%re in M.
  apply matches_cat in M as (i1 & s1 & c1 & M1 & M).
  apply matches_cat in M as (i2 & s2 & c2 & M2 & M).
  apply matches_cat in M as (i3 & s3 & c3 & M3 & M).
  apply matches_eos in M as (-> & -> & -> & Htail).
  apply matches_unit in M1 as [(-> & -> & ->)|(dh & Hh1 & Hh2 & -> & ->)];
    apply matches_unit in M2 as [(-> & -> & ->)|(dm & Hm1 & Hm2 & -> & ->)];
    apply matches_unit in M3 as [(-> & -> & ->)|(ds & Hs1 & Hs2 & -> & ->)].
  all: do 3 eexists; apply and_comm;
    (split; [cbn [group Nat.eqb]; repeat split; reflexivity|]);
    eexists;
    (split; [cbn [segment]; rewrite <- ?app_assoc; cbn [app]; reflexivity|]);
    cbn [digit_text]; repeat split; auto.
Qed.

Lemma digit_val_range c : is_digit c = true -> 0 <= digit_val c <= 9.
Proof.
  unfold is_digit, in_range, digit_val. intros H.
  apply andb_true_iff in H as [H1 H2].
  apply N.leb_le in H1, H2.
  change (code "0") with 48%N in H1. change (code "9") with 57%N in H2.
  lia.
Qed.

Lemma numeral_val_nonneg ds : all_in is_digit ds -> forall acc,
  0 <= acc -> 0 <= numeral_val acc ds.
Proof.
  induction 1 as [|d ds Hd _ IH]; intros acc Hacc; cbn [numeral_val];
    [exact Hacc|].
  apply IH. pose proof (digit_val_range d Hd). lia.
Qed.

Lemma amount_nonneg o unit_ms :
  digit_text o -> 0 <= unit_ms -> 0 <= amount o unit_ms.
Proof.
  destruct o as [ds|]; cbn; [|lia]. intros [_ H] Hu.
  pose proof (numeral_val_nonneg ds H 0). nia.
Qed.

Lemma add_component_digits o unit_ms total_ms :
  digit_text o ->
  add_component o unit_ms total_ms = Ok (total_ms + amount o unit_ms).
Proof.
  destruct o as [ds|]; cbn [add_component amount digit_text].
  - intros [Hne Hall]. pose proof (py_int_numeral ds Hall Hne) as Hi.
    destruct ds as [|x g]; [contradiction|].
    unfold int_or_raise. rewrite Hi. reflexivity.
  - intros _. now rewrite Z.add_0_r.
Qed.

(** The total of the components of a duration text. *)
Definition total_of (oh om os : option str) : Z :=
  amount oh 3600000 + amount om 60000 + amount os 1000.

Lemma parse_duration_of_match s m oh om os :
  re_match duration_pattern s = Some m ->
  group 1 m = oh -> group 2 m = om -> group 3 m = os ->
  digit_text oh -> digit_text om -> digit_text os ->
  parse_duration s
  = if total_of oh om os =? 0 then Err (ZeroDuration s)
    else Ok (total_of oh om os).
Proof.
  intros Hm H1 H2 H3 Dh Dm Ds. unfold parse_duration. rewrite Hm, H1, H2, H3.
  rewrite (add_component_digits oh _ _ Dh). cbn [bind].
  rewrite (add_component_digits om _ _ Dm). cbn [bind].
  rewrite (add_component_digits os _ _ Ds). cbn [bind].
  change (60 * 60 * 1000) with 3600000. change (60 * 1000) with 60000.
  rewrite Z.add_0_l. reflexivity.
Qed.

Lemma clear_of_segment u v o tail :
  is_digit v = false -> v <> u -> digit_text o -> clear_of u tail ->
  clear_of u (segment o v ++ tail).
Proof.
  intros Hv Hvu Ho Ht. destruct o as [ds|]; [|exact Ht].
  destruct Ho as [_ Hds]. exists ds, (v :: tail). cbn [segment].
  rewrite <- app_assoc. repeat split; auto.
Qed.

Lemma clear_of_tail u tail :
  tail = [] \/ tail = [newline] -> u <> newline -> clear_of u tail.
Proof.
  intros [->| ->] Hu; [apply clear_of_nil|].
  exists [], [newline]. repeat split; [constructor|congruence].
Qed.

Lemma unit_segment {A} n u o tail i c (k : @cont A) :
  is_digit u = false -> digit_text o -> clear_of u tail ->
  rmatch (unit_group n u) i (segment o u ++ tail) c k
  = match o with
    | Some ds =>
        orelse (k (S (i + length ds)) tail ((n, ds) :: c))
          (fun _ => k i (segment o u ++ tail) c)
    | None => k i tail c
    end.
Proof.
  intros Hu Ho Ht. destruct o as [ds|].
  - destruct Ho as [Hne Hall]. cbn [segment]. rewrite <- app_assoc.
    cbn [app]. now apply unit_present.
  - now apply unit_absent.
Qed.

Lemma eos_tail {A} tail i c (k : @cont A) :
  tail = [] \/ tail = [newline] -> rmatch Eos i tail c k = k i tail c.
Proof.
  intros [->| ->]; cbn [rmatch]; [reflexivity|].
  now rewrite Ascii.eqb_refl.
Qed.

Ltac clear_of_segments :=
  repeat (apply clear_of_segment; [reflexivity|discriminate|assumption|]);
  apply clear_of_tail; [assumption|discriminate].

Lemma duration_match_digits oh om os tail :
  digit_text oh -> digit_text om -> digit_text os ->
  tail = [] \/ tail = [newline] ->
  exists m,
    re_match duration_pattern
      (segment oh "h" ++ segment om "m" ++ segment os "s" ++ tail) = Some m
    /\ group 1 m = oh /\ group 2 m = om /\ group 3 m = os.
Proof.
  intros Dh Dm Ds Htail. unfold re_match.
  change duration_pattern with
    (unit_group 1 "h" @@ unit_group 2 "m" @@ unit_group 3 "s" @@ Eos)%re.
  assert (Hs : forall i c,
             group 3 c = None ->
             exists m,
               rmatch (unit_group 3 "s" @@ Eos)%re i
                 (segment os "s" ++ tail) c (fun _ _ c' => Some c') = Some m
               /\ group 1 m = group 1 c
               /\ group 2 m = group 2 c
               /\ group 3 m = os).
  { intros i c Hc.
    rewrite rmatch_cat, unit_segment;
      [|reflexivity|assumption|clear_of_segments].
    destruct os as [s|].
    - rewrite eos_tail by assumption. cbn [orelse].
      eexists. split; [reflexivity|]. repeat split.
    - rewrite eos_tail by assumption.
      eexists. split; [reflexivity|]. repeat split. exact Hc. }
  assert (Hm : forall i c,
             group 2 c = None -> group 3 c = None ->
             exists m,
               rmatch (unit_group 2 "m" @@ unit_group 3 "s" @@ Eos)%re i
                 (segment om "m" ++ segment os "s" ++ tail) c
                 (fun _ _ c' => Some c') = Some m
               /\ group 1 m = group 1 c
               /\ group 2 m = om
               /\ group 3 m = os).
  { intros i c Hc2 Hc3.
    rewrite rmatch_cat, unit_segment;
      [|reflexivity|assumption|clear_of_segments].
    destruct om as [m|].
    - destruct (Hs (S (i + length m)) ((2%nat, m) :: c))
        as (r & -> & H1 & H2 & H3); [exact Hc3|].
      exists r. cbn [orelse]. repeat split; auto.
    - destruct (Hs i c Hc3) as (r & E & H1 & H2 & H3).
      exists r. rewrite E. repeat split; auto. congruence. }
  rewrite rmatch_cat, unit_segment;
    [|reflexivity|assumption|clear_of_segments].
  destruct oh as [h|].
  - destruct (Hm (S (0 + length h)) [(1%nat, h)])
      as (r & -> & H1 & H2 & H3); [reflexivity|reflexivity|].
    exists r. cbn [orelse]. repeat split; auto.
  - destruct (Hm 0%nat []) as (r & E & H1 & H2 & H3);
      [reflexivity|reflexivity|].
    exists r. rewrite E. repeat split; auto.
Qed.

Lemma total_of_nonneg oh om os :
  digit_text oh -> digit_text om -> digit_text os -> 0 <= total_of oh om os.
Proof.
  intros Dh Dm Ds. unfold total_of.
  pose proof (amount_nonneg oh 3600000 Dh).
  pose proof (amount_nonneg om 60000 Dm).
  pose proof (amount_nonneg os 1000 Ds). lia.
Qed.

(** The length of the longest run of characters of a class in a text,
    [cur] being the length of the run that the text continues. *)
Fixpoint longest_run (p : ascii -> bool) (cur : nat) (s : str) : nat :=
  match s with
  | [] => cur
  | x :: s' =>
      if p x then longest_run p (S cur) s'
      else Nat.max cur (longest_run p 0 s')
  end.

(** No run of digits of the text is longer than [int] converts. *)
Definition digits_within_limit (s : str) : Prop :=
  (longest_run is_digit 0 s <= max_str_digits)%nat.

(** X1.  A duration text - hours, minutes and seconds in this order, each
    optional, digits with any leading zeros, and possibly one final
    newline - none of whose runs of digits is longer than 4300 digits is
    accepted with the sum of its components in milliseconds, unless that
    sum is zero, which is the error [ZeroDuration]. *)
Theorem parse_duration_accepts s oh om os :
  duration_text s oh om os -> digits_within_limit s ->
  parse_duration s
  = if total_of oh om os =? 0 then Err (ZeroDuration s)
    else Ok (total_of oh om os).
Proof.
  intros (tail & -> & Htail & Dh & Dm & Ds) _.
  destruct (duration_match_digits oh om os tail Dh Dm Ds Htail)
    as (m & Hm & H1 & H2 & H3).
  now apply (parse_duration_of_match _ m).
Qed.

Lemma parse_duration_accepts_witness :
  parse_duration (lit "007m" ++ lit "30s" ++ [newline]) = Ok 450000.
Proof.
  apply (parse_duration_accepts _ None (Some (lit "007")) (Some (lit "30"))).
  - exists [newline]. repeat split; try discriminate; try (now right);
      repeat constructor.
  - apply Nat.leb_le. vm_compute. reflexivity.
Defined.

Lemma parse_duration_ok_inv s v :
  parse_duration s = Ok v ->
  exists oh om os,
    duration_text s oh om os /\ v = total_of oh om os /\ 0 < v.
Proof.
  intros H.
  destruct (re_match duration_pattern s) as [m|] eqn:Hm;
    [|unfold parse_duration in H; rewrite Hm in H; discriminate].
  destruct (duration_match_sound s m Hm) as (oh & om & os & Ht & H1 & H2 & H3).
  pose proof Ht as (tail & _ & _ & Dh & Dm & Ds).
  rewrite (parse_duration_of_match s m oh om os Hm H1 H2 H3 Dh Dm Ds) in H.
  pose proof (total_of_nonneg oh om os Dh Dm Ds) as Hpos.
  destruct (Z.eqb_spec (total_of oh om os) 0) as [E|E]; [discriminate|].
  injection H as <-. exists oh, om, os. repeat split; [exact Ht|lia].
Qed.

(** X2.  A duration that [parse_duration] returns is positive, and it is
    the sum of the components of the text, which is a duration text. *)
Theorem parse_duration_positive s v :
  parse_duration s = Ok v ->
  0 < v
  /\ exists oh om os, duration_text s oh om os /\ v = total_of oh om os.
Proof.
  intros H.
  destruct (parse_duration_ok_inv s v H) as (oh & om & os & Ht & E & Hv).
  split; [exact Hv|]. eauto.
Qed.

Lemma parse_duration_positive_witness :
  0 < 5400000
  /\ exists oh om os,
       duration_text (lit "1h30m") oh om os /\ 5400000 = total_of oh om os.
Proof. apply (parse_duration_positive (lit "1h30m")). reflexivity. Defined.

(** X3.  On a text none of whose runs of digits is longer than 4300
    digits, [parse_duration] fails in two ways only, and each error carries
    the text as given: [ZeroDuration] for a duration text whose components
    add up to zero, [InvalidFormat] for a text that is no duration text.
    Within that limit the conversion of the digits never fails. *)
Theorem parse_duration_errors s e :
  digits_within_limit s ->
  parse_duration s = Err e ->
  (e = ZeroDuration s
   /\ exists oh om os, duration_text s oh om os /\ total_of oh om os = 0)
  \/ (e = InvalidFormat s /\ ~ exists oh om os, duration_text s oh om os).
Proof.
  intros _ H.
  destruct (re_match duration_pattern s) as [m|] eqn:Hm.
  - left.
    destruct (duration_match_sound s m Hm)
      as (oh & om & os & Ht & H1 & H2 & H3).
    pose proof Ht as (tail & _ & _ & Dh & Dm & Ds).
    rewrite (parse_duration_of_match s m oh om os Hm H1 H2 H3 Dh Dm Ds) in H.
    destruct (Z.eqb_spec (total_of oh om os) 0) as [E|E]; [|discriminate].
    injection H as <-. split; [reflexivity|]. eauto.
  - right. unfold parse_duration in H. rewrite Hm in H. injection H as <-.
    split; [reflexivity|].
    intros (oh & om & os & tail & -> & Htail & Dh & Dm & Ds).
    destruct (duration_match_digits oh om os tail Dh Dm Ds Htail)
      as (m & Hm' & _). congruence.
Qed.

Lemma parse_duration_errors_witness :
  (InvalidFormat (lit "1d") = ZeroDuration (lit "1d")
   /\ exists oh om os,
        duration_text (lit "1d") oh om os /\ total_of oh om os = 0)
  \/ (InvalidFormat (lit "1d") = InvalidFormat (lit "1d")
      /\ ~ exists oh om os, duration_text (lit "1d") oh om os).
Proof.
  apply (parse_duration_errors (lit "1d")).
  - apply Nat.leb_le. vm_compute. reflexivity.
  - reflexivity.
Defined.

(** ** The metric name *)

Fixpoint take_while (p : ascii -> bool) (s : str) : str :=
  match s with
  | x :: s' => if p x then x :: take_while p s' else []
  | [] => []
  end.

Fixpoint drop_while (p : ascii -> bool) (s : str) : str :=
  match s with
  | x :: s' => if p x then drop_while p s' else s
  | [] => []
  end.

Lemma take_drop_while p s :
  s = take_while p s ++ drop_while p s
  /\ all_in p (take_while p s) /\ stops p (drop_while p s).
Proof.
  induction s as [|x s (E & Ha & Hs)]; cbn; [repeat split; constructor|].
  destruct (p x) eqn:Hx; cbn.
  - repeat split; [now f_equal|now constructor|exact Hs].
  - repeat split; [constructor|exact Hx].
Qed.

Lemma lstrip_blanks ws s :
  all_in is_space ws -> stops is_space s -> lstrip (ws ++ s) = s.
Proof.
  intros Hws Hs. induction Hws as [|w ws Hw _ IH]; [now apply lstrip_stops|].
  cbn [app lstrip]. now rewrite Hw.
Qed.

Lemma lstrip_head s : stops is_space (lstrip s).
Proof.
  induction s as [|x s IH]; cbn; [exact I|].
  destruct (is_space x) eqn:E; [exact IH|exact E].
Qed.

Lemma rstrip_suffix s : exists ws, s = rstrip s ++ ws /\ all_in is_space ws.
Proof.
  unfold rstrip. destruct (lstrip_suffix (rev s)) as (ws & E & Hws).
  exists (rev ws). split; [|now apply Forall_rev].
  rewrite <- rev_app_distr, <- E. symmetry. apply rev_involutive.
Qed.

(** The main query and every stripped text begins with no blank. *)
Lemma strip_head s : stops is_space (strip s).
Proof.
  unfold strip. pose proof (lstrip_head s) as H.
  destruct (rstrip_suffix (lstrip s)) as (ws & E & _).
  destruct (rstrip (lstrip s)) as [|y t]; [exact I|].
  rewrite E in H. exact H.
Qed.

Lemma strip_in x s : In x (strip s) -> In x s.
Proof.
  unfold strip. intros H.
  destruct (lstrip_suffix s) as (ws & E & _).
  destruct (rstrip_suffix (lstrip s)) as (ws' & E' & _).
  rewrite E, E'. apply in_or_app. right. apply in_or_app. now left.
Qed.

Lemma metric_name_found_after ws x rest :
  all_in is_space ws -> is_metric_start x = true ->
  metric_name_of (ws ++ x :: rest)
  = Some (x :: take_while is_metric_char rest).
Proof.
  intros Hws Hx.
  destruct (take_drop_while is_metric_char rest) as (E & Ha & Hs).
  rewrite E at 1.
  unfold metric_name_of, re_search.
  rewrite (search_from_hit _ _ _
             [(1%nat, x :: take_while is_metric_char rest)]);
    [reflexivity|].
  unfold metric_pattern. rewrite rmatch_cat.
  change (rmatch Bos 0 ?s ?c ?K) with (K 0%nat s c). cbv beta.
  rewrite rmatch_cat.
  apply take_star; [exact Hws| |].
  { cbn. now apply metric_start_not_space. }
  rewrite rmatch_grp, rmatch_cat, rmatch_cls_cons, Hx.
  apply take_star; [exact Ha|exact Hs|].
  do 3 f_equal.
  change (x :: take_while is_metric_char rest ++ ?t)
    with ((x :: take_while is_metric_char rest) ++ t).
  apply firstn_span. cbn [length]. lia.
Qed.

Lemma search_bos_sound r s m :
  search_from (Bos @@ r) 0 s = Some m ->
  exists i' s', matches r 0 s [] i' s' m.
Proof.
  intros H. apply search_from_sound in H as (pre & rest & i' & s' & -> & M).
  apply matches_cat in M as (i1 & s1 & c1 & M1 & M).
  inversion M1 as [| | | | | | | | | |? ? Hi| |]; subst.
  destruct pre; [|discriminate]. cbn. eauto.
Qed.

(** The search for the metric name, as a function of the text: after any
    blanks, the longest run of name characters that begins with a letter,
    an underscore or a colon; none when the text begins otherwise. *)
Lemma metric_name_of_spec main :
  metric_name_of main
  = match lstrip main with
    | x :: rest =>
        if is_metric_start x
        then Some (x :: take_while is_metric_char rest)
        else None
    | [] => None
    end.
Proof.
  destruct (lstrip_suffix main) as (ws & E & Hws).
  destruct (lstrip main) as [|x rest] eqn:El.
  - destruct (metric_name_of main) as [name|] eqn:Hn; [|reflexivity].
    exfalso. unfold metric_name_of, re_search in Hn.
    destruct (search_from _ _ _) as [m|] eqn:Hs; [|discriminate].
    apply search_bos_sound in Hs as (i' & s' & M).
    apply matches_cat in M as (i1 & s1 & c1 & M1 & M).
    apply matches_star_cls in M1 as (w & Ew & Hw & -> & ->).
    apply matches_grp in M as (c0 & M & _).
    apply matches_cat in M as (i2 & s2 & c2 & M2 & _).
    apply matches_cls in M2 as (y & -> & Hy & _).
    rewrite Ew, lstrip_blanks in El; [discriminate|exact Hw|].
    cbn. now apply metric_start_not_space.
  - destruct (is_metric_start x) eqn:Hx.
    + rewrite E. now apply metric_name_found_after.
    + destruct (metric_name_of main) as [name|] eqn:Hn; [|reflexivity].
      exfalso. unfold metric_name_of, re_search in Hn.
      destruct (search_from _ _ _) as [m|] eqn:Hs; [|discriminate].
      apply search_bos_sound in Hs as (i' & s' & M).
      apply matches_cat in M as (i1 & s1 & c1 & M1 & M).
      apply matches_star_cls in M1 as (w & Ew & Hw & -> & ->).
      apply matches_grp in M as (c0 & M & _).
      apply matches_cat in M as (i2 & s2 & c2 & M2 & _).
      apply matches_cls in M2 as (y & -> & Hy & _).
      rewrite Ew, lstrip_blanks in El; [|exact Hw|].
      * injection El as -> _. congruence.
      * cbn. now apply metric_start_not_space.
Qed.

(** ** Errors and their order *)

Lemma parse_matchers_error_kind es e :
  parse_matchers es = Err e -> exists lm, e = InvalidMatcher lm.
Proof.
  induction es as [|lm es IH]; cbn; [discriminate|].
  destruct (parse_matcher lm) as [t|err] eqn:E; cbn.
  - destruct (parse_matchers es) as [ts|err]; cbn; [discriminate|].
    intros [= <-]. now apply IH.
  - intros [= <-]. apply parse_matcher_err in E as [-> _]. eauto.
Qed.

Lemma label_matchers_error_kind main e :
  label_matchers_list main = Err e ->
  e = EmptyMatcherBlock \/ exists lm, e = InvalidMatcher lm.
Proof.
  unfold label_matchers_list. destruct (nonempty _); [|discriminate].
  destruct (matcher_entries _) as [|lm es].
  - intros [= <-]. now left.
  - intros H. right. now apply (parse_matchers_error_kind (lm :: es)).
Qed.

Lemma main_query_lstrip qs : lstrip (main_query qs) = main_query qs.
Proof. apply lstrip_stops. unfold main_query. apply strip_head. Qed.

(** X4.  The parser fails with [MissingMetricName] exactly when the main
    query, the trimmed text before the first [@], is empty or begins with
    a character that is no letter, underscore or colon; the rest of the
    query is then not looked at. *)
Theorem missing_metric_name_iff now qs :
  construct_read_request now qs = Err MissingMetricName
  <-> match main_query qs with
      | [] => True
      | x :: _ => is_metric_start x = false
      end.
Proof.
  pose proof (metric_name_of_spec (main_query qs)) as Hn.
  rewrite main_query_lstrip in Hn. split.
  - intros H. destruct (main_query qs) as [|x rest] eqn:Em; [exact I|].
    destruct (is_metric_start x) eqn:Hx; [|reflexivity]. exfalso.
    unfold construct_read_request in H. rewrite Em, Hn in H. cbn [bind] in H.
    rewrite <- Em in H.
    destruct (label_matchers_list (main_query qs)) as [lms|e1] eqn:Hl.
    + cbn [bind] in H.
      destruct (time_range_ms (main_query qs)) as [range|e2] eqn:Hr.
      * cbn [bind] in H.
        destruct (parse_hints qs _) as [st|e3] eqn:Hh.
        -- cbn [bind] in H.
           rewrite (add_matchers_sorted lms (label_matchers_supported _ _ Hl))
             in H. discriminate.
        -- cbn [bind] in H. injection H as ->.
           destruct (parse_hints_error _ _ _ Hh) as (k & v & E).
           discriminate.
      * cbn [bind] in H. injection H as ->.
        destruct (time_range_error _ _ Hr) as (ve & E). discriminate.
    + cbn [bind] in H. injection H as ->.
      destruct (label_matchers_error_kind _ _ Hl) as [E|(lm & E)];
        discriminate.
  - intros H. unfold construct_read_request. rewrite Hn.
    destruct (main_query qs) as [|x rest]; [reflexivity|].
    now rewrite H.
Qed.

(** ** The time window and the hints *)

Lemma assign_hint_ok_valid st key val st1 :
  assign_hint st key val = Ok st1 ->
  is_int_key key = true -> py_int val <> None.
Proof.
  unfold assign_hint. intros H Hk. rewrite Hk in H.
  destruct (py_int val); [discriminate|discriminate H].
Qed.

Lemma apply_hints_ok_valid kvs : forall st st',
  apply_hints st kvs = Ok st' -> int_values_ok (hint_entries kvs).
Proof.
  induction kvs as [|kv kvs IH]; intros st st' H; cbn [hint_entries];
    [constructor|].
  cbn [apply_hints] in H. unfold apply_hint in H.
  destruct (hint_entry kv) as [[key val]|]; [|now apply (IH st st')].
  destruct (assign_hint st key val) as [st1|] eqn:E; [|discriminate].
  cbn [bind] in H. constructor; [|now apply (IH st1 st')].
  cbn [fst snd]. now apply (assign_hint_ok_valid st key val st1).
Qed.

Lemma time_range_positive main range :
  time_range_ms main = Ok range -> 0 < range.
Proof.
  unfold time_range_ms. destruct (range_block main) as [d|].
  - destruct (parse_duration d) as [ms|] eqn:E; [|discriminate].
    intros [= <-].
    now destruct (parse_duration_ok_inv d ms E) as (_ & _ & _ & _ & _ & H).
  - intros [= <-]. reflexivity.
Qed.

(** C6.  In every request that is built, the first matcher of the query is
    the matcher of the metric name, [__name__ = metric name], the metric
    name being the longest run of name characters at the start of the main
    query; the matchers after it are the label matchers written in the
    query, sorted by value, however many they are. *)
Theorem metric_matcher_first now qs r :
  construct_read_request now qs = Ok r ->
  exists name q0 x rest ms,
    metric_name_of (main_query qs) = Some name
    /\ main_query qs = x :: rest
    /\ is_metric_start x = true
    /\ name = x :: take_while is_metric_char rest
    /\ written_matchers qs = Ok ms
    /\ queries r = [q0]
    /\ matchers q0
       = mkLabelMatcher EQ (lit "__name__") name :: sort_by m_value ms
    /\ matchers q0
       = mkLabelMatcher EQ (lit "__name__") name :: label_matchers_of r
    /\ sorted_by m_value (label_matchers_of r).
Proof.
  intros H.
  destruct (construct_ok_inv now qs r H)
    as (name & lms & range & st & Hn & Hl & _ & _ & ->).
  pose proof Hn as Hspec.
  rewrite metric_name_of_spec, main_query_lstrip in Hspec.
  destruct (main_query qs) as [|x rest] eqn:Hm; [discriminate|].
  destruct (is_metric_start x) eqn:Hx; [|discriminate].
  injection Hspec as Hname.
  exists name, (mkQuery (hs_start st) (hs_end st)
                  (metric_matcher name :: sort_by m_value (map matcher_of lms))
                  (hs_hints st)), x, rest, (map matcher_of lms).
  unfold written_matchers. rewrite Hm, Hl. cbn [bind].
  split; [exact Hn|]. split; [reflexivity|]. split; [exact Hx|].
  split; [now symmetry|]. split; [reflexivity|]. split; [reflexivity|].
  split; [reflexivity|]. split; [reflexivity|].
  apply sort_by_sorted.
Qed.

Lemma metric_matcher_first_witness :
  exists q0,
    queries (request_of (lit "metric")
               [(lit "b", lit "=", lit "2"); (lit "a", lit "=", lit "1")]
               (mkHintState no_hints 1699996400000 1700000000000)) = [q0]
    /\ matchers q0
       = [mkLabelMatcher EQ (lit "__name__") (lit "metric");
          mkLabelMatcher EQ (lit "a") (lit "1");
          mkLabelMatcher EQ (lit "b") (lit "2")].
Proof.
  destruct (metric_matcher_first 1700000000000
              (two_matchers "b" "2" "a" "1")
              (request_of (lit "metric")
                 [(lit "b", lit "=", lit "2"); (lit "a", lit "=", lit "1")]
                 (mkHintState no_hints 1699996400000 1700000000000)))
    as (name & q0 & x & rest & ms & _ & Hm & _ & -> & Hw & Hq & E & _).
  - vm_compute. reflexivity.
  - exists q0. split; [exact Hq|]. rewrite E.
    vm_compute in Hm. injection Hm as <- <-.
    vm_compute in Hw. injection Hw as <-.
    vm_compute. reflexivity.
Defined.

(** X5.  In every request that is built, the value of the [__name__]
    matcher is the longest run of name characters (letters, digits,
    underscore, colon) at the start of the main query, which begins with a
    letter, an underscore or a colon. *)
Theorem metric_name_longest now qs r :
  construct_read_request now qs = Ok r ->
  exists q0 x rest,
    queries r = [q0]
    /\ main_query qs = x :: rest
    /\ is_metric_start x = true
    /\ hd_error (matchers q0)
       = Some (mkLabelMatcher EQ (lit "__name__")
                 (x :: take_while is_metric_char rest)).
Proof.
  intros H.
  destruct (construct_ok_inv now qs r H)
    as (name & lms & range & st & Hn & _ & _ & _ & ->).
  rewrite metric_name_of_spec, main_query_lstrip in Hn.
  destruct (main_query qs) as [|x rest]; [discriminate|].
  destruct (is_metric_start x) eqn:Hx; [|discriminate].
  injection Hn as <-. eexists _, x, rest. repeat split. exact Hx.
Qed.

Lemma metric_name_longest_witness :
  exists q0 x rest,
    queries (request_of (lit "up:rate5m") []
               (mkHintState no_hints 1699996400000 1700000000000)) = [q0]
    /\ main_query (lit " up:rate5m-x ") = x :: rest
    /\ is_metric_start x = true
    /\ hd_error (matchers q0)
       = Some (mkLabelMatcher EQ (lit "__name__")
                 (x :: take_while is_metric_char rest)).
Proof.
  apply (metric_name_longest 1700000000000 (lit " up:rate5m-x ")).
  vm_compute. reflexivity.
Defined.

(** The values written for a key in the hints of a query. *)
Definition hint_values (key : string) (qs : str) : list str :=
  match read_hints_str qs with
  | Some text => values_of key (hint_entries (split "," text))
  | None => []
  end.

Lemma parse_hints_fields qs st st' :
  parse_hints qs st = Ok st' ->
  start_ms (hs_hints st')
  = latest (start_ms (hs_hints st)) py_int (hint_values "start" qs)
  /\ end_ms (hs_hints st')
     = latest (end_ms (hs_hints st)) py_int (hint_values "end" qs)
  /\ hs_start st' = overridden (hs_start st)
                      (latest None py_int (hint_values "start" qs))
  /\ hs_end st' = overridden (hs_end st)
                    (latest None py_int (hint_values "end" qs)).
Proof.
  unfold parse_hints, hint_values.
  destruct (read_hints_str qs) as [text|].
  - intros H. pose proof (apply_hints_ok_valid _ _ _ H) as Hok.
    destruct (apply_hints_fields (split "," text) st Hok)
      as (st2 & E & F1 & F2 & _ & _ & _ & _ & _ & F8 & F9).
    rewrite H in E. injection E as <-. auto.
  - intros [= <-]. unfold latest. cbn. auto.
Qed.





(** X6.  The timestamps of a built query follow its hints: the start is
    the start hint when one is set and otherwise the current time minus
    the time range, which is positive; the end is the end hint when one is
    set and otherwise the current time.  A hint that is not written is not
    set. *)
Theorem timestamps_follow_hints now qs r :
  construct_read_request now qs = Ok r ->
  exists q0 range,
    queries r = [q0]
    /\ time_range_ms (main_query qs) = Ok range /\ 0 < range
    /\ start_timestamp_ms q0
       = overridden (now - range) (start_ms (hints q0))
    /\ end_timestamp_ms q0 = overridden now (end_ms (hints q0))
    /\ (hint_values "start" qs = [] -> start_ms (hints q0) = None)
    /\ (hint_values "end" qs = [] -> end_ms (hints q0) = None).
Proof.
  intros H.
  destruct (construct_ok_inv now qs r H)
    as (name & lms & range & st & _ & _ & Hr & Hh & ->).
  pose proof (time_range_positive _ _ Hr) as Hpos.
  destruct (parse_hints_fields _ _ _ Hh) as (F1 & F2 & F3 & F4).
  cbn [hs_hints hs_start hs_end no_hints start_ms end_ms] in F1, F2, F3, F4.
  eexists _, range. split; [reflexivity|].
  cbn [hints start_timestamp_ms end_timestamp_ms].
  rewrite F1, F2, F3, F4. unfold start_of.
  destruct (Z.ltb_spec 0 range) as [_|Hn]; [|lia].
  repeat split; auto.
  - intros ->. reflexivity.
  - intros ->. reflexivity.
Qed.

Lemma timestamps_follow_hints_witness :
  exists q0 range,
    queries (request_of (lit "metric") []
               (mkHintState (set_end_ms 200 no_hints)
                  (1700000000000 - 5000) 200)) = [q0]
    /\ time_range_ms (main_query (with_hints "metric[5s]" "end=200"))
       = Ok range
    /\ 0 < range
    /\ start_timestamp_ms q0
       = overridden (1700000000000 - range) (start_ms (hints q0))
    /\ end_timestamp_ms q0 = overridden 1700000000000 (end_ms (hints q0))
    /\ (hint_values "start" (with_hints "metric[5s]" "end=200") = [] ->
        start_ms (hints q0) = None)
    /\ (hint_values "end" (with_hints "metric[5s]" "end=200") = [] ->
        end_ms (hints q0) = None).
Proof.
  apply (timestamps_follow_hints 1700000000000
           (with_hints "metric[5s]" "end=200")).
  vm_compute. reflexivity.
Defined.

(** ** Hints that change nothing *)

Lemma split1_fst_clean sep s : ~ In sep (fst (split1 sep s)).
Proof.
  induction s as [|x s IH]; cbn; [tauto|].
  destruct (Ascii.eqb_spec x sep) as [->|Hx]; [cbn; tauto|].
  destruct (split1 sep s) as [a b]. cbn in *. intuition.
Qed.

Lemma split1_clean sep s : ~ In sep s -> split1 sep s = (s, None).
Proof.
  induction s as [|x s IH]; intros H; cbn; [reflexivity|].
  destruct (Ascii.eqb_spec x sep) as [->|_]; [exfalso; apply H; now left|].
  rewrite IH by (intros Hi; apply H; now right). reflexivity.
Qed.

(** The query without its hints part. *)
Definition without_hints (qs : str) : str := fst (split1 "@" qs).

Lemma without_hints_main qs : main_query (without_hints qs) = main_query qs.
Proof.
  unfold main_query, without_hints.
  now rewrite (split1_clean "@" _ (split1_fst_clean "@" qs)).
Qed.

Lemma without_hints_none qs : read_hints_str (without_hints qs) = None.
Proof.
  unfold read_hints_str, hints_query, without_hints.
  now rewrite (split1_clean "@" _ (split1_fst_clean "@" qs)).
Qed.

Lemma construct_hints_unused now qs :
  (forall st, parse_hints qs st = Ok st) ->
  construct_read_request now qs
  = construct_read_request now (without_hints qs).
Proof.
  intros H. unfold construct_read_request.
  rewrite without_hints_main.
  destruct (metric_name_of (main_query qs)); [|reflexivity]. cbn [bind].
  destruct (label_matchers_list (main_query qs)); [|reflexivity]. cbn [bind].
  destruct (time_range_ms (main_query qs)); [|reflexivity]. cbn [bind].
  rewrite H. unfold parse_hints at 1. now rewrite without_hints_none.
Qed.

(** X7.  A hints part without an opening brace holds no hints block: the
    request, or the error, is that of the query without its hints part. *)
Theorem hints_without_block_ignored now qs h :
  snd (split1 "@" qs) = Some h -> ~ In "{" h ->
  construct_read_request now qs
  = construct_read_request now (without_hints qs).
Proof.
  intros Hh Hb. apply construct_hints_unused. intros st.
  unfold parse_hints, read_hints_str, hints_query. rewrite Hh.
  cbn [option_map].
  destruct (strip h) as [|x hq] eqn:E; [reflexivity|].
  assert (Hc : ~ In "{" (x :: hq)).
  { intros Hi. apply Hb. apply strip_in. now rewrite E. }
  unfold re_search, read_hints_pattern.
  rewrite <- (app_nil_r (x :: hq)), search_from_skip by exact Hc.
  reflexivity.
Qed.

Lemma hints_without_block_ignored_witness :
  construct_read_request 1700000000000 (lit "metric[5s] @ start=100")
  = construct_read_request 1700000000000
      (without_hints (lit "metric[5s] @ start=100")).
Proof.
  apply (hints_without_block_ignored 1700000000000
           (lit "metric[5s] @ start=100") (lit " start=100")).
  - reflexivity.
  - cbn. intuition discriminate.
Defined.

(** The keys of the hints that the loop knows. *)
Definition hint_keys : list str :=
  [lit "start"; lit "end"; lit "step"; lit "range"; lit "func"; lit "by";
   lit "grouping"].

(** An entry without [=], or with a key that is not known. *)
Definition ignored (kv : str) : Prop :=
  match hint_entry kv with
  | Some (key, _) => ~ In key hint_keys
  | None => True
  end.

Lemma assign_hint_unknown st key val :
  ~ In key hint_keys -> assign_hint st key val = Ok st.
Proof.
  intros H. unfold hint_keys in H. cbn [In] in H.
  assert (E : forall k, In k hint_keys -> str_eqb key k = false).
  { intros k Hk. apply not_true_is_false. intros Hq.
    apply str_eqb_eq in Hq. subst k. now apply H. }
  unfold assign_hint, is_int_key.
  rewrite !E by (cbn; tauto). reflexivity.
Qed.

Lemma apply_hints_ignored kvs : forall st,
  Forall ignored kvs -> apply_hints st kvs = Ok st.
Proof.
  induction kvs as [|kv kvs IH]; intros st H; [reflexivity|].
  inversion H as [|? ? Hkv Hkvs]; subst. cbn [apply_hints].
  unfold apply_hint. unfold ignored in Hkv.
  destruct (hint_entry kv) as [[key val]|].
  - rewrite (assign_hint_unknown st key val Hkv). cbn [bind]. now apply IH.
  - cbn [bind]. now apply IH.
Qed.

(** X8.  Entries of the hints text without [=] and entries with a key that
    is none of start, end, step, range, func, by, grouping are skipped
    without an error, whatever their value: when the text holds only such
    entries, the request is that of the query without its hints part. *)
Theorem unknown_hints_ignored now qs text :
  read_hints_str qs = Some text -> Forall ignored (split "," text) ->
  construct_read_request now qs
  = construct_read_request now (without_hints qs).
Proof.
  intros Ht Hi. apply construct_hints_unused. intros st.
  unfold parse_hints. rewrite Ht. now apply apply_hints_ignored.
Qed.

Lemma unknown_hints_ignored_witness :
  construct_read_request 1700000000000
    (with_hints "metric" "limit=abc,verbose, Start=1")
  = construct_read_request 1700000000000
      (without_hints (with_hints "metric" "limit=abc,verbose, Start=1")).
Proof.
  apply (unknown_hints_ignored 1700000000000 _
           (lit "limit=abc,verbose, Start=1")).
  - reflexivity.
  - repeat constructor; unfold ignored; cbn; intuition discriminate.
Defined.

(** X9.  When the main part of a query parses, the first hint entry whose
    key is start, end, step or range and whose value is no integer makes
    the parser fail with [InvalidHintValue] for that key and value,
    whatever entries follow it. *)
Theorem invalid_hint_value now qs name lms range text kvs1 kv kvs2 key val :
  metric_name_of (main_query qs) = Some name ->
  label_matchers_list (main_query qs) = Ok lms ->
  time_range_ms (main_query qs) = Ok range ->
  read_hints_str qs = Some text ->
  split "," text = kvs1 ++ kv :: kvs2 ->
  int_values_ok (hint_entries kvs1) ->
  hint_entry kv = Some (key, val) ->
  is_int_key key = true -> py_int val = None ->
  construct_read_request now qs = Err (InvalidHintValue key val).
Proof.
  intros Hn Hl Hr Ht Hs Hok Hkv Hk Hv.
  rewrite (construct_parts now qs name lms range Hn Hl Hr).
  unfold parse_hints. rewrite Ht, Hs.
  now rewrite (apply_hints_invalid kvs1 kv kvs2 key val _ Hok Hkv Hk Hv).
Qed.

Lemma invalid_hint_value_witness :
  construct_read_request 1700000000000
    (with_hints "metric" "start=1, end = 2.5 ,step=x")
  = Err (InvalidHintValue (lit "end") (lit "2.5")).
Proof.
  apply (invalid_hint_value 1700000000000 _ (lit "metric") [] 3600000
           (lit "start=1, end = 2.5 ,step=x")
           [lit "start=1"] (lit " end = 2.5 ") [lit "step=x"]).
  - reflexivity.
  - reflexivity.
  - reflexivity.
  - reflexivity.
  - reflexivity.
  - concrete_ints.
  - reflexivity.
  - reflexivity.
  - reflexivity.
Defined.

(** ** Queries as they are written *)

Fixpoint join (sep : ascii) (l : list str) : str :=
  match l with
  | [] => []
  | x :: rest =>
      match rest with
      | [] => x
      | _ :: _ => x ++ sep :: join sep rest
      end
  end.

(** A matcher written as name, operator and quoted value. *)
Definition render_matcher (t : str * str * str) : str :=
  fst (fst t) ++ operator_of t ++ quoted (snd t).

(** A query written as metric name, matcher block and, possibly, time
    range block. *)
Definition render_query (name : str) (ms : list (str * str * str))
  (range : option str) : str :=
  name ++ "{" :: join "," (map render_matcher ms) ++ "}"
  :: match range with
     | Some d => "[" :: d ++ ["]"]
     | None => []
     end.

(** The characters with a role in the query syntax. *)
Definition specials : list ascii := [dquote; ","; "{"; "}"; "@"; "["].

Definition plain (c : ascii) : bool := negb (existsb (Ascii.eqb c) specials).

(** A matcher that can be written: a label name, one of the operators and
    a value without the characters of the syntax. *)
Definition writable (t : str * str * str) : Prop :=
  is_label_name (fst (fst t)) /\ In (operator_of t) operators
  /\ all_in plain (snd t).

Definition avoids (x : ascii) (s : str) : Prop := Forall (fun c => c <> x) s.

Lemma avoids_in x s : avoids x s <-> ~ In x s.
Proof.
  unfold avoids. rewrite Forall_forall. split.
  - intros H Hx. now apply (H x Hx).
  - intros H c Hc ->. contradiction.
Qed.

Lemma plain_avoids x s : In x specials -> all_in plain s -> avoids x s.
Proof.
  intros Hx Hs. unfold avoids. eapply Forall_impl; [|exact Hs].
  cbn beta. intros c Hc ->. unfold plain in Hc.
  apply negb_true_iff in Hc.
  assert (existsb (Ascii.eqb x) specials = true) as E; [|congruence].
  apply existsb_exists. exists x. split; [exact Hx|apply Ascii.eqb_refl].
Qed.

Lemma metric_char_plain c : is_metric_char c = true -> plain c = true.
Proof.
  destruct c as [[] [] [] [] [] [] [] []]; vm_compute; congruence.
Qed.

Lemma label_char_plain c : is_label_char c = true -> plain c = true.
Proof.
  destruct c as [[] [] [] [] [] [] [] []]; vm_compute; congruence.
Qed.

Lemma range_char_plain c : is_range_char c = true -> plain c = true.
Proof.
  destruct c as [[] [] [] [] [] [] [] []]; vm_compute; congruence.
Qed.

Lemma metric_start_char c : is_metric_start c = true -> is_metric_char c = true.
Proof.
  destruct c as [[] [] [] [] [] [] [] []]; vm_compute; congruence.
Qed.

Lemma operator_plain op : In op operators -> all_in plain op.
Proof.
  unfold operators. cbn [In].
  intros [<-|[<-|[<-|[<-|[]]]]]; repeat constructor.
Qed.

Lemma plain_not_dquote v : all_in plain v -> all_in not_dquote v.
Proof.
  intros H. eapply Forall_impl; [|exact H]. cbn beta. intros c Hc.
  unfold not_dquote, Not. apply negb_true_iff.
  destruct (Ascii.eqb_spec dquote c) as [<-|_]; [discriminate|reflexivity].
Qed.

Lemma metric_name_plain name : is_metric_name name -> all_in plain name.
Proof.
  destruct name as [|x ns]; [contradiction|]. intros [Hx Hns].
  constructor; [now apply metric_char_plain, metric_start_char|].
  eapply Forall_impl; [|exact Hns]. exact metric_char_plain.
Qed.

(** A written matcher is free of the separators around it. *)
Lemma render_matcher_avoids x t :
  In x specials -> x <> dquote -> writable t -> avoids x (render_matcher t).
Proof.
  intros Hx Hq (Hn & Hop & Hv). unfold render_matcher, quoted, avoids.
  apply Forall_app. split.
  - apply (plain_avoids x); [exact Hx|].
    eapply Forall_impl; [|exact (label_name_chars _ Hn)].
    exact label_char_plain.
  - apply Forall_app. split.
    + apply (plain_avoids x); [exact Hx|]. now apply operator_plain.
    + constructor; [congruence|]. apply Forall_app. split.
      * now apply (plain_avoids x).
      * constructor; [congruence|constructor].
Qed.

Lemma avoids_join x sep l :
  sep <> x -> Forall (avoids x) l -> avoids x (join sep l).
Proof.
  intros Hsep. induction 1 as [|e l He Hl IH]; [constructor|].
  cbn [join]. destruct l as [|e2 l]; [exact He|].
  apply Forall_app. split; [exact He|]. constructor; [exact Hsep|exact IH].
Qed.

Lemma split_clean sep s : ~ In sep s -> split sep s = [s].
Proof.
  induction s as [|x s IH]; intros H; cbn; [reflexivity|].
  destruct (Ascii.eqb_spec x sep) as [->|_]; [exfalso; apply H; now left|].
  rewrite IH by (intros Hi; apply H; now right). reflexivity.
Qed.

Lemma split_app sep a b :
  ~ In sep a -> split sep (a ++ sep :: b) = a :: split sep b.
Proof.
  induction a as [|x a IH]; intros H; cbn.
  - now rewrite Ascii.eqb_refl.
  - destruct (Ascii.eqb_spec x sep) as [->|_]; [exfalso; apply H; now left|].
    rewrite IH by (intros Hi; apply H; now right). reflexivity.
Qed.

(** Joining and splitting at a separator that the parts do not hold. *)
Lemma split_join sep l :
  l <> [] -> Forall (fun e => ~ In sep e) l -> split sep (join sep l) = l.
Proof.
  intros Hne H. induction H as [|e l He Hl IH]; [contradiction|].
  cbn [join]. destruct l as [|e2 l]; [now apply split_clean|].
  rewrite split_app by exact He. f_equal. apply IH. discriminate.
Qed.

Lemma render_matcher_strip t : writable t -> strip (render_matcher t) = render_matcher t.
Proof.
  intros (Hn & Hop & Hv). apply strip_id.
  - unfold render_matcher. destruct (fst (fst t)) as [|x ns]; [contradiction|].
    destruct Hn as [Hx _]. cbn.
    destruct (is_space x) eqn:E; [|reflexivity].
    apply space_not_label in E. apply label_start_char in Hx. congruence.
  - unfold render_matcher, quoted.
    rewrite !rev_app_distr. cbn [rev]. rewrite !rev_app_distr.
    cbn [rev app]. reflexivity.
Qed.

Lemma render_matcher_nonempty t : writable t -> nonempty (render_matcher t) = true.
Proof.
  intros (Hn & _). unfold render_matcher.
  destruct (fst (fst t)); [contradiction|reflexivity].
Qed.

Lemma render_matcher_parsed t : writable t -> parse_matcher (render_matcher t) = Ok t.
Proof.
  intros (Hn & Hop & Hv). destruct t as [[n op] v]. cbn in *.
  apply parse_matcher_ok. exists [], [], []. unfold render_matcher, quoted.
  cbn [fst snd operator_of app].
  repeat split; auto; try constructor. now apply plain_not_dquote.
Qed.

Lemma written_entries ms :
  Forall writable ms ->
  matcher_entries (join "," (map render_matcher ms))
  = map render_matcher ms.
Proof.
  intros H. destruct ms as [|t ms]; [reflexivity|].
  unfold matcher_entries. rewrite split_join.
  - induction H as [|t' l Ht _ IH]; [reflexivity|].
    cbn [map filter]. rewrite (render_matcher_strip t' Ht).
    rewrite (render_matcher_nonempty t' Ht). now f_equal.
  - discriminate.
  - apply Forall_forall. intros e He.
    apply in_map_iff in He as (t' & <- & Ht').
    rewrite Forall_forall in H. apply avoids_in.
    apply render_matcher_avoids; [cbn; tauto|discriminate|now apply H].
Qed.

Lemma written_matchers_parsed ms :
  Forall writable ms -> parse_matchers (map render_matcher ms) = Ok ms.
Proof.
  induction 1 as [|t ms Ht _ IH]; [reflexivity|].
  cbn [map parse_matchers]. now rewrite (render_matcher_parsed t Ht), IH.
Qed.

Lemma written_block_avoids x ms :
  In x specials -> x <> dquote -> x <> "," -> Forall writable ms ->
  avoids x (join "," (map render_matcher ms)).
Proof.
  intros Hx Hq Hc H. apply avoids_join; [congruence|].
  apply Forall_forall. intros e He.
  apply in_map_iff in He as (t & <- & Ht).
  rewrite Forall_forall in H. apply render_matcher_avoids; auto.
Qed.

(** The time range of a written query: the duration of its range text, or
    the default. *)
Definition range_of (range : option str) (r : Z) : Prop :=
  match range with
  | Some d => d <> [] /\ all_in is_range_char d /\ parse_duration d = Ok r
  | None => r = 3600000
  end.

Lemma range_suffix_avoids x range r :
  In x specials -> x <> "[" -> range_of range r ->
  avoids x match range with
           | Some d => "[" :: d ++ ["]"]
           | None => []
           end.
Proof.
  intros Hx Hb Hr. destruct range as [d|]; [|constructor].
  destruct Hr as (_ & Hd & _). constructor; [congruence|].
  apply Forall_app. split.
  - apply (plain_avoids x); [exact Hx|].
    eapply Forall_impl; [|exact Hd]. exact range_char_plain.
  - constructor; [|constructor]. intros E. subst x.
    cbn in Hx. intuition discriminate.
Qed.

Lemma render_query_avoids_at name ms range r :
  is_metric_name name -> Forall writable ms -> range_of range r ->
  ~ In "@" (render_query name ms range).
Proof.
  intros Hn Hms Hr. apply avoids_in. unfold render_query, avoids.
  apply Forall_app. split.
  - apply (plain_avoids "@"); [cbn; tauto|now apply metric_name_plain].
  - constructor; [discriminate|]. apply Forall_app. split.
    + apply written_block_avoids; auto; [cbn; tauto|discriminate|discriminate].
    + constructor; [discriminate|].
      apply (range_suffix_avoids "@" range r); auto; [cbn; tauto|discriminate].
Qed.

Lemma stops_rev_last p s x : p x = false -> stops p (rev (s ++ [x])).
Proof. intros H. now rewrite rev_app_distr. Qed.

Lemma render_query_main name ms range r :
  is_metric_name name -> Forall writable ms -> range_of range r ->
  main_query (render_query name ms range) = render_query name ms range
  /\ hints_query (render_query name ms range) = None.
Proof.
  intros Hn Hms Hr. unfold main_query, hints_query.
  rewrite (split1_clean "@" _ (render_query_avoids_at name ms range r Hn Hms Hr)).
  split; [|reflexivity]. cbn [fst]. apply strip_id.
  - unfold render_query. destruct name as [|x ns]; [contradiction|].
    destruct Hn as [Hx _]. cbn. now apply metric_start_not_space.
  - unfold render_query.
    destruct range as [d|].
    + replace (name ++ "{" :: join "," (map render_matcher ms)
               ++ "}" :: "[" :: d ++ ["]"])
        with ((name ++ "{" :: join "," (map render_matcher ms)
               ++ "}" :: "[" :: d) ++ ["]"])
        by (repeat (rewrite <- app_assoc; cbn [app]); reflexivity).
      now apply stops_rev_last.
    + replace (name ++ "{" :: join "," (map render_matcher ms) ++ ["}"])
        with ((name ++ "{" :: join "," (map render_matcher ms)) ++ ["}"])
        by (repeat (rewrite <- app_assoc; cbn [app]); reflexivity).
      now apply stops_rev_last.
Qed.

Lemma render_query_block name ms range r :
  is_metric_name name -> Forall writable ms -> range_of range r ->
  matcher_block (render_query name ms range)
  = Some (join "," (map render_matcher ms)).
Proof.
  intros Hn Hms Hr. unfold render_query. apply matcher_block_found.
  - apply avoids_in, (plain_avoids "{"); [cbn; tauto|].
    now apply metric_name_plain.
  - apply avoids_in, written_block_avoids; auto;
      [cbn; tauto|discriminate|discriminate].
Qed.

Lemma render_query_matchers name ms range r :
  is_metric_name name -> Forall writable ms -> range_of range r ->
  label_matchers_list (render_query name ms range) = Ok ms.
Proof.
  intros Hn Hms Hr. unfold label_matchers_list.
  rewrite (render_query_block name ms range r Hn Hms Hr).
  rewrite (written_entries ms Hms).
  destruct ms as [|t ms]; [reflexivity|].
  assert (Hne : nonempty (join "," (map render_matcher (t :: ms))) = true).
  { inversion Hms as [|? ? Ht _]; subst.
    pose proof (render_matcher_nonempty t Ht) as H.
    cbn [map join]. destruct (render_matcher t); [discriminate|].
    destruct (map render_matcher ms); reflexivity. }
  rewrite Hne. cbn [map]. now apply (written_matchers_parsed (t :: ms)).
Qed.

Lemma render_query_range name ms range r :
  is_metric_name name -> Forall writable ms -> range_of range r ->
  time_range_ms (render_query name ms range) = Ok r.
Proof.
  intros Hn Hms Hr. unfold time_range_ms.
  assert (Hpre : ~ In "[" (name ++ "{" :: join "," (map render_matcher ms)
                           ++ ["}"])).
  { apply avoids_in. unfold avoids. apply Forall_app. split.
    - apply (plain_avoids "["); [cbn; tauto|now apply metric_name_plain].
    - constructor; [discriminate|]. apply Forall_app. split.
      + apply written_block_avoids; auto;
          [cbn; tauto|discriminate|discriminate].
      + constructor; [discriminate|constructor]. }
  destruct range as [d|].
  - destruct Hr as (Hne & Hd & Hp).
    replace (render_query name ms (Some d))
      with ((name ++ "{" :: join "," (map render_matcher ms) ++ ["}"])
            ++ "[" :: d ++ ["]"]).
    + rewrite (range_block_found _ d [] Hpre Hne Hd). now rewrite Hp.
    + unfold render_query. rewrite <- app_assoc. cbn [app].
      now rewrite <- app_assoc.
  - cbn in Hr. subst r.
    destruct (range_block (render_query name ms None)) as [d|] eqn:E;
      [|reflexivity].
    exfalso. apply range_block_sound in E as (pre & post & E & _).
    apply Hpre. unfold render_query in E. rewrite E.
    apply in_or_app. right. now left.
Qed.

(** X10.  A query written from its parts is parsed into these parts.  For
    a metric name, label matchers with label names, operators among the
    four and values free of the characters of the syntax, and possibly a
    range text that [parse_duration] accepts, the text
    [name{l1 op1 "v1",...}[range]] gives the request with the [__name__]
    matcher and these matchers sorted by value, no hints, and the window
    of the range, or of one hour, ending at the current time.  With no
    matchers at all the text is [name{}], which is accepted. *)
Theorem written_query_parsed now name ms range r :
  is_metric_name name -> Forall writable ms -> range_of range r ->
  construct_read_request now (render_query name ms range)
  = Ok (request_of name ms (mkHintState no_hints (now - r) now)).
Proof.
  intros Hn Hms Hr.
  destruct (render_query_main name ms range r Hn Hms Hr) as [Em Eh].
  assert (Hname : metric_name_of (render_query name ms range) = Some name).
  { unfold render_query. apply metric_name_found; [exact Hn|reflexivity]. }
  pose proof (render_query_matchers name ms range r Hn Hms Hr) as Hl.
  pose proof (render_query_range name ms range r Hn Hms Hr) as Ht.
  rewrite <- Em in Hname, Hl, Ht.
  rewrite (construct_parts now _ name ms r Hname Hl Ht).
  unfold parse_hints, read_hints_str. rewrite Eh. cbn [bind].
  pose proof (time_range_positive _ _ Ht) as Hpos.
  unfold start_of. destruct (Z.ltb_spec 0 r) as [_|Hle]; [reflexivity|lia].
Qed.

Lemma written_query_parsed_witness :
  construct_read_request 1700000000000
    (render_query (lit "http_requests:rate")
       [(lit "job", lit "!=", lit "api server");
        (lit "code", lit "=~", lit "5..")]
       (Some (lit "1h30m")))
  = Ok (request_of (lit "http_requests:rate")
          [(lit "job", lit "!=", lit "api server");
           (lit "code", lit "=~", lit "5..")]
          (mkHintState no_hints (1700000000000 - 5400000) 1700000000000)).
Proof.
  apply written_query_parsed.
  - cbn. split; [reflexivity|repeat constructor].
  - repeat constructor; cbn; tauto.
  - cbn. repeat split; [discriminate|repeat constructor].
Defined.

(** ** What every request holds *)

(** A triple as the entry pattern delivers it. *)
Definition well_formed (t : str * str * str) : Prop :=
  is_label_name (fst (fst t)) /\ In (operator_of t) operators
  /\ all_in not_dquote (snd t).

Lemma parse_matchers_shape es : forall lms,
  parse_matchers es = Ok lms ->
  Forall well_formed lms /\ length lms = length es.
Proof.
  induction es as [|lm es IH]; cbn; intros lms.
  - intros [= <-]. split; [constructor|reflexivity].
  - destruct (parse_matcher lm) as [[[n o] v]|] eqn:E; [|discriminate]. cbn.
    destruct (parse_matchers es) as [ts|] eqn:Es; [|discriminate]. cbn.
    intros [= <-]. destruct (IH ts eq_refl) as [Hf Hl].
    split; [|cbn; now rewrite Hl].
    constructor; [|exact Hf].
    apply parse_matcher_ok in E
      as (rest & ws1 & ws2 & _ & Hn & _ & Ho & _ & Hv).
    repeat split; assumption.
Qed.

(** The entries of the matcher block of a main query. *)
Definition block_entries (main : str) : list str :=
  match matcher_block main with
  | Some b => matcher_entries b
  | None => []
  end.

Lemma label_matchers_shape main lms :
  label_matchers_list main = Ok lms ->
  Forall well_formed lms /\ length lms = length (block_entries main).
Proof.
  unfold label_matchers_list, block_entries.
  destruct (matcher_block main) as [b|].
  - destruct b as [|x b]; cbn [nonempty].
    + intros [= <-]. split; [constructor|reflexivity].
    + destruct (matcher_entries (x :: b)) as [|e es] eqn:E; [discriminate|].
      apply parse_matchers_shape.
  - cbn [nonempty]. intros [= <-]. split; [constructor|reflexivity].
Qed.

(** X11.  Every request that is built has one query and accepts the
    response type SAMPLES.  After the [__name__] matcher it has one
    matcher for each non-empty entry of the matcher block, no more and no
    less, and each of them has a label name ([[a-zA-Z_][a-zA-Z0-9_]*]) as
    its name and a value without a double quote. *)
Theorem request_invariants now qs r :
  construct_read_request now qs = Ok r ->
  accepted_response_types r = [SAMPLES]
  /\ length (queries r) = 1%nat
  /\ length (label_matchers_of r)
     = length (block_entries (main_query qs))
  /\ Forall (fun m => is_label_name (m_name m)
                      /\ all_in not_dquote (m_value m))
       (label_matchers_of r).
Proof.
  intros H.
  destruct (construct_ok_inv now qs r H)
    as (name & lms & range & st & _ & Hl & _ & _ & ->).
  destruct (label_matchers_shape _ _ Hl) as [Hf Hlen].
  cbn [request_of accepted_response_types queries label_matchers_of
         matchers tl length].
  repeat split.
  - rewrite (Permutation_length (sort_by_perm m_value _)).
    now rewrite length_map.
  - eapply Permutation_Forall; [symmetry; apply sort_by_perm|].
    apply Forall_map. eapply Forall_impl; [|exact Hf].
    intros [[n o] v] (Hn & _ & Hv). cbn in *. split; assumption.
Qed.

Lemma request_invariants_witness :
  let r := request_of (lit "metric")
             [(lit "b", lit "=", lit "2"); (lit "a", lit "=", lit "1")]
             (mkHintState no_hints 1699996400000 1700000000000) in
  accepted_response_types r = [SAMPLES]
  /\ length (queries r) = 1%nat
  /\ length (label_matchers_of r)
     = length (block_entries (main_query (two_matchers "b" "2" "a" "1")))
  /\ Forall (fun m => is_label_name (m_name m)
                      /\ all_in not_dquote (m_value m))
       (label_matchers_of r).
Proof.
  intros r.
  apply (request_invariants 1700000000000 (two_matchers "b" "2" "a" "1")).
  vm_compute. reflexivity.
Defined.

(** * Writing and the helpers of the tests *)

(** ** construct_write_request *)

Module Pb.
(** Modelled from the spec: the messages [Label], [Sample], [TimeSeries]
    and [WriteRequest] of [prom_pb2], with the fields the code assigns.
    The value of a sample is left abstract and timestamps are unbounded
    integers. *)
Record Label : Type := mkLabel {
  name : str;
  value : str
}.

Record Sample (V : Type) : Type := mkSample {
  sample_value : V;
  timestamp : Z
}.

Record TimeSeries (V : Type) : Type := mkTimeSeries {
  labels : list Label;
  samples : list (Sample V)
}.

Record WriteRequest (V : Type) : Type := mkWriteRequest {
  timeseries : list (TimeSeries V)
}.

Arguments mkSample {V}.
Arguments sample_value {V}.
Arguments timestamp {V}.
Arguments mkTimeSeries {V}.
Arguments labels {V}.
Arguments samples {V}.
Arguments mkWriteRequest {V}.
Arguments timeseries {V}.
End Pb.

(** An element of [data]: a dictionary that may have the key 'labels', a
    dictionary from names to values given by its items in their order, and
    the key 'samples', a list of pairs of a value and a timestamp. *)
Record SeriesData (V : Type) : Type := mkSeriesData {
  data_labels : option (list (str * str));
  data_samples : option (list (V * Z))
}.

Arguments mkSeriesData {V}.
Arguments data_labels {V}.
Arguments data_samples {V}.

Section Writer.
Context {V : Type}.

(** The body of the loop over [data]: the labels are looked up and added
    before the samples are looked up. *)
Definition add_timeseries (timeseries_data : SeriesData V)
  : result key_error (Pb.TimeSeries V) :=
  match data_labels timeseries_data with
  | None => Err (KeyError (lit "labels"))
  | Some ls =>
      match data_samples timeseries_data with
      | None => Err (KeyError (lit "samples"))
      | Some ss =>
          Ok (Pb.mkTimeSeries
                (map (fun '(label_name, label_value) =>
                        Pb.mkLabel label_name label_value) ls)
                (map (fun '(value, timestamp) =>
                        Pb.mkSample value timestamp) ss))
      end
  end.

Definition construct_write_request (data : list (SeriesData V))
  : result key_error (Pb.WriteRequest V) :=
  let* tss := map_result add_timeseries data in
  Ok (Pb.mkWriteRequest tss).

(** The dictionary a series of a request was built from. *)
Definition data_of (ts : Pb.TimeSeries V) : SeriesData V :=
  mkSeriesData
    (Some (map (fun l => (Pb.name l, Pb.value l)) (Pb.labels ts)))
    (Some (map (fun s => (Pb.sample_value s, Pb.timestamp s))
             (Pb.samples ts))).

(** A dictionary with both keys. *)
Definition complete (d : SeriesData V) : Prop :=
  data_labels d <> None /\ data_samples d <> None.

(** The key a dictionary lacks, 'labels' before 'samples'. *)
Definition missing_key (d : SeriesData V) : option str :=
  match data_labels d, data_samples d with
  | None, _ => Some (lit "labels")
  | Some _, None => Some (lit "samples")
  | Some _, Some _ => None
  end.
End Writer.

(** ** The helpers of the tests *)

(** [results = remote_read_results.get('results', [])], then
    [not results or not results[0]]: a result is a dictionary whose only
    key is 'timeseries', so it is false exactly when it lacks that key. *)
Definition is_empty {Sample} (remote_read_results : ReadResponse Sample)
  : bool :=
  match results remote_read_results with
  | None => true
  | Some [] => true
  | Some (r :: _) =>
      match r_timeseries r with
      | None => true
      | Some _ => false
      end
  end.

(** [label.get('name') == target_label] *)
Definition has_name (target_label : str) (label : Label) : bool :=
  match l_name label with
  | Some n => str_eqb n target_label
  | None => false
  end.

(** The value of the first label with the name, [None] both when there is
    no such label and when that label has no value. *)
Fixpoint get_label_value (labels : list Label) (target_label : str)
  : option str :=
  match labels with
  | [] => None
  | label :: rest =>
      if has_name target_label label then l_value label
      else get_label_value rest target_label
  end.

(** ** Lists of results *)

Lemma map_result_app {E X Y} (f : X -> result E Y) a b :
  map_result f (a ++ b)
  = let* x := map_result f a in
    let* y := map_result f b in
    Ok (x ++ y).
Proof.
  induction a as [|x a IH]; cbn [app map_result].
  - cbn [bind]. destruct (map_result f b); reflexivity.
  - destruct (f x) as [y|e]; cbn [bind]; [|reflexivity].
    rewrite IH.
    destruct (map_result f a) as [ys|e]; cbn [bind]; [|reflexivity].
    destruct (map_result f b) as [zs|e]; cbn [bind]; reflexivity.
Qed.

Lemma map_result_ok {E X Y} (f : X -> result E Y) l : forall l',
  map_result f l = Ok l' <-> Forall2 (fun x y => f x = Ok y) l l'.
Proof.
  induction l as [|x l IH]; intros l'; cbn [map_result].
  - split.
    + intros [= <-]. constructor.
    + intros H. inversion H. reflexivity.
  - split.
    + destruct (f x) as [y|e] eqn:Ex; cbn [bind]; [|discriminate].
      destruct (map_result f l) as [ys|e] eqn:Es; cbn [bind]; [|discriminate].
      intros [= <-]. constructor; [exact Ex|]. now apply IH.
    + intros H. inversion H as [|? y ? ys Hy Hys]; subst.
      rewrite Hy. cbn [bind]. apply IH in Hys. rewrite Hys. reflexivity.
Qed.

Lemma map_result_err {E X Y} (f : X -> result E Y) l e :
  map_result f l = Err e <->
  exists pre x post, l = pre ++ x :: post /\ f x = Err e
    /\ Forall (fun x => exists y, f x = Ok y) pre.
Proof.
  induction l as [|x l IH]; cbn [map_result].
  - split; [discriminate|].
    intros (pre & x & post & H & _). destruct pre; discriminate.
  - split.
    + destruct (f x) as [y|e'] eqn:Ex; cbn [bind].
      * destruct (map_result f l) as [ys|e'] eqn:Es; cbn [bind];
          [discriminate|].
        intros [= ->]. destruct (proj1 IH eq_refl)
          as (pre & x' & post & -> & Hx & Hpre).
        exists (x :: pre), x', post. repeat split; [exact Hx|].
        constructor; [now exists y|exact Hpre].
      * intros [= ->]. exists [], x, l. repeat split; [exact Ex|constructor].
    + intros (pre & x' & post & H & Hx & Hpre).
      destruct pre as [|p pre]; cbn [app] in H; injection H as -> ->.
      * rewrite Hx. reflexivity.
      * inversion Hpre as [|? ? [y Hy] Hpre']; subst.
        rewrite Hy. cbn [bind].
        rewrite (proj2 IH) by (exists pre, x', post; auto).
        reflexivity.
Qed.

(** ** Write requests *)

Section WriterFacts.
Context {V : Type}.

Lemma add_timeseries_ok (d : SeriesData V) ts :
  add_timeseries d = Ok ts <-> d = data_of ts.
Proof.
  unfold add_timeseries, data_of. split.
  - destruct d as [[ls|] [ss|]]; cbn; try discriminate.
    intros [= <-]. cbn. rewrite !map_map. f_equal; f_equal.
    + rewrite <- (map_id ls) at 1. apply map_ext. now intros [n v].
    + rewrite <- (map_id ss) at 1. apply map_ext. now intros [v t].
  - intros ->. cbn. destruct ts as [ls ss]. cbn. rewrite !map_map.
    do 2 f_equal.
    + rewrite <- (map_id ls) at 2. apply map_ext. now intros [n v].
    + rewrite <- (map_id ss) at 2. apply map_ext. now intros [v t].
Qed.

Lemma add_timeseries_err (d : SeriesData V) e :
  add_timeseries d = Err e <-> missing_key d = Some (let 'KeyError k := e in k).
Proof.
  unfold add_timeseries, missing_key. destruct e as [k].
  destruct d as [[ls|] [ss|]]; cbn; split; intros H;
    try discriminate; now injection H as <-.
Qed.

Lemma add_timeseries_complete (d : SeriesData V) :
  (exists ts, add_timeseries d = Ok ts) <-> complete d.
Proof.
  unfold add_timeseries, complete.
  destruct d as [[ls|] [ss|]]; cbn; split.
  all: try (intros [ts H]; discriminate).
  all: try (intros [H1 H2]; congruence).
  - intros _. split; discriminate.
  - intros _. eexists. reflexivity.
Qed.

(** X12.  The request for two lists of records one after the other is
    the request for the first followed by the series of the request for
    the second; when either fails so does the whole, with the error of the
    first list if both fail. *)
Theorem write_request_append (a b : list (SeriesData V)) :
  construct_write_request (a ++ b)
  = let* ra := construct_write_request a in
    let* rb := construct_write_request b in
    Ok (Pb.mkWriteRequest (Pb.timeseries ra ++ Pb.timeseries rb)).
Proof.
  unfold construct_write_request. rewrite map_result_app.
  destruct (map_result add_timeseries a) as [x|e]; cbn [bind]; [|reflexivity].
  destruct (map_result add_timeseries b) as [y|e]; cbn [bind]; reflexivity.
Qed.

(** X13.  A request is built from the records exactly when the records
    can be read back from it: one series for each record, in order, with
    the record's labels in the order of its items and its samples in their
    order, nothing dropped, merged or reordered. *)
Theorem write_request_read_back (data : list (SeriesData V)) w :
  construct_write_request data = Ok w
  <-> data = map data_of (Pb.timeseries w).
Proof.
  unfold construct_write_request. destruct w as [tss]. cbn [Pb.timeseries].
  split.
  - destruct (map_result add_timeseries data) as [l|e] eqn:E; cbn [bind];
      [|discriminate].
    intros [= ->]. apply map_result_ok in E.
    induction E as [|d ts data tss Hd _ IH]; cbn [map]; [reflexivity|].
    apply add_timeseries_ok in Hd. now rewrite <- Hd, <- IH.
  - intros ->.
    assert (E : map_result add_timeseries (map data_of tss) = Ok tss).
    { apply map_result_ok. induction tss as [|ts tss IH]; cbn [map];
        constructor; [now apply add_timeseries_ok|exact IH]. }
    rewrite E. reflexivity.
Qed.

(** X14.  Building fails exactly when some record lacks a key, and the
    error is the [KeyError] of the first such record: 'labels' when it has
    no labels, 'samples' when it has labels but no samples. *)
Theorem write_request_key_error (data : list (SeriesData V)) key :
  construct_write_request data = Err (KeyError key)
  <-> exists pre d post,
        data = pre ++ d :: post /\ Forall complete pre
        /\ missing_key d = Some key.
Proof.
  unfold construct_write_request. split.
  - destruct (map_result add_timeseries data) as [l|e] eqn:E; cbn [bind];
      [discriminate|].
    intros [= ->]. apply map_result_err in E
      as (pre & d & post & -> & Hd & Hpre).
    exists pre, d, post. split; [reflexivity|]. split.
    + eapply Forall_impl; [|exact Hpre]. intros x Hx.
      now apply add_timeseries_complete.
    + now apply add_timeseries_err in Hd.
  - intros (pre & d & post & -> & Hpre & Hd).
    assert (E : map_result add_timeseries (pre ++ d :: post)
                = Err (KeyError key)).
    { apply map_result_err. exists pre, d, post.
      split; [reflexivity|]. split.
      - now apply add_timeseries_err.
      - eapply Forall_impl; [|exact Hpre]. intros x Hx.
        now apply add_timeseries_complete. }
    rewrite E. reflexivity.
Qed.
End WriterFacts.

(** ** Normalised responses and the helpers *)

Lemma label_names_inv ls ks :
  map_result label_name ls = Ok ks -> Forall named ls.
Proof.
  intros H. apply map_result_ok in H.
  induction H as [|l k ls ks Hl _ IH]; constructor; [|exact IH].
  unfold label_name in Hl. unfold named.
  destruct (l_name l); [discriminate|discriminate].
Qed.

Lemma sort_labels_inv ls ls' :
  sort_labels ls = Ok ls' ->
  Forall named ls /\ ls' = sort_by name_text ls.
Proof.
  intros H.
  assert (Hn : Forall named ls).
  { unfold sort_labels in H.
    destruct (map_result label_name ls) as [ks|e] eqn:Ek; [|discriminate].
    eapply label_names_inv, Ek. }
  split; [exact Hn|].
  rewrite (sort_labels_ok ls Hn) in H. now injection H.
Qed.

Lemma sort_labels_err ls e :
  sort_labels ls = Err e -> e = KeyError (lit "name") /\ ~ Forall named ls.
Proof.
  intros H. split.
  - unfold sort_labels in H.
    destruct (map_result label_name ls) as [ks|e'] eqn:Ek; [discriminate|].
    injection H as ->. apply map_result_err in Ek
      as (pre & l & post & _ & Hl & _).
    unfold label_name in Hl. destruct (l_name l); congruence.
  - intros Hn. rewrite (sort_labels_ok ls Hn) in H. discriminate.
Qed.

Lemma has_name_named t l :
  named l -> has_name t l = str_eqb (name_text l) t.
Proof.
  unfold named, has_name, name_text. destruct (l_name l); [reflexivity|].
  intros H. now contradiction H.
Qed.

(** Among named labels the helper returns the value of the first one
    with the name. *)
Lemma get_label_value_first ls t :
  Forall named ls ->
  get_label_value ls t
  = match with_key name_text t ls with
    | [] => None
    | l :: _ => l_value l
    end.
Proof.
  induction 1 as [|l ls Hl _ IH]; cbn [get_label_value with_key filter];
    [reflexivity|].
  rewrite (has_name_named t l Hl).
  destruct (str_eqb (name_text l) t); [reflexivity|exact IH].
Qed.

Section HelperFacts.
Context {Sample : Type}.

(** X15.  Sorting the labels of a series does not change what
    [get_label_value] returns for any name: the sort is stable, so the
    first label with a name stays the first with that name. *)
Theorem get_label_value_normalized (ts ts' : TimeSeries Sample) ls :
  normalize_timeseries ts = Ok ts' -> ts_labels ts = Some ls ->
  exists ls', ts_labels ts' = Some ls'
    /\ forall target_label,
         get_label_value ls' target_label = get_label_value ls target_label.
Proof.
  unfold normalize_timeseries. intros H E. rewrite E in H.
  destruct (sort_labels ls) as [ls'|e] eqn:Es; [|discriminate].
  injection H as <-. exists ls'. split; [reflexivity|]. intros t.
  apply sort_labels_inv in Es as [Hn ->].
  rewrite !get_label_value_first.
  - now rewrite (sort_by_stable name_text ls t).
  - exact Hn.
  - eapply Permutation_Forall; [symmetry; apply sort_by_perm|exact Hn].
Qed.

(** X16.  A response is empty for [is_empty] after the normalisation
    exactly when it was before. *)
Theorem is_empty_normalized (r r' : ReadResponse Sample) :
  normalize r = Ok r' -> is_empty r' = is_empty r.
Proof.
  unfold normalize, is_empty. destruct r as [[rs|]]; cbn [results].
  - destruct (map_result normalize_result rs) as [rs'|e] eqn:E;
      cbn [bind]; [|discriminate].
    intros [= <-]. cbn [results]. apply map_result_ok in E.
    destruct E as [|q q' rs rs' Hq _]; [reflexivity|].
    unfold normalize_result in Hq. destruct q as [[tss|]]; cbn in Hq.
    + destruct (map_result normalize_timeseries tss); [|discriminate].
      injection Hq as <-. reflexivity.
    + injection Hq as <-. reflexivity.
  - intros [= <-]. reflexivity.
Qed.

Lemma normalize_timeseries_ok_iff (ts : TimeSeries Sample) :
  (exists ts', normalize_timeseries ts = Ok ts') <-> series_well_keyed ts.
Proof.
  unfold normalize_timeseries, series_well_keyed.
  destruct (ts_labels ts) as [ls|].
  - split.
    + intros [ts' H].
      destruct (sort_labels ls) as [ls'|e] eqn:Es; [|discriminate].
      now apply sort_labels_inv in Es.
    + intros Hn. rewrite (sort_labels_ok ls Hn). eexists. reflexivity.
  - split; [intros [ts' H]; discriminate|contradiction].
Qed.

Lemma map_result_ok_all {E X Y} (f : X -> result E Y) l :
  (exists l', map_result f l = Ok l')
  <-> Forall (fun x => exists y, f x = Ok y) l.
Proof.
  split.
  - intros [l' H]. apply map_result_ok in H.
    induction H as [|x y l l' Hx _ IH]; constructor; [now exists y|exact IH].
  - induction 1 as [|x l [y Hy] _ [l' IH]].
    + exists []. reflexivity.
    + exists (y :: l'). cbn [map_result]. rewrite Hy, IH. reflexivity.
Qed.

Lemma Forall_equiv {X} (P Q : X -> Prop) l :
  (forall x, P x <-> Q x) -> Forall P l <-> Forall Q l.
Proof.
  intros H. split; apply Forall_impl; intros x; apply H.
Qed.

Lemma normalize_result_ok_iff (q : QueryResult Sample) :
  (exists q', normalize_result q = Ok q') <-> result_well_keyed q.
Proof.
  unfold normalize_result, result_well_keyed.
  destruct (r_timeseries q) as [tss|].
  - rewrite <- (Forall_equiv _ _ tss normalize_timeseries_ok_iff).
    rewrite <- map_result_ok_all. split.
    + intros [q' H].
      destruct (map_result normalize_timeseries tss) as [l|]; [|discriminate].
      now exists l.
    + intros [l ->]. eexists. reflexivity.
  - split; [trivial|]. intros _. eexists. reflexivity.
Qed.

Definition key_errors : list key_error :=
  [KeyError (lit "labels"); KeyError (lit "name")].

Lemma normalize_timeseries_err (ts : TimeSeries Sample) e :
  normalize_timeseries ts = Err e -> In e key_errors.
Proof.
  unfold normalize_timeseries. destruct (ts_labels ts) as [ls|].
  - destruct (sort_labels ls) as [ls'|e'] eqn:Es; [discriminate|].
    intros [= <-]. apply sort_labels_err in Es as [-> _]. right. now left.
  - intros [= <-]. now left.
Qed.

Lemma normalize_result_err (q : QueryResult Sample) e :
  normalize_result q = Err e -> In e key_errors.
Proof.
  unfold normalize_result. destruct (r_timeseries q) as [tss|];
    [|discriminate].
  destruct (map_result normalize_timeseries tss) as [l|e'] eqn:El;
    [discriminate|].
  intros [= <-]. apply map_result_err in El as (_ & ts & _ & _ & H & _).
  eapply normalize_timeseries_err, H.
Qed.

(** X17.  The normalisation succeeds exactly on the responses in which
    every series has its labels and every label its name; when it fails
    the error is the [KeyError] of 'labels' or of 'name'. *)
Theorem normalize_succeeds_iff (r : ReadResponse Sample) :
  ((exists r', normalize r = Ok r') <-> well_keyed r)
  /\ forall e, normalize r = Err e ->
       e = KeyError (lit "labels") \/ e = KeyError (lit "name").
Proof.
  unfold normalize, well_keyed. destruct (results r) as [rs|].
  - split.
    + rewrite <- (Forall_equiv _ _ rs normalize_result_ok_iff).
      rewrite <- map_result_ok_all. split.
      * intros [r' H].
        destruct (map_result normalize_result rs) as [l|]; [|discriminate].
        now exists l.
      * intros [l ->]. eexists. reflexivity.
    + intros e.
      destruct (map_result normalize_result rs) as [l|e'] eqn:El;
        [discriminate|].
      intros [= <-]. apply map_result_err in El as (_ & q & _ & _ & H & _).
      apply normalize_result_err in H.
      destruct H as [<-|[<-|[]]]; [left|right]; reflexivity.
  - split; [|discriminate]. split; [trivial|]. intros _. eexists. reflexivity.
Qed.
End HelperFacts.

Lemma get_label_value_normalized_witness :
  let ls := [label "instance" "i"; label "__name__" "m"; label "instance" "j"]
  in
  exists ls',
    ts_labels
      (mkTimeSeries
         (Some [label "__name__" "m"; label "instance" "i";
                label "instance" "j"])
         (Some [(220, 1)]))
    = Some ls'
    /\ forall target_label,
         get_label_value ls' target_label = get_label_value ls target_label.
Proof.
  intros ls.
  apply (get_label_value_normalized
           (mkTimeSeries (Some ls) (Some [(220, 1)]))).
  - vm_compute. reflexivity.
  - reflexivity.
Defined.

Lemma is_empty_normalized_witness :
  let r := one_series [label "instance" "i"; label "__name__" "m"]
             [(220, 1)] in
  is_empty (one_series [label "__name__" "m"; label "instance" "i"]
              [(220, 1)])
  = is_empty r.
Proof.
  intros r. apply (is_empty_normalized r). vm_compute. reflexivity.
Defined.

(** ** Examples of the further properties *)

Lemma missing_metric_name_iff_witness :
  construct_read_request 1700000000000 (lit " {job=x}[5m]")
  = Err MissingMetricName.
Proof.
  apply (proj2 (missing_metric_name_iff 1700000000000 (lit " {job=x}[5m]"))).
  vm_compute. reflexivity.
Defined.

Definition two_records : list (SeriesData Z) :=
  [mkSeriesData (Some [(lit "__name__", lit "m"); (lit "instance", lit "i")])
     (Some [(300, 1700000000000); (400, 1699999999900)]);
   mkSeriesData (Some []) (Some [])].

Lemma write_request_read_back_witness :
  construct_write_request two_records
  = Ok (Pb.mkWriteRequest
          [Pb.mkTimeSeries
             [Pb.mkLabel (lit "__name__") (lit "m");
              Pb.mkLabel (lit "instance") (lit "i")]
             [Pb.mkSample 300 1700000000000;
              Pb.mkSample 400 1699999999900];
           Pb.mkTimeSeries [] []]).
Proof.
  apply (proj2 (write_request_read_back two_records _)). reflexivity.
Defined.

Lemma write_request_key_error_witness :
  construct_write_request
    (two_records
     ++ [mkSeriesData (Some [(lit "job", lit "j")]) None;
         mkSeriesData None (Some [(1, 2)])])
  = Err (KeyError (lit "samples")).
Proof.
  apply (proj2 (write_request_key_error _ _)).
  exists two_records, (mkSeriesData (Some [(lit "job", lit "j")]) None),
    [mkSeriesData None (Some [(1, 2)])].
  split; [reflexivity|]. split; [|reflexivity].
  repeat constructor; discriminate.
Defined.

Lemma normalize_succeeds_iff_witness :
  exists r',
    normalize (one_series [label "instance" "i"; label "__name__" "m"]
                 [(220, 1)])
    = Ok r'.
Proof.
  apply (proj2 (proj1 (normalize_succeeds_iff _))).
  cbn. repeat constructor; discriminate.
Defined.
